(** * Graph rewriting drivers of [aesara/graph/opt.py]

    A shallow embedding of the rewrite drivers ([SeqOptimizer],
    [MergeFeature] / [MergeOptimizer], [LocalOptTracker], [PatternSub],
    [NavigatorOptimizer], [TopoOptimizer], [EquilibriumOptimizer]) together
    with the properties the specification states about them.

    Python objects are referred to by identity, so variables, apply nodes and
    rewriters are numbered; mutable attributes live in explicit stores that
    are threaded through the functions.  Exceptions are results. *)

From stdpp Require Import base option list gmap strings.
From Stdlib Require Import ZArith Lia Floats.SpecFloat.

Local Open Scope nat_scope.

(** ** Exceptions and the state-and-exception monad *)

(** The exception classes the drivers distinguish.  All of them derive from
    Python's [Exception]; [LocalMetaOptimizerSkipAssertionError] derives from
    [AssertionError]. *)
Inductive exn : Type :=
| AssertionError
| LocalMetaOptimizerSkipAssertionError
| InconsistencyError
| TypeError
| ValueError
| IndexError
| OtherException (tag : nat).

(** [isinstance(e, AssertionError)] *)
Definition is_AssertionError (e : exn) : bool :=
  match e with
  | AssertionError | LocalMetaOptimizerSkipAssertionError => true
  | _ => false
  end.

(** [isinstance(e, InconsistencyError)] *)
Definition is_InconsistencyError (e : exn) : bool :=
  match e with
  | InconsistencyError => true
  | _ => false
  end.

Inductive outcome (A : Type) : Type :=
| Normal (a : A)
| Raise (e : exn).
Arguments Normal {A} a.
Arguments Raise {A} e.

(** A computation over a mutable world [W] that returns or raises; the world
    reached when the exception is raised is kept, as in Python. *)
Definition M (W A : Type) : Type := W → outcome A * W.

Global Instance M_ret {W} : MRet (M W) := λ A a w, (Normal a, w).
Global Instance M_bind {W} : MBind (M W) := λ A B k c w,
  match c w with
  | (Normal a, w') => k a w'
  | (Raise e, w') => (Raise e, w')
  end.
Definition mraise {W A} (e : exn) : M W A := λ w, (Raise e, w).

(** The values of [config.on_opt_error]. *)
Inductive on_opt_error_t : Type := OnErrRaise | OnErrWarn | OnErrIgnore | OnErrPdb.

(** ** SeqOptimizer *)

Module SeqOptimizer.
Section Seq.
(** [W] is the function graph with everything attached to it; [prof] is
    the type of the profiles sub-rewriters return. *)
Context {W prof : Type}.

(** A [GlobalOptimizer]: its two overridable methods. *)
Record GlobalOptimizer : Type := {
  add_requirements : M W unit;
  apply : M W prof;
}.

(** [GlobalOptimizer.optimize] *)
Definition optimize (opt : GlobalOptimizer) : M W prof :=
  _ ← add_requirements opt; apply opt.

(** [failure_callback(exc, self, optimizer)]; [self] is given by its
    [data]. *)
Definition failure_callback_t : Type :=
  exn → list GlobalOptimizer → GlobalOptimizer → M W unit.

(** [SeqOptimizer.warn], the default callback (logging left out; the
    post-mortem debugger returns when the user leaves it). *)
Definition warn (on_opt_error : on_opt_error_t) : failure_callback_t :=
  λ exc _ _,
    match on_opt_error with
    | OnErrRaise => mraise exc
    | _ => mret tt
    end.

Record SeqOptimizer : Type := {
  data : list GlobalOptimizer;
  failure_callback : option failure_callback_t;
}.

(** The [for optimizer in self.data] loop of [SeqOptimizer.apply];
    [sub_profs] accumulates the profiles of the sub-rewriters that
    returned. *)
Fixpoint apply_loop (self : SeqOptimizer) (todo : list GlobalOptimizer)
    (sub_profs : list prof) : M W (list prof) :=
  match todo with
  | [] => mret sub_profs
  | optimizer :: todo' =>
      λ w,
        match optimize optimizer w with
        | (Normal sub_prof, w') =>
            apply_loop self todo' (sub_profs ++ [sub_prof]) w'
        | (Raise e, w') =>
            if is_AssertionError e then (Raise e, w')
            else
              match failure_callback self with
              | Some cb =>
                  match cb e (data self) optimizer w' with
                  | (Normal _, w'') => apply_loop self todo' sub_profs w''
                  | (Raise e', w'') => (Raise e', w'')
                  end
              | None => (Raise e, w')
              end
        end
  end.

(** [SeqOptimizer.apply]: the profile is reduced to [sub_profs]. *)
Definition seq_apply (self : SeqOptimizer) : M W (list prof) :=
  apply_loop self (data self) [].

End Seq.
Arguments GlobalOptimizer : clear implicits.
Arguments SeqOptimizer : clear implicits.
Arguments failure_callback_t : clear implicits.
End SeqOptimizer.

(** ** Graph objects

    Variables and apply nodes are Python objects compared by identity: they
    are numbered.  The attributes that rewriting never rebinds ([owner],
    [type], [op], [outputs], ...) are functions of the object; [name] and
    [inputs] are rebound and live in stores. *)

Definition var : Type := nat.
Definition node : Type := nat.

(** The first component of a client: an [Apply] node or the string
    ["output"]. *)
Inductive client_owner : Type :=
| COutput
| CNode (n : node).

Global Instance client_owner_eq_dec : EqDecision client_owner.
Proof. solve_decision. Defined.

Definition client : Type := client_owner * nat.

(** Modelled from the spec: the operator, type and value interfaces of
    sections 3 and 6 ([aesara.graph.basic], [aesara.graph.op],
    [aesara.raise_op] are not part of this file).  [Op_eq] is Python's [==]
    on operators, [Sig_eq] on merge signatures. *)
Class Objects : Type := {
  Op : Type;
  Op_eq :: EqDecision Op;
  ty : Type;
  ty_eq :: EqDecision ty;
  Sig : Type;
  Sig_eq :: EqDecision Sig;
  Sig_countable :: Countable Sig;
  (** [v.owner] *)
  owner : var → option node;
  (** [v.type] *)
  var_type : var → ty;
  (** [isinstance(v, Constant)] *)
  is_Constant : var → bool;
  (** [c.merge_signature()] *)
  merge_signature : var → Sig;
  (** the truth value of [t.convert_variable(v)] *)
  convert_variable : ty → var → bool;
  (** [n.op] *)
  node_op : node → Op;
  (** [n.outputs] *)
  node_outputs : node → list var;
  (** [op.destroy_map], a dict from output index to input indices; empty
      when the operator has none *)
  destroy_map : Op → list (nat * list nat);
  (** [isinstance(op, CheckAndRaise)] *)
  is_CheckAndRaise : Op → bool;
}.

(** The feature callbacks a function graph fires. *)
Inductive event : Type :=
| OnImport (n : node)
| OnPrune (n : node)
| OnChangeInput (c : client_owner) (i : nat) (r new_r : var).

(** Modelled from the spec: the function graph interface of section 6
    ([aesara.graph.fg] is not part of this file).  A mutation primitive
    returns the callbacks it fired, each with the graph as the callback sees
    it, the graph it leaves and the exception it ends with, if any.  The
    [clients] dict is read only at variables of the graph, where it has an
    entry. *)
Class FunctionGraph (G : Type) : Type := {
  fg_inputs : G → list var;
  fg_outputs : G → list var;
  (** [v in fgraph.variables] *)
  fg_variables : G → var → bool;
  (** [n in fgraph.apply_nodes] *)
  fg_apply_nodes : G → node → bool;
  (** [len(fgraph.apply_nodes)] *)
  fg_nb_apply_nodes : G → nat;
  (** [fgraph.clients[v]] *)
  fg_clients : G → var → list client;
  (** [n.inputs], which [change_input] rebinds *)
  node_inputs : G → node → list var;
  (** [hasattr(fgraph, "destroy_handler")] *)
  has_destroy_handler : G → bool;
  replace_all : G → list (var * var) → list (G * event) * G * option exn;
  replace_all_validate :
    G → list (var * var) → list (G * event) * G * option exn;
  replace_all_validate_remove :
    G → list (var * var) → list var → list (G * event) * G * option exn;
  (** [io_toposort(fgraph.inputs, start_from)] *)
  io_toposort : G → list var → list node;
  (** [vars_between(fgraph.inputs, outs)] *)
  vars_between : G → list var → list var;
}.

(** Truth value of a [name] attribute: [None] and the empty string are
    false. *)
Definition name_truthy (name : option string) : bool :=
  match name with
  | Some s => negb (bool_decide (s = EmptyString))
  | None => false
  end.

(** [for x in l: body(x)] *)
Fixpoint mfor {W A} (l : list A) (body : A → M W unit) : M W unit :=
  match l with
  | [] => mret tt
  | x :: l' => _ ← body x; mfor l' body
  end.

(** [l.pop()] on a non-empty list: the last element and the rest. *)
Fixpoint pop_last {A} (l : list A) : option (A * list A) :=
  match l with
  | [] => None
  | [x] => Some (x, [])
  | x :: l' => '(y, r) ← pop_last l'; Some (y, x :: r)
  end.

(** ** MergeFeature and MergeOptimizer *)

Module Merge.
Section Merge.
Context `{Objects} {G : Type} `{FunctionGraph G}.

(** The third component of a scheduled pair. *)
Inductive merge_mode : Type := ModeMerge | ModeNewNode.

(** A replacement plan: one [(old, new, mode)] triple per output. *)
Definition plan : Type := list (var * var * merge_mode).

Record MergeFeature : Type := {
  seen_constants : gset var;
  const_sig : gmap var Sig;
  const_sig_inv : gmap Sig var;
  nodes_seen : gset node;
  noinput_nodes : list node;
  scheduled : list (list plan);
  blacklist : list (option node * option node);
}.

(** What the feature's callbacks write: the [name] attributes of the
    variables and the feature's own fields. *)
Record feat_world : Type := {
  names : gmap var string;
  feature : MergeFeature;
}.

Definition set_scheduled (f : MergeFeature) (s : list (list plan)) :=
  {| seen_constants := seen_constants f; const_sig := const_sig f;
     const_sig_inv := const_sig_inv f; nodes_seen := nodes_seen f;
     noinput_nodes := noinput_nodes f; scheduled := s;
     blacklist := blacklist f |}.

Definition set_blacklist (f : MergeFeature)
    (b : list (option node * option node)) :=
  {| seen_constants := seen_constants f; const_sig := const_sig f;
     const_sig_inv := const_sig_inv f; nodes_seen := nodes_seen f;
     noinput_nodes := noinput_nodes f; scheduled := scheduled f;
     blacklist := b |}.

Definition set_nodes_seen (f : MergeFeature) (s : gset node)
    (ni : list node) :=
  {| seen_constants := seen_constants f; const_sig := const_sig f;
     const_sig_inv := const_sig_inv f; nodes_seen := s;
     noinput_nodes := ni; scheduled := scheduled f;
     blacklist := blacklist f |}.

Definition set_constants (f : MergeFeature) (seen : gset var)
    (cs : gmap var Sig) (csi : gmap Sig var) :=
  {| seen_constants := seen; const_sig := cs; const_sig_inv := csi;
     nodes_seen := nodes_seen f; noinput_nodes := noinput_nodes f;
     scheduled := scheduled f; blacklist := blacklist f |}.

(** [dst.name = src.name], run when [src.name] is true. *)
Definition copy_name (src dst : var) (nm : gmap var string) :
    gmap var string :=
  match nm !! src with
  | Some s => <[dst := s]> nm
  | None => nm
  end.

(** [MergeFeature.process_constant] *)
Definition process_constant (c : var) : M feat_world unit := λ w,
  let f := feature w in
  if bool_decide (c ∈ seen_constants f) then (Normal tt, w)
  else
    let sig := merge_signature c in
    match const_sig_inv f !! sig with
    | Some other_c =>
        let nm :=
          if name_truthy (names w !! c) then copy_name c other_c (names w)
          else names w in
        (Normal tt,
         {| names := nm;
            feature :=
              set_scheduled f (scheduled f ++ [[[(c, other_c, ModeMerge)]]])
         |})
    | None =>
        (Normal tt,
         {| names := names w;
            feature :=
              set_constants f ({[c]} ∪ seen_constants f)
                (<[c := sig]> (const_sig f))
                (<[sig := c]> (const_sig_inv f)) |})
    end.

(** [all(a is b for a, b in zip(xs, ys))] *)
Definition inputs_match (xs ys : list var) : bool :=
  forallb (λ p, bool_decide (p.1 = p.2)) (zip xs ys).

(** The name transfer loop of [process_node]. *)
Definition transfer_names (pairs : plan) (nm : gmap var string) :
    gmap var string :=
  foldl (λ nm p,
           let '(node_output, cand_output, _) := p in
           if name_truthy (nm !! node_output)
           then copy_name node_output cand_output nm else nm)
        nm pairs.

(** [OrderedSet.add] *)
Definition oset_add (n : node) (s : list node) : list node :=
  if bool_decide (n ∈ s) then s else s ++ [n].

(** [OrderedSet.discard] *)
Definition oset_discard (n : node) (s : list node) : list node :=
  filter (λ m, m ≠ n) s.

(** The candidate list of [process_node]: the seen clients of the first
    or last input, whichever has fewer clients, or every seen node
    without input. *)
Definition merge_candidates (g : G) (f : MergeFeature) (n : node) :
    outcome (list node) :=
  match node_inputs g n with
  | [] => Normal (noinput_nodes f)
  | (i0 :: _) as ins =>
      let a_clients := fg_clients g i0 in
      let b_clients := fg_clients g (List.last ins i0) in
      let clients :=
        if length a_clients <? length b_clients then a_clients
        else b_clients in
      if 0 <? length clients then
        Normal (omap (λ c : client,
                        match c.1 with
                        | CNode m =>
                            if bool_decide (m ∈ nodes_seen f) then Some m
                            else None
                        | COutput => None
                        end) clients)
      else Raise AssertionError
  end.

(** One turn of [for candidate in merge_candidates]; the state of the
    loop is the name store and [replacement_candidates]. *)
Definition try_candidate (g : G) (f : MergeFeature) (n : node)
    (st : gmap var string * list plan) (candidate : node) :
    gmap var string * list plan :=
  let '(nm, replacement_candidates) := st in
  if bool_decide (candidate = n) then st
  else if bool_decide
            (length (node_inputs g n) ≠ length (node_inputs g candidate))
  then st
  else if inputs_match (node_inputs g n) (node_inputs g candidate)
          && bool_decide (node_op n = node_op candidate)
  then
    if bool_decide ((Some n, Some candidate) ∈ blacklist f) then st
    else
      let pairs :=
        zip_with (λ o c, (o, c, ModeMerge))
                 (node_outputs n) (node_outputs candidate) in
      (transfer_names pairs nm, replacement_candidates ++ [pairs])
  else st.

(** [MergeFeature.process_node] *)
Definition process_node (g : G) (n : node) : M feat_world unit := λ w,
  let f := feature w in
  if bool_decide (n ∈ nodes_seen f) then (Normal tt, w)
  else
    match merge_candidates g f n with
    | Raise e => (Raise e, w)
    | Normal cands =>
        let '(nm, replacement_candidates) :=
          foldl (try_candidate g f n) (names w, []) cands in
        match replacement_candidates with
        | _ :: _ =>
            (Normal tt,
             {| names := nm;
                feature :=
                  set_scheduled f (scheduled f ++ [replacement_candidates])
             |})
        | [] =>
            (Normal tt,
             {| names := nm;
                feature :=
                  set_nodes_seen f ({[n]} ∪ nodes_seen f)
                    (match node_inputs g n with
                     | [] => oset_add n (noinput_nodes f)
                     | _ => noinput_nodes f
                     end) |})
        end
    end.

(** [MergeFeature.on_import] *)
Definition on_import (g : G) (n : node) : M feat_world unit :=
  _ ← mfor (node_inputs g n)
        (λ c, if is_Constant c then process_constant c else mret tt);
  process_node g n.

(** [MergeFeature.on_change_input] *)
Definition on_change_input (g : G) (c : client_owner) (i : nat)
    (r new_r : var) : M feat_world unit :=
  _ ← (match c with
       | CNode n =>
           _ ← (λ w,
                 if bool_decide (n ∈ nodes_seen (feature w)) then
                   process_node g n
                     {| names := names w;
                        feature :=
                          set_nodes_seen (feature w)
                            (nodes_seen (feature w) ∖ {[n]})
                            (noinput_nodes (feature w)) |}
                 else (Normal tt, w));
           match node_inputs g n with
           | [] => mraise AssertionError
           | _ => mret tt
           end
       | COutput => mret tt
       end);
  if is_Constant new_r then process_constant new_r else mret tt.

(** [MergeFeature.on_prune] *)
Definition on_prune (g : G) (n : node) : M feat_world unit := λ w,
  let f := feature w in
  let f1 :=
    set_nodes_seen f (nodes_seen f ∖ {[n]})
      (match node_inputs g n with
       | [] => oset_discard n (noinput_nodes f)
       | _ => noinput_nodes f
       end) in
  let f2 :=
    foldl (λ f c,
             if is_Constant c && (length (fg_clients g c) <=? 1) then
               set_constants f (seen_constants f ∖ {[c]})
                 (delete c (const_sig f))
                 (match const_sig f !! c with
                  | Some sig => delete sig (const_sig_inv f)
                  | None => const_sig_inv f
                  end)
             else f)
          f1 (node_inputs g n) in
  (Normal tt, {| names := names w; feature := f2 |}).

(** Dispatch of a fired callback to the feature. *)
Definition handle (g : G) (ev : event) : M feat_world unit :=
  match ev with
  | OnImport n => on_import g n
  | OnPrune n => on_prune g n
  | OnChangeInput c i r new_r => on_change_input g c i r new_r
  end.

(** The fields [MergeFeature.on_attach] sets before it imports the nodes
    of the graph. *)
Definition empty_feature : MergeFeature :=
  {| seen_constants := ∅; const_sig := ∅; const_sig_inv := ∅;
     nodes_seen := ∅; noinput_nodes := []; scheduled := [];
     blacklist := [] |}.

(** [MergeFeature.on_attach], for a graph that has no merge feature yet;
    [fgraph.toposort()] is [io_toposort] from the outputs. *)
Definition on_attach (g : G) : M feat_world unit := λ w,
  mfor (io_toposort g (fg_outputs g)) (on_import g)
    {| names := names w; feature := empty_feature |}.

(** *** MergeOptimizer.apply *)

(** The state [apply] works on: the graph, the feature reached through
    [fgraph.merge_feature] and the three counters. *)
Record apply_state : Type := {
  graph : G;
  fw : feat_world;
  nb_fail : nat;
  nb_merged : nat;
  nb_constant : nat;
}.

Definition with_world (s : apply_state) (g : G) (w : feat_world) :=
  {| graph := g; fw := w; nb_fail := nb_fail s; nb_merged := nb_merged s;
     nb_constant := nb_constant s |}.

(** Runs the feature on the callbacks a mutation fired.  A callback that
    raises stops the mutation where it is. *)
Fixpoint fire (tr : list (G * event)) (g_end : G) (w : feat_world) :
    outcome unit * (G * feat_world) :=
  match tr with
  | [] => (Normal tt, (g_end, w))
  | (g, ev) :: tr' =>
      match handle g ev w with
      | (Normal _, w') => fire tr' g_end w'
      | (Raise e, w') => (Raise e, (g, w'))
      end
  end.

(** The input list of a node with the [CheckAndRaise] nodes removed. *)
Fixpoint inputs_assert_removed (g : G) (ins : list var) :
    outcome (list var) :=
  match ins with
  | [] => Normal []
  | i :: ins' =>
      let head :=
        match owner i with
        | Some o =>
            if is_CheckAndRaise (node_op o) then
              match node_inputs g o with
              | i0 :: _ => Normal i0
              | [] => Raise IndexError
              end
            else Normal i
        | None => Normal i
        end in
      match head with
      | Raise e => Raise e
      | Normal h =>
          match inputs_assert_removed g ins' with
          | Raise e => Raise e
          | Normal t => Normal (h :: t)
          end
      end
  end.

(** [flatten(op.destroy_map.values())] *)
Definition destroyed_inputs (op : Op) : list nat :=
  concat (map snd (destroy_map op)).

(** One term of the sum of the destroy test: the client is a node whose
    operator has a non-empty [destroy_map] that lists the input position
    the client reads. *)
Definition is_destroyer (c : client) : bool :=
  match c.1 with
  | CNode m =>
      match destroy_map (node_op m) with
      | [] => false
      | _ :: _ => bool_decide (c.2 ∈ destroyed_inputs (node_op m))
      end
  | COutput => false
  end.

(** The sum of the destroy test. *)
Definition nb_destroyers (clients : list client) : nat :=
  length (List.filter is_destroyer clients).

(** The destroy test of a plan whose first pair is [(var, candidate)]. *)
Definition destroy_conflict (g : G) (v candidate : var) : bool :=
  has_destroy_handler g
  && (1 <? nb_destroyers (fg_clients g v ++ fg_clients g candidate)).

(** The part of the loop body before the [try]: [Normal None] stands for
    [continue], [Normal (Some pairs)] carries the pairs to replace. *)
Definition prepare_plan (g : G) (pairs_ : plan) :
    outcome (option (list (var * var))) :=
  match pairs_ with
  | [] => Raise IndexError
  | (v, candidate, mode) :: _ =>
      if negb (match mode with
               | ModeNewNode => fg_variables g v
               | ModeMerge => false
               end)
         && (negb (fg_variables g v) || negb (fg_variables g candidate))
      then Normal None
      else
        let pairs := map (λ p : var * var * merge_mode, p.1) pairs_ in
        let checked : outcome bool :=
          match owner v, owner candidate with
          | Some n, Some cn =>
              match inputs_assert_removed g (node_inputs g cn) with
              | Raise e => Raise e
              | Normal cand_inputs =>
                  match inputs_assert_removed g (node_inputs g n) with
                  | Raise e => Raise e
                  | Normal node_inputs' =>
                      let im :=
                        match mode with
                        | ModeNewNode => true
                        | ModeMerge => inputs_match node_inputs' cand_inputs
                        end in
                      if negb im then Normal false
                      else if destroy_conflict g v candidate
                      then Normal false
                      else Normal true
                  end
              end
          | _, _ => Normal true
          end in
        match checked with
        | Raise e => Raise e
        | Normal false => Normal None
        | Normal true =>
            match pairs with
            | [(a, b)] =>
                if bool_decide (var_type a ≠ var_type b)
                   && negb (convert_variable (var_type a) b)
                then Normal (Some [(b, a)])
                else Normal (Some pairs)
            | _ => Normal (Some pairs)
            end
        end
  end.

(** The body of the [try]: the graph mutation together with the feature
    callbacks it fires. *)
Definition do_replace (pairs : list (var * var)) (g : G) (w : feat_world) :
    outcome unit * (G * feat_world) :=
  let '(tr, g', ex) :=
    if forallb (λ p : var * var, is_Constant p.1) pairs
    then replace_all g pairs else replace_all_validate g pairs in
  match fire tr g' w with
  | (Normal _, gw) =>
      match ex with
      | None => (Normal tt, gw)
      | Some e => (Raise e, gw)
      end
  | (Raise e, gw) => (Raise e, gw)
  end.

(** [(pairs[0][0].owner, pairs[0][1].owner)] *)
Definition blacklist_entry (pairs : list (var * var)) :
    option node * option node :=
  match pairs with
  | (a, b) :: _ => (owner a, owner b)
  | [] => (None, None)
  end.

(** How one turn of [for pairs_ in pairs_list] ends: with the next plan,
    carrying [success], or with [break]. *)
Inductive ctl : Type :=
| Next (success : bool)
| Break.

(** One turn of [for pairs_ in pairs_list]. *)
Definition try_plan (success : bool) (pairs_ : plan) : M apply_state ctl :=
  λ s,
    match prepare_plan (graph s) pairs_ with
    | Raise e => (Raise e, s)
    | Normal None => (Normal (Next success), s)
    | Normal (Some pairs) =>
        match do_replace pairs (graph s) (fw s) with
        | (Raise e, (g', w')) =>
            if is_InconsistencyError e then
              let w'' :=
                {| names := names w';
                   feature :=
                     set_blacklist (feature w')
                       (blacklist (feature w') ++ [blacklist_entry pairs])
                |} in
              (Normal (Next false),
               {| graph := g'; fw := w''; nb_fail := nb_fail s + 1;
                  nb_merged := nb_merged s;
                  nb_constant := nb_constant s |})
            else (Raise e, with_world s g' w')
        | (Normal _, (g', w')) =>
            if success then
              (Normal Break,
               {| graph := g'; fw := w'; nb_fail := nb_fail s;
                  nb_merged := nb_merged s + length pairs;
                  nb_constant :=
                    match pairs with
                    | (a, _) :: _ =>
                        if is_Constant a then nb_constant s + 1
                        else nb_constant s
                    | [] => nb_constant s
                    end |})
            else (Normal (Next false), with_world s g' w')
        end
    end.

(** [for pairs_ in pairs_list], entered with [success]. *)
Fixpoint run_group (success : bool) (pairs_list : list plan) :
    M apply_state unit :=
  match pairs_list with
  | [] => mret tt
  | pairs_ :: rest =>
      c ← try_plan success pairs_;
      match c with
      | Break => mret tt
      | Next success' => run_group success' rest
      end
  end.

(** One turn of [while sched]: [sched.pop()] and the loop over the plans of
    the group; [None] when the list is empty. *)
Definition loop_turn (s : apply_state) : option (outcome unit * apply_state) :=
  match pop_last (scheduled (feature (fw s))) with
  | None => None
  | Some (pairs_list, sched') =>
      Some (run_group true pairs_list
              (with_world s (graph s)
                 {| names := names (fw s);
                    feature := set_scheduled (feature (fw s)) sched' |}))
  end.

(** [while sched]; [None] when [fuel] turns do not empty the list. *)
Fixpoint apply_loop (fuel : nat) (s : apply_state) :
    option (outcome unit * apply_state) :=
  match loop_turn s with
  | None => Some (Normal tt, s)
  | Some r =>
      match fuel with
      | 0 => None
      | S fuel' =>
          match r with
          | (Normal _, s2) => apply_loop fuel' s2
          | (Raise e, s2) => Some (Raise e, s2)
          end
      end
  end.

(** What one turn of the loop over the plans appends to the blacklist: the
    pair of the owners when the replacement raises [InconsistencyError],
    nothing otherwise. *)
Definition appended_by_plan (pairs_ : plan) (s : apply_state) :
    list (option node * option node) :=
  match prepare_plan (graph s) pairs_ with
  | Normal (Some pairs) =>
      match (do_replace pairs (graph s) (fw s)).1 with
      | Raise e =>
          if is_InconsistencyError e then [blacklist_entry pairs] else []
      | Normal _ => []
      end
  | _ => []
  end.

(** The profile [apply] returns, without the timings. *)
Record profile : Type := {
  p_nb_fail : nat;
  p_nb_merged : nat;
  p_nb_constant : nat;
}.

(** [MergeOptimizer.apply] on a graph whose merge feature is [w]. *)
Definition apply (fuel : nat) (g : G) (w : feat_world) :
    option (outcome profile * (G * feat_world)) :=
  let s0 :=
    {| graph := g; fw := w; nb_fail := 0; nb_merged := 0;
       nb_constant := 0 |} in
  match apply_loop fuel s0 with
  | None => None
  | Some (Raise e, s) => Some (Raise e, (graph s, fw s))
  | Some (Normal _, s) =>
      Some (Normal {| p_nb_fail := nb_fail s; p_nb_merged := nb_merged s;
                      p_nb_constant := nb_constant s |},
            (graph s,
             {| names := names (fw s);
                feature := set_blacklist (feature (fw s)) [] |}))
  end.
End Merge.
Arguments apply_state {_} G.
End Merge.

(** ** A function graph

    Modelled from the spec: the graph of section 3 ([aesara.graph.fg] is not
    part of this file).  Clients are kept complete, a node is imported when
    a variable it owns is first attached, pruned when none of its outputs
    has a client left, and every mutation fires its callback.  The features
    that validate the graph are the parameter [validate]. *)

Module FG.
Section FG.
Context `{Objects}.

Record fgraph : Type := {
  inputs : list var;
  outputs : list var;
  apply_nodes : list node;
  variables : list var;
  clients : gmap var (list client);
  (** [n.inputs] for every apply node, resident or not *)
  node_ins : gmap node (list var);
  destroy_handler : bool;
}.

Variable validate : fgraph → bool.

Definition get_clients (g : fgraph) (v : var) : list client :=
  default [] (clients g !! v).
Definition get_inputs (g : fgraph) (n : node) : list var :=
  default [] (node_ins g !! n).

Definition set_clients (g : fgraph) (v : var) (cl : list client) :=
  {| inputs := inputs g; outputs := outputs g;
     apply_nodes := apply_nodes g; variables := variables g;
     clients := <[v := cl]> (clients g); node_ins := node_ins g;
     destroy_handler := destroy_handler g |}.

Definition set_residents (g : fgraph) (ns : list node) (vs : list var) :=
  {| inputs := inputs g; outputs := outputs g; apply_nodes := ns;
     variables := vs; clients := clients g; node_ins := node_ins g;
     destroy_handler := destroy_handler g |}.

Definition set_input (g : fgraph) (c : client_owner) (i : nat) (v : var) :=
  match c with
  | COutput =>
      {| inputs := inputs g; outputs := <[i := v]> (outputs g);
         apply_nodes := apply_nodes g; variables := variables g;
         clients := clients g; node_ins := node_ins g;
         destroy_handler := destroy_handler g |}
  | CNode n =>
      {| inputs := inputs g; outputs := outputs g;
         apply_nodes := apply_nodes g; variables := variables g;
         clients := clients g;
         node_ins := <[n := <[i := v]> (get_inputs g n)]> (node_ins g);
         destroy_handler := destroy_handler g |}
  end.

Definition add_var (v : var) (vs : list var) : list var :=
  if bool_decide (v ∈ vs) then vs else vs ++ [v].

(** Removes the first occurrence, as [list.remove]. *)
Fixpoint remove_first {A} `{EqDecision A} (x : A) (l : list A) :
    option (list A) :=
  match l with
  | [] => None
  | y :: l' =>
      if decide (x = y) then Some l' else (y ::.) <$> remove_first x l'
  end.

(** A bound on the length of any walk over the apply nodes. *)
Definition size_bound (g : fgraph) : nat :=
  S (map_fold (λ _ ins acc, S (length ins) + acc) 0 (node_ins g)).

(** [remove_client]: drops clients, pruning the nodes left without any. *)
Fixpoint remove_client (fuel : nat) (stack : list (var * client))
    (g : fgraph) (evs : list (fgraph * event)) :
    fgraph * list (fgraph * event) :=
  match fuel with
  | 0 => (g, evs)
  | S fuel' =>
      match pop_last stack with
      | None => (g, evs)
      | Some ((v, c), stack') =>
          match remove_first c (get_clients g v) with
          | None => remove_client fuel' stack' g evs
          | Some ((_ :: _) as cl) =>
              remove_client fuel' stack' (set_clients g v cl) evs
          | Some [] =>
              let g1 := set_clients g v [] in
              match owner v with
              | None =>
                  remove_client fuel' stack'
                    (set_residents g1 (apply_nodes g1)
                       (filter (λ x, x ≠ v) (variables g1)))
                    evs
              | Some n =>
                  if existsb
                       (λ o, match get_clients g1 o with
                             | [] => false
                             | _ => true
                             end)
                       (node_outputs n)
                  then remove_client fuel' stack' g1 evs
                  else
                    let g2 :=
                      set_residents g1
                        (filter (λ x, x ≠ n) (apply_nodes g1))
                        (filter (λ x, x ∉ node_outputs n) (variables g1))
                    in
                    remove_client fuel'
                      (stack'
                       ++ imap (λ i in_var, (in_var, (CNode n, i)))
                            (get_inputs g2 n))
                      g2 (evs ++ [(g2, OnPrune n)])
              end
          end
      end
  end.

(** The apply nodes that are not resident yet, inputs first. *)
Fixpoint new_nodes (fuel : nat) (g : fgraph) (acc : list node) (v : var) :
    list node :=
  match fuel with
  | 0 => acc
  | S fuel' =>
      if bool_decide (v ∈ variables g) then acc
      else
        match owner v with
        | None => acc
        | Some n =>
            if bool_decide (n ∈ acc) then acc
            else foldl (new_nodes fuel' g) acc (get_inputs g n) ++ [n]
        end
  end.

(** [import_node] for one node of the list above. *)
Definition import_one (ge : fgraph * list (fgraph * event)) (n : node) :
    fgraph * list (fgraph * event) :=
  let '(g, evs) := ge in
  let g1 :=
    set_residents g (apply_nodes g ++ [n])
      (foldl (λ vs v, add_var v vs) (variables g)
         (node_outputs n ++ get_inputs g n)) in
  let g2 :=
    foldl (λ g iv, set_clients g iv.2
                     (get_clients g iv.2 ++ [(CNode n, iv.1)]))
          g1 (imap (λ i v, (i, v)) (get_inputs g n)) in
  (g2, evs ++ [(g2, OnImport n)]).

(** [import_var] *)
Definition import_var (g : fgraph) (v : var) :
    fgraph * list (fgraph * event) :=
  let '(g1, evs) :=
    foldl import_one (g, []) (new_nodes (size_bound g) g [] v) in
  (set_residents g1 (apply_nodes g1) (add_var v (variables g1)), evs).

(** [change_input] *)
Definition change_input (g : fgraph) (c : client_owner) (i : nat)
    (new_var : var) : fgraph * list (fgraph * event) :=
  let old :=
    match c with
    | COutput => outputs g !! i
    | CNode n => get_inputs g n !! i
    end in
  match old with
  | None => (g, [])
  | Some r =>
      let g1 := set_input g c i new_var in
      if bool_decide (r = new_var) then (g1, [])
      else
        let '(g2, evs2) := import_var g1 new_var in
        let g3 :=
          set_clients g2 new_var (get_clients g2 new_var ++ [(c, i)]) in
        let '(g4, evs4) :=
          remove_client (size_bound g3) [(r, (c, i))] g3 evs2 in
        (g4, evs4 ++ [(g4, OnChangeInput c i r new_var)])
  end.

(** [replace]: every client of [v] is rebound to [new_v]. *)
Definition replace (ge : fgraph * list (fgraph * event)) (p : var * var) :
    fgraph * list (fgraph * event) :=
  let '(g, evs) := ge in
  if bool_decide (p.1 ∈ variables g) then
    foldl (λ ge (c : client),
             let '(g', evs') := change_input ge.1 c.1 c.2 p.2 in
             (g', ge.2 ++ evs'))
          (g, evs) (get_clients g p.1)
  else (g, evs).

(** The type test of invariant 3. *)
Definition type_ok (p : var * var) : bool :=
  bool_decide (var_type p.1 = var_type p.2)
  || convert_variable (var_type p.1) p.2.

Definition fg_replace_all (g : fgraph) (pairs : list (var * var)) :
    list (fgraph * event) * fgraph * option exn :=
  if forallb type_ok pairs then
    let '(g', evs) := foldl replace (g, []) pairs in (evs, g', None)
  else ([], g, Some TypeError).

(** Undoes the input changes of a trace, last first. *)
Definition revert (ge : fgraph * list (fgraph * event)) :
    fgraph * list (fgraph * event) :=
  foldl (λ ge (x : fgraph * event),
           match x.2 with
           | OnChangeInput c i r _ =>
               let '(g', evs') := change_input ge.1 c i r in
               (g', ge.2 ++ evs')
           | _ => ge
           end)
        ge (reverse ge.2).

Definition fg_replace_all_validate (g : fgraph) (pairs : list (var * var)) :
    list (fgraph * event) * fgraph * option exn :=
  match fg_replace_all g pairs with
  | (evs, g', None) =>
      if validate g' then (evs, g', None)
      else let '(g'', evs') := revert (g', evs) in
           (evs', g'', Some InconsistencyError)
  | r => r
  end.

Definition fg_replace_all_validate_remove (g : fgraph)
    (pairs : list (var * var)) (remove : list var) :
    list (fgraph * event) * fgraph * option exn :=
  match fg_replace_all_validate g pairs with
  | (evs, g', None) =>
      if existsb (λ rm, bool_decide (rm ∈ variables g')) remove then
        let '(g'', evs') := revert (g', evs) in
        (evs', g'', Some (OtherException 0))
      else (evs, g', None)
  | r => r
  end.

(** Depth-first walk from [v] back to the graph inputs: the nodes, inputs
    first, and the variables met. *)
Fixpoint walk (fuel : nat) (g : fgraph) (acc : list node * list var)
    (v : var) : list node * list var :=
  match fuel with
  | 0 => acc
  | S fuel' =>
      if bool_decide (v ∈ acc.2) then acc
      else
        let acc1 := (acc.1, acc.2 ++ [v]) in
        if bool_decide (v ∈ inputs g) then acc1
        else
          match owner v with
          | None => acc1
          | Some n =>
              if bool_decide (n ∈ acc1.1) then acc1
              else
                let acc2 := foldl (walk fuel' g) acc1 (get_inputs g n) in
                (acc2.1 ++ [n], acc2.2)
          end
  end.

Definition fg_io_toposort (g : fgraph) (start_from : list var) : list node :=
  (foldl (walk (size_bound g) g) ([], []) start_from).1.

Definition fg_vars_between (g : fgraph) (outs : list var) : list var :=
  (foldl (walk (size_bound g) g) ([], []) outs).2.

Definition fg_instance : FunctionGraph fgraph :=
  {| fg_inputs := inputs;
     fg_outputs := outputs;
     fg_variables := λ g v, bool_decide (v ∈ variables g);
     fg_apply_nodes := λ g n, bool_decide (n ∈ apply_nodes g);
     fg_nb_apply_nodes := λ g, length (apply_nodes g);
     fg_clients := get_clients;
     node_inputs := get_inputs;
     has_destroy_handler := destroy_handler;
     replace_all := fg_replace_all;
     replace_all_validate := fg_replace_all_validate;
     replace_all_validate_remove := fg_replace_all_validate_remove;
     io_toposort := fg_io_toposort;
     vars_between := fg_vars_between |}.

(** Builds the graph of the given outputs: imports them one by one and
    marks them as clients of ["output"]. *)
Definition make_graph (ins outs : list var) (nins : gmap node (list var))
    (dh : bool) : fgraph :=
  let g0 :=
    {| inputs := ins; outputs := outs; apply_nodes := [];
       variables := ins; clients := ∅; node_ins := nins;
       destroy_handler := dh |} in
  foldl (λ g iv,
           let g1 := (import_var g iv.2).1 in
           set_clients g1 iv.2 (get_clients g1 iv.2 ++ [(COutput, iv.1)]))
        g0 (imap (λ i v, (i, v)) outs).
End FG.
End FG.

(** ** LocalOptTracker *)

Module LocalOptTracker.
Section Tracker.
(** Operators and operator classes, with Python's [==] and hashing;
    [type_of] is [type(op)] and [compose_mro] is
    [functools._compose_mro]. *)
Context {Op cls : Type} `{EqDecision Op} `{EqDecision cls}.
Variable type_of : Op → cls.
Variable compose_mro : cls → list cls → list cls.

(** Rewriters are compared by identity. *)
Definition rewriter : Type := nat.

(** An element of [rw.tracks()]: an operator class or an operator. *)
Inductive track : Type :=
| TrackType (c : cls)
| TrackInstance (op : Op).

(** [rw.tracks()]; [None] for a rewriter that applies to every node. *)
Variable tracks : rewriter → option (list track).

(** The dicts keep their keys in insertion order. *)
Record LocalOptTracker : Type := {
  tracked_instances : list (Op * list rewriter);
  tracked_types : list (cls * list rewriter);
  untracked_opts : list rewriter;
}.

(** [LocalOptTracker()] *)
Definition empty : LocalOptTracker :=
  {| tracked_instances := []; tracked_types := []; untracked_opts := [] |}.

(** [d.setdefault(k, []).append(rw)] *)
Fixpoint setdefault_append {K} `{EqDecision K} (k : K) (rw : rewriter)
    (d : list (K * list rewriter)) : list (K * list rewriter) :=
  match d with
  | [] => [(k, [rw])]
  | (k', l) :: d' =>
      if decide (k = k') then (k', l ++ [rw]) :: d'
      else (k', l) :: setdefault_append k rw d'
  end.

(** [d.get(k, None)] *)
Fixpoint dict_get {K V} `{EqDecision K} (k : K) (d : list (K * V)) :
    option V :=
  match d with
  | [] => None
  | (k', v) :: d' => if decide (k = k') then Some v else dict_get k d'
  end.

(** [LocalOptTracker.add_tracker] *)
Definition add_tracker (self : LocalOptTracker) (rw : rewriter) :
    LocalOptTracker :=
  match tracks rw with
  | None =>
      {| tracked_instances := tracked_instances self;
         tracked_types := tracked_types self;
         untracked_opts := untracked_opts self ++ [rw] |}
  | Some ts =>
      foldl (λ self c,
               match c with
               | TrackType c =>
                   {| tracked_instances := tracked_instances self;
                      tracked_types :=
                        setdefault_append c rw (tracked_types self);
                      untracked_opts := untracked_opts self |}
               | TrackInstance op =>
                   {| tracked_instances :=
                        setdefault_append op rw (tracked_instances self);
                      tracked_types := tracked_types self;
                      untracked_opts := untracked_opts self |}
               end)
            self ts
  end.

(** [LocalOptTracker._find_impl] *)
Definition _find_impl (self : LocalOptTracker) (c : cls) : list rewriter :=
  let mro := compose_mro c (map fst (tracked_types self)) in
  concat (map (λ t, default [] (dict_get t (tracked_types self))) mro).

(** The body of [get_trackers], which the cache wraps. *)
Definition get_trackers_body (self : LocalOptTracker) (op : Op) :
    list rewriter :=
  _find_impl self (type_of op)
  ++ default [] (dict_get op (tracked_instances self))
  ++ untracked_opts self.

(** *** The cache of [functools.lru_cache()]

    The decorator is applied to the function in the class body: one cache
    serves every tracker, keyed by [(self, op)] with [self] compared by
    identity.  It holds [maxsize = 128] entries, the most recently used
    first; a miss on a full cache drops the least recently used entry. *)
Definition maxsize : nat := 128.

Definition cache_key : Type := nat * Op.
Definition cache : Type := list (cache_key * list rewriter).

(** The trackers that exist, by identity, and the shared cache. *)
Record world : Type := {
  trackers : nat → LocalOptTracker;
  lru : cache;
}.

(** [tracker.get_trackers(op)] for the tracker [self_id]. *)
Definition get_trackers (self_id : nat) (op : Op) (w : world) :
    list rewriter * world :=
  let key := (self_id, op) in
  match dict_get key (lru w) with
  | Some r =>
      (r, {| trackers := trackers w;
             lru := (key, r) :: filter (λ e, e.1 ≠ key) (lru w) |})
  | None =>
      let r := get_trackers_body (trackers w self_id) op in
      (r, {| trackers := trackers w;
             lru := take maxsize ((key, r) :: lru w) |})
  end.

(** [tracker.add_tracker(rw)] for the tracker [self_id]. *)
Definition add_tracker_to (self_id : nat) (rw : rewriter) (w : world) :
    world :=
  {| trackers := λ i, if decide (i = self_id)
                      then add_tracker (trackers w i) rw
                      else trackers w i;
     lru := lru w |}.

(** What a program does with trackers between two queries. *)
Inductive action : Type :=
| AddTracker (self_id : nat) (rw : rewriter)
| GetTrackers (self_id : nat) (op : Op).

Definition run_action (w : world) (a : action) : world :=
  match a with
  | AddTracker i rw => add_tracker_to i rw w
  | GetTrackers i op => (get_trackers i op w).2
  end.

Definition run (acts : list action) (w : world) : world :=
  foldl run_action w acts.

Definition is_query (a : action) : bool :=
  match a with
  | GetTrackers _ _ => true
  | AddTracker _ _ => false
  end.

(** The fresh state: no tracker has a rewriter, the cache is empty. *)
Definition initial : world := {| trackers := λ _, empty; lru := [] |}.

(** Number of [get_trackers] calls in a program. *)
Definition queries (acts : list action) : nat :=
  length (List.filter is_query acts).

(** The entry [(key, r)] is in the cache, behind at most [k] entries, none
    of which has the same key. *)
Definition cached (key : nat * Op) (r : list rewriter) (k : nat)
    (w : world) : Prop :=
  ∃ pre post, (lru w = pre ++ (key, r) :: post) ∧ (key ∉ fst <$> pre)
              ∧ length pre ≤ k.
End Tracker.
End LocalOptTracker.

(** ** PatternSub *)

Module PatternSub.
Section PS.
Context `{Objects} {G : Type} `{FunctionGraph G}.

(** Modelled from the spec: the pattern grammar of section 4.4
    ([aesara.graph.unify] and the unification library are not part of this
    file): a variable name, a literal, a specific constant, an operator
    applied to sub-patterns, or a pattern with a constraint. *)
Inductive pattern : Type :=
| PVar (name : string)
| PLit (value : Sig)
| PConst (c : var)
| PApp (op : Op) (args : patterns)
| PConstrained (p : pattern) (constraint : G → var → bool)
with patterns : Type :=
| PNil
| PCons (p : pattern) (ps : patterns).

Scheme pattern_ind' := Induction for pattern Sort Prop
  with patterns_ind' := Induction for patterns Sort Prop.
Combined Scheme pattern_patterns_ind from pattern_ind', patterns_ind'.

Definition subst : Type := gmap string var.

(** Modelled from the spec: unification of a pattern with a value, with an
    environment from names to values (section 9).  A name is bound at most
    once; a constraint is tested on the value it is matched with. *)
Fixpoint unify (g : G) (p : pattern) (v : var) (s : subst) {struct p} :
    option subst :=
  match p with
  | PVar x =>
      match s !! x with
      | Some v' => if bool_decide (v = v') then Some s else None
      | None => Some (<[x := v]> s)
      end
  | PLit val =>
      if is_Constant v && bool_decide (merge_signature v = val)
      then Some s else None
  | PConst c =>
      if is_Constant v
         && bool_decide (merge_signature v = merge_signature c)
         && bool_decide (var_type v = var_type c)
      then Some s else None
  | PApp op args =>
      match owner v with
      | Some n =>
          if bool_decide (node_op n = op)
          then unify_args g args (node_inputs g n) s else None
      | None => None
      end
  | PConstrained p c => if c g v then unify g p v s else None
  end
with unify_args (g : G) (ps : patterns) (vs : list var) (s : subst)
    {struct ps} : option subst :=
  match ps, vs with
  | PNil, [] => Some s
  | PCons p ps', v :: vs' =>
      match unify g p v s with
      | Some s' => unify_args g ps' vs' s'
      | None => None
      end
  | _, _ => None
  end.

(** The values of the matched subgraph: every value a part of the pattern
    is matched with. *)
Fixpoint matched_values (g : G) (p : pattern) (v : var) {struct p} :
    list var :=
  match p with
  | PApp op args =>
      v :: match owner v with
           | Some n => matched_args g args (node_inputs g n)
           | None => []
           end
  | PConstrained p _ => matched_values g p v
  | _ => [v]
  end
with matched_args (g : G) (ps : patterns) (vs : list var) {struct ps} :
    list var :=
  match ps, vs with
  | PCons p ps', v :: vs' => matched_values g p v ++ matched_args g ps' vs'
  | _, _ => []
  end.

(** Every constraint of the pattern holds of the value it is matched
    with. *)
Fixpoint constraints_hold (g : G) (p : pattern) (v : var) {struct p} :
    bool :=
  match p with
  | PApp op args =>
      match owner v with
      | Some n => constraints_hold_args g args (node_inputs g n)
      | None => true
      end
  | PConstrained p c => c g v && constraints_hold g p v
  | _ => true
  end
with constraints_hold_args (g : G) (ps : patterns) (vs : list var)
    {struct ps} : bool :=
  match ps, vs with
  | PCons p ps', v :: vs' =>
      constraints_hold g p v && constraints_hold_args g ps' vs'
  | _, _ => true
  end.

(** [reify(self.out_pattern, s)] followed by [evaled_obj]: the value the
    output pattern builds from the bindings. *)
Variable reify : pattern → subst → var.

Record PatternSub : Type := {
  in_pattern : pattern;
  out_pattern : pattern;
  (** the operator at the root of [in_pattern], set by [__init__] *)
  op : Op;
  allow_multiple_clients : bool;
  get_nodes : option (G → node → list client_owner);
}.

(** What [transform] returns: [False], a list or a dict. *)
Inductive result : Type :=
| RFalse
| RList (l : list var)
| RDict (d : list (var * var)).

(** The test under [if not self.allow_multiple_clients]. *)
Definition some_value_has_several_clients (g : G) (n : node) : bool :=
  existsb (λ v, 1 <? length (fg_clients g v))
          (filter (λ v, v ∉ fg_inputs g)
                  (vars_between g (node_outputs n))).

(** Modelled from the spec: [node.out].  [Apply.out] is defined in
    [aesara.graph.basic], which is not part of this file; the match
    semantics of the specification unify the pattern with "the node's
    output".  It is the output of a node that has a single one, and raises
    [ValueError] on any other node; an operator that names a default output
    among several is not modelled. *)
Definition node_out (n : node) : outcome var :=
  match node_outputs n with
  | [o] => Normal o
  | _ => Raise ValueError
  end.

(** [transform] from [if node.op != self.op] on. *)
Definition match_node (self : PatternSub) (g : G) (n : node) :
    outcome result :=
  if bool_decide (node_op n ≠ op self) then Normal RFalse
  else
    match node_out n with
    | Raise e => Raise e
    | Normal o =>
        match unify g (in_pattern self) o ∅ with
        | None => Normal RFalse
        | Some s =>
            let ret := reify (out_pattern self) s in
            match owner ret with
            | Some ro =>
                if bool_decide (map var_type (node_outputs ro)
                                ≠ map var_type (node_outputs n))
                then Normal RFalse else Normal (RList [ret])
            | None =>
                if bool_decide (length (node_outputs n) ≠ 1)
                then Raise AssertionError
                else if bool_decide (var_type ret ≠ var_type o)
                then Normal RFalse else Normal (RList [ret])
            end
        end
    end.

(** [self.transform(fgraph, node, get_nodes=False)] *)
Definition transform_no_get_nodes (self : PatternSub) (g : G) (n : node) :
    outcome result :=
  if negb (allow_multiple_clients self)
     && some_value_has_several_clients g n
  then Normal RFalse
  else match_node self g n.

(** The loop [for real_node in self.get_nodes(fgraph, node)]; [None] when
    it ends without returning. *)
Fixpoint try_real_nodes (self : PatternSub) (g : G)
    (real_nodes : list client_owner) : outcome (option result) :=
  match real_nodes with
  | [] => Normal None
  | COutput :: rest => try_real_nodes self g rest
  | CNode real_node :: rest =>
      match transform_no_get_nodes self g real_node with
      | Raise e => Raise e
      | Normal (RList ret) =>
          Normal (Some (RDict (zip (node_outputs real_node) ret)))
      | Normal (RDict d) =>
          Normal (Some (RDict (zip (node_outputs real_node) (map fst d))))
      | Normal RFalse => try_real_nodes self g rest
      end
  end.

(** [PatternSub.transform(fgraph, node)] *)
Definition transform (self : PatternSub) (g : G) (n : node) :
    outcome result :=
  if negb (allow_multiple_clients self)
     && some_value_has_several_clients g n
  then Normal RFalse
  else
    match get_nodes self with
    | Some gn =>
        match try_real_nodes self g (gn g n) with
        | Raise e => Raise e
        | Normal (Some r) => Normal r
        | Normal None => match_node self g n
        end
    | None => match_node self g n
    end.

(** The condition of the specification on clients: every value of the
    matched subgraph that is not a graph input has exactly one client. *)
Definition spec_single_client (self : PatternSub) (g : G) (n : node) :
    bool :=
  match node_outputs n with
  | [o] =>
      forallb (λ v, length (fg_clients g v) =? 1)
              (filter (λ v, v ∉ fg_inputs g)
                      (matched_values g (in_pattern self) o))
  | _ => false
  end.
End PS.
Arguments PatternSub {_} G.
Arguments pattern {_} G.
Arguments patterns {_} G.
End PatternSub.

(** ** NavigatorOptimizer and TopoOptimizer *)

Module Navigator.
Section Nav.
Context `{Objects} {G : Type} `{FunctionGraph G}.

(** What a local rewriter's [transform] returns: [False] or [None], a
    list (an entry may be [None]), a dict (with the list under its
    ["remove"] key taken out), or anything else. *)
Inductive replacements : Type :=
| RNone
| RList (l : list (option var))
| RDict (d : list (var * option var)) (remove : list var)
| ROther.

(** A [LocalOptimizer], compared by identity. *)
Record LocalOptimizer : Type := {
  lo_id : nat;
  transform : G → node → outcome replacements;
}.

(** [failure_callback(exc, nav, repl_pairs, local_opt, node)]: returns
    ([None]) or raises. *)
Definition failure_callback_t : Type :=
  exn → list (var * option var) → LocalOptimizer → node → option exn.

(** [NavigatorOptimizer.warn] *)
Definition warn (on_opt_error : on_opt_error_t) : failure_callback_t :=
  λ exc _ _ _,
    match on_opt_error with
    | OnErrPdb => None
    | OnErrRaise => Some exc
    | _ => if is_AssertionError exc then Some exc else None
    end.

(** [NavigatorOptimizer.warn_inplace] *)
Definition warn_inplace (on_opt_error : on_opt_error_t) :
    failure_callback_t :=
  λ exc repl_pairs local_opt n,
    if is_InconsistencyError exc then None
    else warn on_opt_error exc repl_pairs local_opt n.

(** [NavigatorOptimizer.warn_ignore] *)
Definition warn_ignore : failure_callback_t := λ _ _ _ _, None.

(** The result of running something on the graph: what it returns or
    raises, the graph it leaves and the callbacks fired meanwhile. *)
Definition effect (A : Type) : Type := outcome A * G * list (G * event).

(** The [except] clauses of [process_node]. *)
Definition on_failure (failure_callback : option failure_callback_t)
    (e : exn) (repl_pairs : list (var * option var)) (lopt : LocalOptimizer)
    (n : node) (g : G) (tr : list (G * event)) : effect bool :=
  match failure_callback with
  | Some cb =>
      match cb e repl_pairs lopt n with
      | None => (Normal false, g, tr)
      | Some e' => (Raise e', g, tr)
      end
  | None => (Raise e, g, tr)
  end.

(** [NavigatorOptimizer.process_node] *)
Definition process_node (failure_callback : option failure_callback_t)
    (g : G) (n : node) (lopt : LocalOptimizer) : effect bool :=
  match transform lopt g n with
  | Raise e =>
      on_failure failure_callback e
        (map (λ x, (x, None)) (node_outputs n)) lopt n g []
  | Normal RNone => (Normal false, g, [])
  | Normal ROther => (Raise TypeError, g, [])
  | Normal r =>
      let '(old_vars, news, remove) :=
        match r with
        | RDict d remove => (map fst d, map snd d, remove)
        | RList l => (node_outputs n, l, [])
        | _ => ([], [], [])
        end in
      if bool_decide (length old_vars ≠ length news)
      then (Raise ValueError, g, [])
      else if existsb (λ p : var * option var,
                         bool_decide (p.2 = None)
                         && (0 <? length (fg_clients g p.1)))
                      (zip old_vars news)
      then (Raise ValueError, g, [])
      else
        let repl_pairs :=
          omap (λ p : var * option var,
                  match p.2 with
                  | Some rnew =>
                      if bool_decide (rnew = p.1) then None
                      else Some (p.1, rnew)
                  | None => None
                  end)
               (zip old_vars news) in
        match repl_pairs with
        | [] => (Normal false, g, [])
        | _ =>
            match replace_all_validate_remove g repl_pairs remove with
            | (tr, g', None) => (Normal true, g', tr)
            | (tr, g', Some e) =>
                on_failure failure_callback e
                  (map (λ p : var * var, (p.1, Some p.2)) repl_pairs)
                  lopt n g' tr
            end
        end
  end.

(** The [Updater] feature of a pass, while [current_node] is being
    processed: the nodes its callbacks append to the work list.
    [importer] appends an imported node, [chin] (when there is one) a node
    whose input changed, neither the current node. *)
Definition updater_pushes (chin : bool) (current_node : node)
    (tr : list (G * event)) : list node :=
  omap (λ x : G * event,
          match x.2 with
          | OnImport n =>
              if bool_decide (n = current_node) then None else Some n
          | OnChangeInput (CNode n) _ _ _ =>
              if chin && negb (bool_decide (n = current_node))
              then Some n else None
          | _ => None
          end) tr.

Inductive order_t : Type := in_to_out | out_to_in.

Record TopoOptimizer : Type := {
  local_opt : LocalOptimizer;
  order : order_t;
  ignore_newtrees : bool;
  failure_callback : option failure_callback_t;
}.

(** What the loop adds to the work list after one [process_node]:
    [attach_updater] installs no feature at all when [ignore_newtrees]. *)
Definition topo_pushes (self : TopoOptimizer) (current_node : node)
    (tr : list (G * event)) : list node :=
  if ignore_newtrees self then []
  else updater_pushes false current_node tr.

(** [q.pop()] or [q.popleft()] *)
Definition topo_pop (self : TopoOptimizer) (q : list node) :
    option (node * list node) :=
  match order self with
  | out_to_in => pop_last q
  | in_to_out =>
      match q with
      | [] => None
      | n :: q' => Some (n, q')
      end
  end.

(** The state of the [while q] loop of [TopoOptimizer.apply].  The last
    three fields are not in the code: they log the nodes handed to
    [process_node], each with the graph it was handed with, the nodes the
    updater appended, and the entries that left the work list while their
    node was not in the graph, each with the graph it was missing from. *)
Record topo_state : Type := {
  t_graph : G;
  t_q : list node;
  t_nb : nat;
  t_processed : list (G * node);
  t_pushed : list node;
  t_skipped : list (G * node);
}.

(** [while q]; [None] when [fuel] turns do not empty the work list. *)
Fixpoint topo_loop (self : TopoOptimizer) (fuel : nat) (s : topo_state) :
    option (outcome unit * topo_state) :=
  match topo_pop self (t_q s) with
  | None => Some (Normal tt, s)
  | Some (n, q') =>
      match fuel with
      | 0 => None
      | S fuel' =>
          if negb (fg_apply_nodes (t_graph s) n) then
            topo_loop self fuel'
              {| t_graph := t_graph s; t_q := q'; t_nb := t_nb s;
                 t_processed := t_processed s; t_pushed := t_pushed s;
                 t_skipped := t_skipped s ++ [(t_graph s, n)] |}
          else
            let '(r, g', tr) :=
              process_node (failure_callback self) (t_graph s) n
                (local_opt self) in
            let s' (b : bool) :=
              {| t_graph := g';
                 t_q := q' ++ topo_pushes self n tr;
                 t_nb := t_nb s + (if b then 1 else 0);
                 t_processed := t_processed s ++ [(t_graph s, n)];
                 t_pushed := t_pushed s ++ topo_pushes self n tr;
                 t_skipped := t_skipped s |} in
            match r with
            | Normal b => topo_loop self fuel' (s' b)
            | Raise e => Some (Raise e, s' false)
            end
      end
  end.

(** [TopoOptimizer.apply(fgraph, start_from)]: the work list starts as
    the topological order. *)
Definition topo_init (g : G) (start_from : list var) : topo_state :=
  {| t_graph := g; t_q := io_toposort g start_from; t_nb := 0;
     t_processed := []; t_pushed := []; t_skipped := [] |}.

Definition topo_apply (self : TopoOptimizer) (fuel : nat) (g : G)
    (start_from : list var) : option (outcome unit * topo_state) :=
  topo_loop self fuel (topo_init g start_from).

(** How many times a node occurs in a list. *)
Definition occurrences (n : node) (l : list node) : nat :=
  length (filter (λ m, m = n) l).




End Nav.
Arguments LocalOptimizer G : clear implicits.
Arguments failure_callback_t G : clear implicits.
Arguments effect G A : clear implicits.
Arguments TopoOptimizer G : clear implicits.
Arguments topo_state G : clear implicits.
End Navigator.

(** ** More exceptions

    The exception classes the functions below raise besides those of
    [exn], as tags of [OtherException]. *)
Definition AttributeError : exn := OtherException 1.
Definition PlainException : exn := OtherException 2.
Definition OverflowError : exn := OtherException 3.
Definition KeyError : exn := OtherException 4.

(** ** Python numbers

    [max_use_ratio] is "int or float": an [int] is an integer of any size, a
    [float] a binary64 value, here in the representation and with the
    operations of the Standard Library's specification of IEEE 754. *)

Module PyNumber.
Inductive number : Type :=
| NInt (z : Z)
| NFloat (f : spec_float).

Definition prec : Z := 53.
Definition emax : Z := 1024.

(** The conversion of an [int] operand to [float]: the nearest binary64
    value, ties to even, and [OverflowError] when that is out of range. *)
Definition float_of_int (z : Z) : outcome spec_float :=
  match binary_normalize prec emax z 0 false with
  | S754_infinity _ => Raise OverflowError
  | f => Normal f
  end.

(** [n * x] for the [int] [n]; [x] may be [None]. *)
Definition int_mul (n : Z) (x : option number) : outcome number :=
  match x with
  | None => Raise TypeError
  | Some (NInt z) => Normal (NInt (n * z))
  | Some (NFloat f) =>
      match float_of_int n with
      | Raise e => Raise e
      | Normal fn => Normal (NFloat (SFmul prec emax fn f))
      end
  end.

(** [n > x] for the [int] [n].  Python compares an [int] with a [float] by
    their exact values; any comparison with a NaN is false. *)
Definition int_gt (n : Z) (x : number) : bool :=
  match x with
  | NInt z => (z <? n)%Z
  | NFloat S754_nan => false
  | NFloat (S754_infinity s) => s
  | NFloat (S754_zero _) => (0 <? n)%Z
  | NFloat (S754_finite s m e) =>
      let v := if s then Zneg m else Zpos m in
      if (0 <=? e)%Z then (v * 2 ^ e <? n)%Z else (v <? n * 2 ^ (- e))%Z
  end.
End PyNumber.

(** ** ChangeTracker and EquilibriumOptimizer *)

Module Equilibrium.
Section Eq.
Context `{Objects} {G : Type} `{FunctionGraph G}.
(** The profiles the global rewriters return. *)
Context {prof : Type}.
Import Navigator PyNumber.

Record ChangeTracker : Type := {
  changed : bool;
  nb_imported : nat;
}.

(** [ChangeTracker.reset] *)
Definition reset (ct : ChangeTracker) : ChangeTracker :=
  {| changed := false; nb_imported := nb_imported ct |}.

(** The callbacks of [ChangeTracker] on the callbacks fired. *)
Definition track (ct : ChangeTracker) (tr : list (G * event)) :
    ChangeTracker :=
  foldl (λ ct x,
           match snd x with
           | OnImport _ =>
               {| changed := true; nb_imported := nb_imported ct + 1 |}
           | OnChangeInput _ _ _ _ =>
               {| changed := true; nb_imported := nb_imported ct |}
           | OnPrune _ => ct
           end)
        ct tr.

(** A [GlobalOptimizer], compared by identity; [go_apply] gives what
    [apply(fgraph)] does and the profile it returns, [go_merge_profile] is
    its [merge_profile], which the base class does not define. *)
Record GlobalOptimizer : Type := {
  go_id : nat;
  go_apply : G → effect G prof;
  go_merge_profile : option (prof → prof → outcome prof);
}.

(** [local_trackers op] is [self.local_tracker.get_trackers(op)];
    [max_use_ratio] is a number or, by default, [None]. *)
Record EquilibriumOptimizer : Type := {
  global_optimizers : list GlobalOptimizer;
  local_trackers : Op → list (LocalOptimizer G);
  final_optimizers : list GlobalOptimizer;
  cleanup_optimizers : list GlobalOptimizer;
  ignore_newtrees : bool;
  tracks_on_change_inputs : bool;
  max_use_ratio : option number;
  failure_callback : option (failure_callback_t G);
}.

(** [iter_cleanup_sub_profs]: a dict from cleanup rewriters to the lists of
    the profiles they returned, in insertion order. *)
Definition profs_dict : Type := list (GlobalOptimizer * list prof).

(** The variables of [apply].  [e_log] is not in the code: it records
    every application of a rewriter, with whether it changed the graph. *)
Record eq_state : Type := {
  e_graph : G;
  e_tracker : ChangeTracker;
  e_count : gmap nat nat;
  e_changed : bool;
  e_abort : bool;
  e_max_nb_nodes : nat;
  e_max_use : number;
  e_q : list node;
  e_iter_profs : profs_dict;
  e_log : list (nat * bool);
}.

(** [global_process_count[opt]] *)
Definition count_of (s : eq_state) (id : nat) : nat :=
  default 0 (e_count s !! id).

(** [count > max_use] *)
Definition exceeds (count : nat) (max_use : number) : bool :=
  int_gt (Z.of_nat count) max_use.

(** [max_nb_nodes * self.max_use_ratio] *)
Definition max_use_of (self : EquilibriumOptimizer) (max_nb_nodes : nat) :
    outcome number :=
  int_mul (Z.of_nat max_nb_nodes) (max_use_ratio self).

(** The state after a rewriter ran: the graph it left, the change tracker
    and the updater (attached when [upd] holds the current node) having
    seen its callbacks. *)
Definition after_run (self : EquilibriumOptimizer) (upd : option node)
    (s : eq_state) (ct : ChangeTracker) (g' : G) (tr : list (G * event))
    (id : nat) (success : bool) : eq_state :=
  {| e_graph := g';
     e_tracker := track ct tr;
     e_count := e_count s;
     e_changed := e_changed s;
     e_abort := e_abort s;
     e_max_nb_nodes := e_max_nb_nodes s;
     e_max_use := e_max_use s;
     e_q :=
       match upd with
       | Some current_node =>
           e_q s
           ++ updater_pushes (tracks_on_change_inputs self) current_node tr
       | None => e_q s
       end;
     e_iter_profs := e_iter_profs s;
     e_log := e_log s ++ [(id, success)] |}.

(** [global_process_count[opt] += 1] *)
Definition incr_count (s : eq_state) (id : nat) : eq_state :=
  {| e_graph := e_graph s; e_tracker := e_tracker s;
     e_count := <[id := count_of s id + 1]> (e_count s);
     e_changed := e_changed s; e_abort := e_abort s;
     e_max_nb_nodes := e_max_nb_nodes s; e_max_use := e_max_use s;
     e_q := e_q s; e_iter_profs := e_iter_profs s; e_log := e_log s |}.

Definition set_flags (s : eq_state) (ch ab : bool) : eq_state :=
  {| e_graph := e_graph s; e_tracker := e_tracker s;
     e_count := e_count s; e_changed := ch; e_abort := ab;
     e_max_nb_nodes := e_max_nb_nodes s; e_max_use := e_max_use s;
     e_q := e_q s; e_iter_profs := e_iter_profs s; e_log := e_log s |}.

Definition set_queue (s : eq_state) (q : list node) (max_nb : nat)
    (max_use : number) : eq_state :=
  {| e_graph := e_graph s; e_tracker := e_tracker s;
     e_count := e_count s; e_changed := e_changed s;
     e_abort := e_abort s; e_max_nb_nodes := max_nb;
     e_max_use := max_use; e_q := q; e_iter_profs := e_iter_profs s;
     e_log := e_log s |}.

Definition set_profs (s : eq_state) (d : profs_dict) : eq_state :=
  {| e_graph := e_graph s; e_tracker := e_tracker s;
     e_count := e_count s; e_changed := e_changed s;
     e_abort := e_abort s; e_max_nb_nodes := e_max_nb_nodes s;
     e_max_use := e_max_use s; e_q := e_q s; e_iter_profs := d;
     e_log := e_log s |}.

(** [d[copt] = []] *)
Fixpoint profs_set_empty (copt : GlobalOptimizer) (d : profs_dict) :
    profs_dict :=
  match d with
  | [] => [(copt, [])]
  | (k, l) :: d' =>
      if decide (go_id k = go_id copt) then (k, []) :: d'
      else (k, l) :: profs_set_empty copt d'
  end.

(** [d[copt].append(p)]; [None] when [copt] is no key of the dict. *)
Fixpoint profs_append (copt : GlobalOptimizer) (p : prof) (d : profs_dict) :
    option profs_dict :=
  match d with
  | [] => None
  | (k, l) :: d' =>
      if decide (go_id k = go_id copt) then Some ((k, l ++ [p]) :: d')
      else ((k, l) ::.) <$> profs_append copt p d'
  end.

(** [iter_cleanup_sub_profs] as the loop [for copt in
    self.cleanup_optimizers] leaves it at the start of an iteration. *)
Definition profs_init (copts : list GlobalOptimizer) : profs_dict :=
  foldl (λ d copt, profs_set_empty copt d) [] copts.

(** The loop [for copt in self.cleanup_optimizers] of [apply_cleanup];
    [ch] is its local [changed]. *)
Fixpoint cleanup_loop (self : EquilibriumOptimizer) (upd : option node)
    (copts : list GlobalOptimizer) (ch : bool) (s : eq_state) :
    outcome bool * eq_state :=
  match copts with
  | [] => (Normal ch, s)
  | copt :: rest =>
      let ct := reset (e_tracker s) in
      let '(r, g', tr) := go_apply copt (e_graph s) in
      let s1 :=
        after_run self upd s ct g' tr (go_id copt) (changed (track ct tr))
      in
      match r with
      | Raise e => (Raise e, s1)
      | Normal sub_prof =>
          match profs_append copt sub_prof (e_iter_profs s1) with
          | None => (Raise KeyError, s1)
          | Some d =>
              let s2 := set_profs s1 d in
              if changed (e_tracker s2)
              then cleanup_loop self upd rest true
                     (incr_count s2 (go_id copt))
              else cleanup_loop self upd rest ch s2
          end
      end
  end.

(** [apply_cleanup] *)
Definition apply_cleanup (self : EquilibriumOptimizer) (upd : option node)
    (s : eq_state) : outcome bool * eq_state :=
  cleanup_loop self upd (cleanup_optimizers self) false s.

(** [changed |= apply_cleanup(...)] *)
Definition cleanup_pass (self : EquilibriumOptimizer) (upd : option node)
    (s : eq_state) : outcome unit * eq_state :=
  match apply_cleanup self upd s with
  | (Raise e, s') => (Raise e, s')
  | (Normal ch, s') =>
      (Normal tt, set_flags s' (e_changed s' || ch) (e_abort s'))
  end.

(** The loops over the global and over the final rewriters. *)
Fixpoint global_loop (self : EquilibriumOptimizer)
    (gopts : list GlobalOptimizer) (s : eq_state) :
    outcome unit * eq_state :=
  match gopts with
  | [] => (Normal tt, s)
  | gopt :: rest =>
      let ct := reset (e_tracker s) in
      let '(r, g', tr) := go_apply gopt (e_graph s) in
      let s1 :=
        after_run self None s ct g' tr (go_id gopt) (changed (track ct tr))
      in
      match r with
      | Raise e => (Raise e, s1)
      | Normal _ =>
          if changed (e_tracker s1) then
            let s2 := incr_count s1 (go_id gopt) in
            global_loop self rest
              (set_flags s2 true
                 (e_abort s2
                  || exceeds (count_of s2 (go_id gopt)) (e_max_use s2)))
          else global_loop self rest s1
      end
  end.

(** The updater is attached unless [ignore_newtrees]. *)
Definition updater_for (self : EquilibriumOptimizer) (current_node : node) :
    option node :=
  if ignore_newtrees self then None else Some current_node.

(** [for lopt in self.local_tracker.get_trackers(node.op)] *)
Fixpoint lopt_loop (self : EquilibriumOptimizer) (n : node)
    (lopts : list (LocalOptimizer G)) (s : eq_state) :
    outcome unit * eq_state :=
  match lopts with
  | [] => (Normal tt, s)
  | lopt :: rest =>
      let '(r, g', tr) :=
        process_node (failure_callback self) (e_graph s) n lopt in
      let s1 (b : bool) :=
        after_run self (updater_for self n) s (e_tracker s) g' tr
          (lo_id lopt) b in
      match r with
      | Raise e => (Raise e, s1 false)
      | Normal false => lopt_loop self n rest (s1 false)
      | Normal true =>
          let s2 := incr_count (s1 true) (lo_id lopt) in
          let s3 := set_flags s2 true (e_abort s2) in
          match cleanup_pass self (updater_for self n) s3 with
          | (Raise e, s4) => (Raise e, s4)
          | (Normal _, s4) =>
              let s5 :=
                set_flags s4 (e_changed s4)
                  (e_abort s4
                   || exceeds (count_of s4 (lo_id lopt)) (e_max_use s4)) in
              if negb (fg_apply_nodes (e_graph s5) n) then (Normal tt, s5)
              else lopt_loop self n rest s5
          end
      end
  end.

(** [while q]; [None] when [qfuel] turns do not empty the work list. *)
Fixpoint local_loop (self : EquilibriumOptimizer) (qfuel : nat)
    (s : eq_state) : option (outcome unit * eq_state) :=
  match pop_last (e_q s) with
  | None => Some (Normal tt, s)
  | Some (n, q') =>
      match qfuel with
      | 0 => None
      | S qfuel' =>
          let s1 := set_queue s q' (e_max_nb_nodes s) (e_max_use s) in
          if negb (fg_apply_nodes (e_graph s1) n)
          then local_loop self qfuel' s1
          else
            match lopt_loop self n (local_trackers self (node_op n)) s1
            with
            | (Raise e, s2) => Some (Raise e, s2)
            | (Normal _, s2) => local_loop self qfuel' s2
            end
      end
  end.

(** [start_from], which defaults to the list [fgraph.outputs]. *)
Definition start_vars (start_from : option (list var)) (g : G) : list var :=
  default (fg_outputs g) start_from.

(** The loop [for node in start_from: assert node in fgraph.outputs], run
    when [start_from] is given. *)
Definition start_from_ok (start_from : option (list var)) (g : G) : bool :=
  match start_from with
  | None => true
  | Some vs => forallb (λ v, bool_decide (v ∈ fg_outputs g)) vs
  end.

(** The loop [for s_p in sub_profs[1:]] on the first profile of a cleanup
    rewriter; the attribute [merge_profile] is looked up at each call. *)
Definition merge_sub_profs (copt : GlobalOptimizer)
    (sub_profs : list prof) : outcome prof :=
  match sub_profs with
  | [] => Raise IndexError
  | sub_prof :: rest =>
      foldl (λ acc s_p,
               match acc with
               | Raise e => Raise e
               | Normal sub_prof =>
                   match go_merge_profile copt with
                   | Some merge_profile => merge_profile sub_prof s_p
                   | None => Raise AttributeError
                   end
               end)
            (Normal sub_prof) rest
  end.

(** The loop [for copt, sub_profs in iter_cleanup_sub_profs.items()],
    which builds [c_sub_profs]. *)
Fixpoint merge_cleanup_profiles (d : profs_dict) : outcome (list prof) :=
  match d with
  | [] => Normal []
  | (copt, sub_profs) :: d' =>
      match merge_sub_profs copt sub_profs with
      | Raise e => Raise e
      | Normal p =>
          match merge_cleanup_profiles d' with
          | Raise e => Raise e
          | Normal ps => Normal (p :: ps)
          end
      end
  end.

(** The body of [while changed and not max_use_abort]. *)
Definition iteration (self : EquilibriumOptimizer) (qfuel : nat)
    (start_from : option (list var)) (s : eq_state) :
    option (outcome unit * eq_state) :=
  let s0 :=
    set_profs (set_flags s false (e_abort s))
      (profs_init (cleanup_optimizers self)) in
  match global_loop self (global_optimizers self) s0 with
  | (Raise e, s1) => Some (Raise e, s1)
  | (Normal _, s1) =>
      match cleanup_pass self None s1 with
      | (Raise e, s2) => Some (Raise e, s2)
      | (Normal _, s2) =>
          let q := io_toposort (e_graph s2) (start_vars start_from (e_graph s2)) in
          let max_nb := Nat.max (e_max_nb_nodes s2) (length q) in
          match max_use_of self max_nb with
          | Raise e => Some (Raise e, set_queue s2 q max_nb (e_max_use s2))
          | Normal max_use =>
              let s3 := set_queue s2 q max_nb max_use in
              match local_loop self qfuel s3 with
              | None => None
              | Some (Raise e, s4) => Some (Raise e, s4)
              | Some (Normal _, s4) =>
                  match global_loop self (final_optimizers self) s4 with
                  | (Raise e, s5) => (Some (Raise e, s5))
                  | (Normal _, s5) =>
                      match cleanup_pass self None s5 with
                      | (Raise e, s6) => Some (Raise e, s6)
                      | (Normal _, s6) =>
                          match merge_cleanup_profiles (e_iter_profs s6)
                          with
                          | Raise e => Some (Raise e, s6)
                          | Normal _ => Some (Normal tt, s6)
                          end
                      end
                  end
              end
          end
      end
  end.

(** [while changed and not max_use_abort]; [None] when [fuel] iterations
    do not end the loop. *)
Fixpoint equilibrium_loop (self : EquilibriumOptimizer) (fuel qfuel : nat)
    (start_from : option (list var)) (s : eq_state) :
    option (outcome unit * eq_state) :=
  if e_changed s && negb (e_abort s) then
    match fuel with
    | 0 => None
    | S fuel' =>
        match iteration self qfuel start_from s with
        | None => None
        | Some (Raise e, s') => Some (Raise e, s')
        | Some (Normal _, s') =>
            equilibrium_loop self fuel' qfuel start_from s'
        end
    end
  else Some (Normal tt, s).

(** The variables of [apply] before the loop, [max_use] being
    [max_use]. *)
Definition initial_state (g : G) (max_use : number) : eq_state :=
  {| e_graph := g;
     e_tracker := {| changed := false; nb_imported := 0 |};
     e_count := ∅;
     e_changed := true;
     e_abort := false;
     e_max_nb_nodes := fg_nb_apply_nodes g;
     e_max_use := max_use;
     e_q := [];
     e_iter_profs := [];
     e_log := [] |}.

(** The state in which [apply] raises before its loop: [max_use] is not
    bound yet, the field holds [0]. *)
Definition unstarted (g : G) : eq_state := initial_state g (NInt 0).

(** [EquilibriumOptimizer.apply]: the test of [start_from], the first
    [max_use], the loop, then the report of an abort, an [AssertionError]
    when [config.on_opt_error] is ["raise"]. *)
Definition apply (self : EquilibriumOptimizer)
    (on_opt_error : on_opt_error_t) (fuel qfuel : nat)
    (start_from : option (list var)) (g : G) :
    option (outcome unit * eq_state) :=
  if negb (start_from_ok start_from g)
  then Some (Raise AssertionError, unstarted g)
  else
    match max_use_of self (fg_nb_apply_nodes g) with
    | Raise e => Some (Raise e, unstarted g)
    | Normal max_use =>
        match equilibrium_loop self fuel qfuel start_from
                (initial_state g max_use)
        with
        | Some (Normal _, s) =>
            if e_abort s then
              match on_opt_error with
              | OnErrRaise => Some (Raise AssertionError, s)
              | _ => Some (Normal tt, s)
              end
            else Some (Normal tt, s)
        | r => r
        end
    end.

(** The cleanup pass in the words of the specification: the cleanup
    rewriters are applied in turn, again and again, until a turn in which
    none of them changes the graph. *)
Fixpoint cleanup_until_stable (self : EquilibriumOptimizer) (fuel : nat)
    (s : eq_state) : option (outcome bool * eq_state) :=
  match fuel with
  | 0 => None
  | S fuel' =>
      match apply_cleanup self None s with
      | (Raise e, s') => Some (Raise e, s')
      | (Normal false, s') => Some (Normal false, s')
      | (Normal true, s') =>
          match cleanup_until_stable self fuel' s' with
          | Some (Normal _, s'') => Some (Normal true, s'')
          | r => r
          end
      end
  end.
End Eq.
Arguments GlobalOptimizer : clear implicits.
Arguments EquilibriumOptimizer {_} G prof.
Arguments eq_state : clear implicits.
Arguments profs_dict : clear implicits.
End Equilibrium.

(** * Further parts of the file

    Definitions for the functions the properties above do not reach. *)

(** ** LocalOptTracker.get_rewriters and LocalOptGroup *)

Module LocalOptGroup.
Section Group.
Context `{Objects} {G : Type} `{FunctionGraph G} {cls : Type}
  `{EqDecision cls}.
Import LocalOptTracker.
Variable type_of : Op → cls.
Variable compose_mro : cls → list cls → list cls.
Variable tracks : rewriter → option (list (@track Op cls)).

(** [LocalOptTracker.get_rewriters]: the rewriters under the tracked
    types, those under the tracked instances, then the untracked ones. *)
Definition get_rewriters (self : @LocalOptTracker Op cls) : list rewriter :=
  concat (map snd (tracked_types self) ++ map snd (tracked_instances self))
  ++ untracked_opts self.

(** A value of a replacement list or dict: a variable, [None], or the list
    of variables under the key ["remove"]. *)
Inductive value : Type :=
| VVar (v : var)
| VNone
| VList (l : list var).

(** A key of a replacement dict: a variable or the string ["remove"]. *)
Inductive key : Type :=
| KVar (v : var)
| KRemove.

(** What [transform] of a local rewriter returns: [False] or [None], a
    list or tuple, or a dict, with its items in insertion order. *)
Inductive repl : Type :=
| RFalse
| RSeq (l : list value)
| RDict (d : list (key * value)).

(** The truth value of a result. *)
Definition truthy (r : repl) : bool :=
  match r with
  | RFalse => false
  | RSeq [] => false
  | RDict [] => false
  | _ => true
  end.

(** [opt.transform(fgraph, node)] for the rewriter [opt]. *)
Variable transform_of : rewriter → G → node → outcome repl.

Record LocalOptGroup : Type := {
  opts : list rewriter;
  apply_all_opts : bool;
}.

(** [self.tracker], which [__init__] fills with [self.opts] in order and
    nothing changes afterwards: the answer of the cached [get_trackers] is
    the one its body gives. *)
Definition tracker (self : LocalOptGroup) : @LocalOptTracker Op cls :=
  foldl (add_tracker tracks) (@empty Op cls) (opts self).

(** [LocalOptGroup.tracks] *)
Definition group_tracks (self : LocalOptGroup) : list (@track Op cls) :=
  flat_map (λ l, match tracks l with
                 | Some at_ => at_
                 | None => []
                 end) (opts self).

(** The loop [for opt in opts]: the first result that is true, if any. *)
Fixpoint first_applicable (candidates : list rewriter) (g : G) (n : node) :
    outcome (option repl) :=
  match candidates with
  | [] => Normal None
  | opt :: rest =>
      match transform_of opt g n with
      | Raise e => Raise e
      | Normal new_repl =>
          if truthy new_repl then Normal (Some new_repl)
          else first_applicable rest g n
      end
  end.

(** [new_vars] *)
Definition new_vars (new_repl : repl) : list value :=
  match new_repl with
  | RSeq l => l
  | RDict d => map snd d
  | RFalse => []
  end.

(** [v.owner] for an element met while iterating over [new_repl]: the
    elements of a list, the keys of a dict. *)
Definition owners (new_repl : repl) : outcome (list (option node)) :=
  let attr (x : option var) : outcome (option node) :=
    match x with
    | Some v => Normal (owner v)
    | None => Raise AttributeError
    end in
  let elems : list (option var) :=
    match new_repl with
    | RSeq l => map (λ x, match x with VVar v => Some v | _ => None end) l
    | RDict d =>
        map (λ kv : key * value,
               match kv.1 with KVar v => Some v | KRemove => None end) d
    | RFalse => []
    end in
  foldr (λ x acc,
           match attr x with
           | Raise e => Raise e
           | Normal o =>
               match acc with
               | Raise e => Raise e
               | Normal os => Normal (o :: os)
               end
           end) (Normal []) elems.

(** [len(new_repl)] *)
Definition repl_len (new_repl : repl) : nat :=
  match new_repl with
  | RSeq l => length l
  | RDict d => length d
  | RFalse => 0
  end.

(** [LocalOptGroup.transform]; [None] when [fuel] turns of [while True] do
    not reach a [return].  The Python [None] it may return is [Normal
    None]. *)
Fixpoint transform_loop (self : LocalOptGroup) (fuel : nat) (g : G)
    (repl_ : option repl) (n : node) : option (outcome (option repl)) :=
  match fuel with
  | 0 => None
  | S fuel' =>
      let candidates :=
        get_trackers_body type_of compose_mro (tracker self) (node_op n) in
      match first_applicable candidates g n with
      | Raise e => Some (Raise e)
      | Normal None => Some (Normal repl_)
      | Normal (Some new_repl) =>
          if negb (apply_all_opts self) then Some (Normal (Some new_repl))
          else
            match new_vars new_repl with
            | [] => Some (Raise IndexError)
            | VVar v0 :: _ =>
                match owner v0 with
                | None => Some (Normal (Some new_repl))
                | Some next =>
                    let checked : outcome unit :=
                      if 1 <? repl_len new_repl then
                        match owners new_repl with
                        | Raise e => Raise e
                        | Normal os =>
                            if length (remove_dups os) =? 1 then Normal tt
                            else Raise AssertionError
                        end
                      else Normal tt in
                    match checked with
                    | Raise e => Some (Raise e)
                    | Normal _ =>
                        transform_loop self fuel' g (Some new_repl) next
                    end
                end
            | _ :: _ => Some (Raise AttributeError)
            end
      end
  end.

Definition transform (self : LocalOptGroup) (fuel : nat) (g : G) (n : node) :
    option (outcome (option repl)) :=
  match opts self with
  | [] => Some (Normal None)
  | _ => transform_loop self fuel g None n
  end.
End Group.
End LocalOptGroup.

Module MergeInv.
Section Inv.
Context `{Objects} {G : Type} `{FunctionGraph G}.
Import Merge.

(** The two constant indexes of the feature agree: [const_sig] maps a
    constant to its signature, [const_sig_inv] maps that signature back to
    the constant, and [seen_constants] holds the constants [const_sig]
    records. *)
Definition const_index_ok (f : MergeFeature) : Prop :=
  (∀ c sig, const_sig f !! c = Some sig →
            sig = merge_signature c ∧ const_sig_inv f !! sig = Some c)
  ∧ (∀ sig c, const_sig_inv f !! sig = Some c → const_sig f !! c = Some sig)
  ∧ (∀ c, c ∈ seen_constants f ↔ is_Some (const_sig f !! c)).

(** How the counters of [MergeOptimizer.apply] and the blacklist have moved
    between two states of the pass: [nb_fail] by as much as the blacklist
    has grown, [nb_constant] up, and by no more than [nb_merged]. *)
Definition counters_rel (s s' : apply_state G) : Prop :=
  nb_fail s' + length (blacklist (feature (fw s)))
  = nb_fail s + length (blacklist (feature (fw s')))
  ∧ nb_constant s ≤ nb_constant s'
  ∧ nb_constant s' + nb_merged s ≤ nb_constant s + nb_merged s'.

(** A plan [process_node] may schedule for the node [n]: the outputs of
    [n] paired with those of a candidate [c] that the feature has seen, that
    is not [n], has an equal operator and the very same inputs, and is not
    blacklisted with [n]. *)
Definition sound_plan (g : G) (f : MergeFeature) (n : node) (pl : plan) :
    Prop :=
  ∃ c, (c ∈ nodes_seen f ∨ (node_inputs g n = [] ∧ c ∈ noinput_nodes f))
       ∧ c ≠ n
       ∧ node_op n = node_op c
       ∧ node_inputs g n = node_inputs g c
       ∧ ((Some n, Some c) ∉ blacklist f)
       ∧ pl = zip_with (λ o co, (o, co, ModeMerge))
                (node_outputs n) (node_outputs c).

(** [m] is a twin of [n] in the graph [g]: another node, with an equal
    operator and the very same inputs. *)
Definition is_twin (g : G) (n m : node) : bool :=
  bool_decide (m ≠ n) && bool_decide (node_op n = node_op m)
  && bool_decide (node_inputs g n = node_inputs g m).

(** [n] has a twin among the nodes the feature has seen. *)
Definition has_twin (g : G) (f : MergeFeature) (n : node) : bool :=
  existsb (is_twin g n) (elements (nodes_seen f)).

(** [n] has inputs, and each of them has a client. *)
Definition inputs_have_clients (g : G) (n : node) : bool :=
  (0 <? length (node_inputs g n))
  && forallb (λ v, 0 <? length (fg_clients g v)) (node_inputs g n).

(** [m] is a client of every input of [n]. *)
Definition reads_inputs_of (g : G) (m n : node) : bool :=
  forallb (λ v, existsb (λ cl : client, bool_decide (cl.1 = CNode m))
                        (fg_clients g v))
          (node_inputs g n).

(** A callback of the replacement of a constant by [incumbent] on which
    the feature has nothing to do: an input of a client is rebound to
    [incumbent], and the client, when it is a node, has inputs, each of
    them with a client, and no twin among the seen nodes. *)
Definition quiet_change (f : MergeFeature) (incumbent : var)
    (ge : G * event) : bool :=
  match ge.2 with
  | OnChangeInput c _ _ new_r =>
      bool_decide (new_r = incumbent)
      && match c with
         | CNode n => inputs_have_clients ge.1 n && negb (has_twin ge.1 f n)
         | COutput => true
         end
  | _ => false
  end.

(** The state of [MergeOptimizer.apply] when it starts. *)
Definition start_state (g : G) (w : feat_world) : apply_state G :=
  {| graph := g; fw := w; nb_fail := 0; nb_merged := 0; nb_constant := 0 |}.
End Inv.
End MergeInv.

(** ** Clients of the function graph *)

Module GraphInv.
Section Inv.
Context `{Objects}.

(** What a client reads: [node.inputs[i]], or [fgraph.outputs[i]] for the
    client ["output"]. *)
Definition input_at (g : FG.fgraph) (c : client) : option var :=
  match c.1 with
  | COutput => FG.outputs g !! c.2
  | CNode n => FG.get_inputs g n !! c.2
  end.

(** The clients recorded for [v] are distinct, and each of them reads
    [v]. *)
Definition clients_read (g : FG.fgraph) (v : var) : Prop :=
  NoDup (FG.get_clients g v)
  ∧ Forall (λ c, input_at g c = Some v) (FG.get_clients g v).
End Inv.
End GraphInv.

(** ** More of NavigatorOptimizer: OpRemove and the order of a pass *)

Module NavigatorMore.
Section NavMore.
Context `{Objects} {G : Type} `{FunctionGraph G}.
Import Navigator.

(** [OpRemove(op)]: [transform] returns [False] on a node with another
    operator and the list [node.inputs] otherwise. *)
Definition OpRemove (id : nat) (op : Op) : LocalOptimizer G :=
  {| lo_id := id;
     transform := λ g n,
       if bool_decide (node_op n ≠ op) then Normal RNone
       else Normal (RList (Some <$> node_inputs g n)) |}.

(** The order in which the entries of the work list [q] leave it when
    nothing is appended: first to last for [in_to_out], last to first for
    [out_to_in]. *)
Definition pending (self : TopoOptimizer G) (q : list node) : list node :=
  match order self with
  | in_to_out => q
  | out_to_in => reverse q
  end.

(** The callbacks that set [ChangeTracker.changed]. *)
Definition sets_changed (x : G * event) : bool :=
  match x.2 with
  | OnPrune _ => false
  | _ => true
  end.

(** The callbacks that count in [ChangeTracker.nb_imported]. *)
Definition is_import (x : G * event) : bool :=
  match x.2 with
  | OnImport _ => true
  | _ => false
  end.
End NavMore.
End NavigatorMore.

Module EquilibriumMore.
Section EqMore.
Context `{Objects} {G : Type} `{FunctionGraph G} {prof : Type}.
Import Navigator Equilibrium.

(** The state [s'] differs from [s] by applications of rewriters that
    changed nothing: the graph, the flags, the counts, the work list and
    the bounds are the same, and the log has grown by applications without
    success. *)
Definition quiet (s s' : eq_state G prof) : Prop :=
  e_graph s' = e_graph s ∧ e_changed s' = e_changed s
  ∧ e_abort s' = e_abort s ∧ e_count s' = e_count s ∧ e_q s' = e_q s
  ∧ e_max_nb_nodes s' = e_max_nb_nodes s ∧ e_max_use s' = e_max_use s
  ∧ ∃ l, e_log s' = e_log s ++ l ∧ Forall (λ x : nat * bool, x.2 = false) l.

(** The identities of the keys of the dict of the cleanup profiles. *)
Definition key_ids (d : profs_dict G prof) : list nat := (go_id ∘ fst) <$> d.

(** The entries of the rewriters [ids] hold a profile. *)
Definition filled (ids : list nat) (d : profs_dict G prof) : Prop :=
  ∀ k l, (k, l) ∈ d → go_id k ∈ ids → l ≠ [].
End EqMore.
End EquilibriumMore.

(** ** check_chain *)

Module CheckChain.
Section Chain.
Context `{Objects} {G : Type} `{FunctionGraph G} {cls : Type}.
(** [isinstance(op, c)] and [issubclass(c, Op)] *)
Variable isinstance_op : Op → cls → bool.
Variable issubclass_Op : cls → bool.

(** An element of a chain: [None], an operator, a class or an integer.
    Where the code tests an element, any other object behaves as an
    integer does; where it indexes with it, as [None] does. *)
Inductive item : Type :=
| INone
| IOp (op : Op)
| IClass (c : cls)
| IInt (i : Z).

(** [l[i]] for a Python list and an integer, negative indices counting
    from the end. *)
Definition py_index {A} (l : list A) (i : Z) : option A :=
  if (0 <=? i)%Z then l !! Z.to_nat i
  else if (- Z.of_nat (length l) <=? i)%Z
       then l !! Z.to_nat (Z.of_nat (length l) + i)
       else None.

(** The tests of one turn of the loop of [_check_chain] on [elem]: [false]
    when the turn returns [False]. *)
Definition elem_ok (r : var) (elem : item) : bool :=
  match elem with
  | INone =>
      match owner r with
      | Some _ => false
      | None => true
      end
  | _ =>
      match owner r with
      | None => false
      | Some n =>
          match elem with
          | IOp op => bool_decide (node_op n = op)
          | IClass c => negb (issubclass_Op c && negb (isinstance_op (node_op n) c))
          | _ => false
          end
      end
  end.

(** [_check_chain(r, chain)], the input lists of the nodes being those of
    [g]. *)
Fixpoint _check_chain (g : G) (r : var) (chain : list item) : outcome bool :=
  match chain with
  | [] => Normal true
  | elem :: rest =>
      if negb (elem_ok r elem) then Normal false
      else
        match rest with
        | [] => Normal true
        | idx :: rest' =>
            match owner r with
            | None => Raise AttributeError
            | Some n =>
                match idx with
                | IInt i =>
                    match py_index (node_inputs g n) i with
                    | Some r' => _check_chain g r' rest'
                    | None => Raise IndexError
                    end
                | _ => Raise TypeError
                end
            end
        end
  end.

(** [check_chain(r, *chain)]; [r] is a variable or an apply node. *)
Definition check_chain (g : G) (r : var + node) (chain : list item) :
    outcome bool :=
  let start : outcome var :=
    match r with
    | inl v => Normal v
    | inr n =>
        match node_outputs n with
        | o :: _ => Normal o
        | [] => Raise IndexError
        end
    end in
  match start with
  | Raise e => Raise e
  | Normal v =>
      match chain with
      | [] => Raise TypeError
      | _ => _check_chain g v (flat_map (λ x, [x; IInt 0%Z]) chain)
      end
  end.

(** The operators [ops] are, in turn, the operators of the owner of [r],
    of the owner of its first input, and so on, each of these nodes having
    a first input. *)
Fixpoint follows_first_inputs (g : G) (r : var) (ops : list Op) : Prop :=
  match ops with
  | [] => True
  | op :: ops' =>
      ∃ n r', owner r = Some n ∧ node_op n = op
              ∧ node_inputs g n !! 0 = Some r'
              ∧ follows_first_inputs g r' ops'
  end.
End Chain.
Arguments item {_} cls.
End CheckChain.

(** ** merge_dict

    A dict is the list of its items in insertion order, its keys distinct;
    [add] is [+] on the values. *)

Module MergeDict.
Section Dict.
Context {K V : Type} `{EqDecision K}.
Variable add : V → V → V.

(** [d.get(k)] *)
Fixpoint get (k : K) (d : list (K * V)) : option V :=
  match d with
  | [] => None
  | (k', v) :: d' => if decide (k = k') then Some v else get k d'
  end.

(** One turn of the loop: [d[k] += v] when [k in d], [d[k] = v]
    otherwise, which puts the new key last. *)
Fixpoint add_item (d : list (K * V)) (k : K) (v : V) : list (K * V) :=
  match d with
  | [] => [(k, v)]
  | (k', x) :: d' =>
      if decide (k = k') then (k', add x v) :: d'
      else (k', x) :: add_item d' k v
  end.

(** [merge_dict(d1, d2)] *)
Definition merge_dict (d1 d2 : list (K * V)) : list (K * V) :=
  foldl (λ d kv, add_item d kv.1 kv.2) d1 d2.

(** The value of a key in the merged dict, from its values in the two
    dicts. *)
Definition merged_value (x y : option V) : option V :=
  match x, y with
  | Some a, Some b => Some (add a b)
  | Some a, None => Some a
  | None, y => y
  end.
End Dict.
End MergeDict.

(** ** Stack traces: copy_stack_trace, check_stack_trace and
    CheckStackTraceFeature *)

Module StackTrace.
(** An element of a [trace] list: a tuple (a frame, here a number) or a
    list. *)
#[local] Unset Elimination Schemes.
Inductive entry : Type :=
| ETuple (frame : nat)
| EList (es : list entry).
#[local] Set Elimination Schemes.

Definition trace : Type := list entry.

(** [v.tag.trace] for every variable whose tag has the attribute. *)
Abbreviation tags := (gmap var trace).

Section Trace.
Context `{Objects} {G : Type} `{FunctionGraph G} {cls : Type}.
(** [isinstance(op, c)] *)
Variable isinstance_op : Op → cls → bool.
(** [op.scalar_op], for an operator that has the attribute *)
Variable scalar_op : Op → option Op.
(** [fgraph.apply_nodes], as its iteration lists it *)
Variable apply_nodes : G → list node.

(** [getattr(v.tag, "trace", [])] *)
Definition get_trace (t : tags) (v : var) : trace := default [] (t !! v).

(** The list [tr] of [copy_stack_trace]: the traces of [from_var], one
    after the other when it is a list, wrapped in a list when the first
    element is a tuple. *)
Definition from_trace (from_var : var + list var) (t : tags) : trace :=
  let tr :=
    match from_var with
    | inr vs => concat (map (get_trace t) vs)
    | inl v => get_trace t v
    end in
  match tr with
  | ETuple _ :: _ => [EList tr]
  | _ => tr
  end.

(** [copy_stack_trace(from_var, to_var)]: each argument is a variable or a
    list of variables. *)
Definition copy_stack_trace (from_var to_var : var + list var) (t : tags) :
    tags :=
  let tr := from_trace from_var t in
  match to_var with
  | inr vs => foldl (λ t v, <[v := get_trace t v ++ tr]> t) t vs
  | inl v => <[v := get_trace t v ++ tr]> t
  end.

(** [hasattr(v.tag, "trace") and v.tag.trace] *)
Definition has_trace (t : tags) (v : var) : bool :=
  match t !! v with
  | Some (_ :: _) => true
  | _ => false
  end.

(** The last loop of [check_stack_trace]; an element of the list may be
    [None], the owner of an output that has none. *)
Fixpoint check_nodes (t : tags) (nodes : list (option node)) : outcome bool :=
  match nodes with
  | [] => Normal true
  | None :: _ => Raise AttributeError
  | Some n :: rest =>
      if forallb (has_trace t) (node_outputs n) then check_nodes t rest
      else Normal false
  end.

(** The first argument of [check_stack_trace]. *)
Inductive graph_arg : Type :=
| OfFunction (g : G)
| OfFunctionGraph (g : G)
| NotAGraph.

(** Its second argument: an operator, a subclass of [Op], a string, a list
    or tuple of operators and classes, a function, or something else. *)
Inductive ops_arg : Type :=
| OpsOp (op : Op)
| OpsClass (c : cls)
| OpsStr (s : string)
| OpsSeq (l : list (Op + cls))
| OpsCallable (f : node → bool)
| OpsOther.

(** The nodes selected by a list of operators and classes. *)
Definition seq_nodes (g : G) (l : list (Op + cls)) : list node :=
  let op_classes := omap (λ x, match x with inr c => Some c | _ => None end) l in
  let is_one (op : Op) :=
    existsb (isinstance_op op) op_classes in
  List.filter
    (λ n, existsb (λ x, match x with
                        | inl op => bool_decide (node_op n = op)
                        | inr _ => false
                        end) l)
    (apply_nodes g)
  ++ List.filter
       (λ n, is_one (node_op n)
             || match scalar_op (node_op n) with
                | Some sop => is_one sop
                | None => false
                end)
       (apply_nodes g).

(** [check_stack_trace(f_or_fgraph, ops_to_check, bug_print)] *)
Definition check_stack_trace (f_or_fgraph : graph_arg)
    (ops_to_check : ops_arg) (bug_print : string) (t : tags) :
    outcome bool :=
  match f_or_fgraph with
  | NotAGraph => Raise ValueError
  | OfFunction g | OfFunctionGraph g =>
      let selected : outcome (list (option node)) :=
        match ops_to_check with
        | OpsOp op => Normal (Some <$> seq_nodes g [inl op])
        | OpsClass c => Normal (Some <$> seq_nodes g [inr c])
        | OpsStr s =>
            if bool_decide (s = "last"%string)
            then Normal (owner <$> fg_outputs g)
            else if bool_decide (s = "all"%string)
            then Normal (Some <$> apply_nodes g)
            else Raise ValueError
        | OpsSeq l => Normal (Some <$> seq_nodes g l)
        | OpsCallable f => Normal (Some <$> List.filter f (apply_nodes g))
        | OpsOther => Raise ValueError
        end in
      match selected with
      | Raise e => Raise e
      | Normal [] =>
          if bool_decide (bug_print = "warn"%string) then Normal true
          else if bool_decide (bug_print = "raise"%string)
          then Raise PlainException
          else if bool_decide (bug_print = "ignore"%string) then Normal true
          else Raise ValueError
      | Normal nodes => check_nodes t nodes
      end
  end.

(** [CheckStackTraceFeature.on_import] under the value [cfg] of
    [config.check_stack_trace]; [frame] is the tuple it builds from
    [reason]. *)
Definition on_import (cfg : string) (frame : nat) (g : G) (t : tags) :
    outcome unit * tags :=
  if bool_decide (cfg = "off"%string) then (Normal tt, t)
  else
    match check_stack_trace (OfFunctionGraph g) (OpsStr "all") "raise" t with
    | Raise e => (Raise e, t)
    | Normal true => (Normal tt, t)
    | Normal false =>
        if bool_decide (cfg = "raise"%string) then (Raise AssertionError, t)
        else if bool_decide (cfg = "log"%string)
                || bool_decide (cfg = "warn"%string)
        then
          (Normal tt,
           foldl (λ t n,
                    foldl (λ t output,
                             if has_trace t output then t
                             else <[output := [EList [ETuple frame]]]> t)
                          t (node_outputs n))
                 t (apply_nodes g))
        else (Normal tt, t)
    end.
End Trace.
End StackTrace.

(** ** pre_constant_merge *)

Module PreConstantMerge.
Section Pre.
Context `{Objects}.
(** [v.signature()] for a constant *)
Variable signature : var → Sig.
(** [n in fgraph.apply_nodes] *)
Variable in_fgraph : node → bool.

(** The two local variables the closure shares and the input lists of the
    nodes, which it changes in place. *)
Record state : Type := {
  seen_var : gset var;
  const_sig_inv : gmap Sig var;
  inputs : node → list var;
}.

(** [var.owner.inputs[idx] = r] *)
Definition set_input (st : state) (n : node) (idx : nat) (r : var) : state :=
  {| seen_var := seen_var st; const_sig_inv := const_sig_inv st;
     inputs := λ m, if decide (m = n) then <[idx := r]> (inputs st m)
                    else inputs st m |}.

(** The loop [for idx, inp in enumerate(var.owner.inputs)] over the
    positions [idxs], with [rec] for the recursive call: each turn reads
    the input at its position as the list then has it. *)
Fixpoint merge_inputs (rec : var → state → option (var * state)) (n : node)
    (idxs : list nat) (st : state) : option state :=
  match idxs with
  | [] => Some st
  | idx :: rest =>
      match inputs st n !! idx with
      | None => Some st
      | Some inp =>
          match rec inp st with
          | None => None
          | Some (r, st') => merge_inputs rec n rest (set_input st' n idx r)
          end
      end
  end.

(** [recursive_merge(var)]; [None] when the recursion is deeper than
    [fuel]. *)
Fixpoint recursive_merge (fuel : nat) (v : var) (st : state) :
    option (var * state) :=
  match fuel with
  | 0 => None
  | S fuel' =>
      if bool_decide (v ∈ seen_var st) then Some (v, st)
      else if match owner v with
              | Some n => in_fgraph n
              | None => false
              end
      then Some (v, st)
      else
        let st1 :=
          {| seen_var := {[v]} ∪ seen_var st;
             const_sig_inv := const_sig_inv st; inputs := inputs st |} in
        if is_Constant v then
          match const_sig_inv st1 !! signature v with
          | Some c => Some (c, st1)
          | None =>
              Some (v, {| seen_var := seen_var st1;
                          const_sig_inv :=
                            <[signature v := v]> (const_sig_inv st1);
                          inputs := inputs st1 |})
          end
        else
          match owner v with
          | Some n =>
              st2 ← merge_inputs (recursive_merge fuel') n
                      (seq 0 (length (inputs st1 n))) st1;
              Some (v, st2)
          | None => Some (v, st1)
          end
  end.

(** The list comprehension [[recursive_merge(v) for v in variables]]. *)
Fixpoint merge_all (fuel : nat) (vs : list var) (st : state) :
    option (list var * state) :=
  match vs with
  | [] => Some ([], st)
  | v :: vs' =>
      '(r, st1) ← recursive_merge fuel v st;
      '(rs, st2) ← merge_all fuel vs' st1;
      Some (r :: rs, st2)
  end.

(** [pre_constant_merge(fgraph, variables)], the input lists of the nodes
    being [ins] at the call: the list it returns and the input lists it
    leaves.  [variables] is one variable or a list of variables. *)
Definition pre_constant_merge (fuel : nat) (variables : var + list var)
    (ins : node → list var) : option (list var * (node → list var)) :=
  let vs := match variables with inl v => [v] | inr vs => vs end in
  '(rs, st) ← merge_all fuel vs
                {| seen_var := ∅; const_sig_inv := ∅; inputs := ins |};
  Some (rs, inputs st).

(** [b] is [a], or both are constants with the same signature. *)
Definition same_or_merged (a b : var) : Prop :=
  b = a
  ∨ (is_Constant a = true ∧ is_Constant b = true
     ∧ signature b = signature a).

(** The recorded constants have the signature they are recorded under. *)
Definition inv_ok (st : state) : Prop :=
  ∀ sig c, const_sig_inv st !! sig = Some c →
           is_Constant c = true ∧ signature c = sig.

(** What a call keeps true of the state. *)
Definition step_ok (st st' : state) : Prop :=
  inv_ok st'
  ∧ (∀ n, in_fgraph n = true → inputs st' n = inputs st n)
  ∧ (∀ n, Forall2 same_or_merged (inputs st n) (inputs st' n)).
End Pre.
End PreConstantMerge.

(** ** Concrete objects for the scenarios

    Operators, types and signatures are numbers; the attributes of the
    variables and nodes are read from tables. *)

Module Scenario.
Record table : Type := {
  t_owner : list (var * node);
  t_type : list (var * nat);
  (** the constants, with their merge signatures *)
  t_const : list (var * nat);
  t_convert : nat → var → bool;
  t_op : list (node * nat);
  t_outputs : list (node * list var);
  t_destroy_map : list (nat * list (nat * list nat));
  t_check_and_raise : list nat;
}.

(** Lookup in an association list. *)
Fixpoint assoc {A} (k : nat) (l : list (nat * A)) : option A :=
  match l with
  | [] => None
  | (k', a) :: l' => if Nat.eqb k k' then Some a else assoc k l'
  end.

Definition objects (t : table) : Objects :=
  {| Op := nat; ty := nat; Sig := nat;
     owner := λ v, assoc v (t_owner t);
     var_type := λ v, default 0 (assoc v (t_type t));
     is_Constant := λ v, bool_decide (is_Some (assoc v (t_const t)));
     merge_signature := λ v, default 0 (assoc v (t_const t));
     convert_variable := t_convert t;
     node_op := λ n, default 0 (assoc n (t_op t));
     node_outputs := λ n, default [] (assoc n (t_outputs t));
     destroy_map := λ op, default [] (assoc op (t_destroy_map t));
     is_CheckAndRaise := λ op, bool_decide (op ∈ t_check_and_raise t) |}.
End Scenario.

(** *** Sub-rewriters for SeqOptimizer

    The world is the list of the rewriters applied so far. *)

Module SeqScenario.
Import SeqOptimizer.

(** Appends its number to the world and returns. *)
Definition logging (i : nat) : GlobalOptimizer (list nat) unit :=
  {| add_requirements := mret tt;
     apply := λ w, (Normal tt, w ++ [i]) |}.

(** Appends its number to the world and raises [e]. *)
Definition failing (i : nat) (e : exn) : GlobalOptimizer (list nat) unit :=
  {| add_requirements := mret tt;
     apply := λ w, (Raise e, w ++ [i]) |}.

(** A failing rewriter followed by a working one, under the default
    callback. *)
Definition seq_warn (on_opt_error : on_opt_error_t) (e : exn) :
    SeqOptimizer (list nat) unit :=
  {| data := [failing 1 e; logging 2];
     failure_callback := Some (warn on_opt_error) |}.
End SeqScenario.

(** *** Trackers

    Operators are numbers, each of its own class; a class is looked up
    under itself alone. *)

Module TrackerScenario.
Import LocalOptTracker.

Definition type_of (op : nat) : nat := op.
Definition compose_mro (c : nat) (_ : list nat) : list nat := [c].

(** The rewriter [7] tracks the operator [5]; any other rewriter applies
    to every node. *)
Definition tracks (rw : rewriter) : option (list (@track nat nat)) :=
  if Nat.eqb rw 7 then Some [TrackInstance 5] else None.

(** The tracker [0] is asked for the operator [5], then the rewriter [7]
    is added to it, then it is asked for [n] other operators. *)
Definition program (n : nat) : list (@action nat) :=
  AddTracker 0 7 :: map (λ op, GetTrackers 0 op) (seq 100 n).

Definition after_first_query : @world nat nat :=
  (get_trackers type_of compose_mro 0 5 initial).2.
End TrackerScenario.

(** *** A cleanup rewriter that needs several applications

    The graph is [identity(identity(x))]; the rewriter removes one
    [identity] node per application. *)

Module CleanupScenario.
Import Scenario.

(** The operator [9] is [identity]; the nodes [0] and [1] apply it. *)
Definition tb : table :=
  {| t_owner := [(1, 0); (2, 1)];
     t_type := [];
     t_const := [];
     t_convert := λ _ _, false;
     t_op := [(0, 9); (1, 9)];
     t_outputs := [(0, [1]); (1, [2])];
     t_destroy_map := [];
     t_check_and_raise := [] |}.

#[local] Instance objs : Objects := objects tb.
#[local] Instance graphs : FunctionGraph FG.fgraph :=
  FG.fg_instance (λ _, true).

(** [x] is the variable [0]; the output is the variable [2]. *)
Definition g0 : FG.fgraph :=
  FG.make_graph [0] [2] (list_to_map [(0, [0]); (1, [1])]) false.

(** Replaces the output of the first [identity] node it finds by the input
    of that node. *)
Definition remove_one_identity : Equilibrium.GlobalOptimizer FG.fgraph unit :=
  {| Equilibrium.go_id := 50;
     Equilibrium.go_merge_profile := Some (λ _ _, Normal tt);
     Equilibrium.go_apply := λ g,
       match List.find (λ n, Nat.eqb (node_op n) 9) (FG.apply_nodes g) with
       | Some n =>
           match node_outputs n, FG.get_inputs g n with
           | [o], [i] =>
               let '(tr, g', ex) := replace_all_validate g [(o, i)] in
               (match ex with
                | None => Normal tt
                | Some e => Raise e
                end, g', tr)
           | _, _ => (Normal tt, g, [])
           end
       | None => (Normal tt, g, [])
       end |}.

Definition self : Equilibrium.EquilibriumOptimizer FG.fgraph unit :=
  {| Equilibrium.global_optimizers := [];
     Equilibrium.local_trackers := λ _, [];
     Equilibrium.final_optimizers := [];
     Equilibrium.cleanup_optimizers := [remove_one_identity];
     Equilibrium.ignore_newtrees := true;
     Equilibrium.tracks_on_change_inputs := false;
     Equilibrium.max_use_ratio := Some (PyNumber.NInt 1);
     Equilibrium.failure_callback := None |}.

(** The state of the driver at the start of its first iteration. *)
Definition s0 : Equilibrium.eq_state FG.fgraph unit :=
  Equilibrium.set_profs
    (Equilibrium.initial_state g0 (PyNumber.NInt 1))
    (Equilibrium.profs_init (Equilibrium.cleanup_optimizers self)).

(** One cleanup pass of the code, on [s0] and again on its result. *)
Definition pass1 := Equilibrium.apply_cleanup self None s0.
Definition pass2 := Equilibrium.apply_cleanup self None pass1.2.

(** The cleanup pass of the specification on [s0]. *)
Definition stable_pass := Equilibrium.cleanup_until_stable self 5 s0.

(** What is observed of a state: the apply nodes left and the log. *)
Definition observe (s : Equilibrium.eq_state FG.fgraph unit) :
    list node * list (nat * bool) :=
  (FG.apply_nodes (Equilibrium.e_graph s), Equilibrium.e_log s).
End CleanupScenario.

(** *** Two rewriters that undo each other

    The node [0] is [add(a, b)], the node [1] is [add(b, a)]; a rewriter
    replaces the output of the graph by the output of the other node, as
    the commutativity pattern of scenario S4 does. *)

Module OscillationScenario.
Import Scenario.

(** [a] and [b] are the variables [0] and [1]; the outputs of the two
    nodes are the variables [2] and [3]; the operator [4] is [add]. *)
Definition tb : table :=
  {| t_owner := [(2, 0); (3, 1)];
     t_type := [];
     t_const := [];
     t_convert := λ _ _, false;
     t_op := [(0, 4); (1, 4)];
     t_outputs := [(0, [2]); (1, [3])];
     t_destroy_map := [];
     t_check_and_raise := [] |}.

#[local] Instance objs : Objects := objects tb.
#[local] Instance graphs : FunctionGraph FG.fgraph :=
  FG.fg_instance (λ _, true).

(** The graph whose output is [add(a, b)]. *)
Definition g_ab : FG.fgraph :=
  FG.make_graph [0; 1] [2] (list_to_map [(0, [0; 1]); (1, [1; 0])]) false.

(** Swaps the inputs of the [add] at the output; its profiles are empty
    and it merges them. *)
Definition commute (id : nat) : Equilibrium.GlobalOptimizer FG.fgraph unit :=
  {| Equilibrium.go_id := id;
     Equilibrium.go_merge_profile := Some (λ _ _, Normal tt);
     Equilibrium.go_apply := λ g,
       let '(tr, g', ex) :=
         match FG.outputs g with
         | [2] => replace_all_validate g [(2, 3)]
         | [3] => replace_all_validate g [(3, 2)]
         | _ => ([], g, None)
         end in
       (match ex with
        | None => Normal tt
        | Some e => Raise e
        end, g', tr) |}.

(** The two rewriters as global rewriters, with [max_use_ratio = 1]. *)
Definition as_global : Equilibrium.EquilibriumOptimizer FG.fgraph unit :=
  {| Equilibrium.global_optimizers := [commute 60; commute 61];
     Equilibrium.local_trackers := λ _, [];
     Equilibrium.final_optimizers := [];
     Equilibrium.cleanup_optimizers := [];
     Equilibrium.ignore_newtrees := true;
     Equilibrium.tracks_on_change_inputs := false;
     Equilibrium.max_use_ratio := Some (PyNumber.NInt 1);
     Equilibrium.failure_callback := None |}.

(** One of them as the only rewriter, a cleanup rewriter. *)
Definition as_cleanup : Equilibrium.EquilibriumOptimizer FG.fgraph unit :=
  {| Equilibrium.global_optimizers := [];
     Equilibrium.local_trackers := λ _, [];
     Equilibrium.final_optimizers := [];
     Equilibrium.cleanup_optimizers := [commute 60];
     Equilibrium.ignore_newtrees := true;
     Equilibrium.tracks_on_change_inputs := false;
     Equilibrium.max_use_ratio := Some (PyNumber.NInt 1);
     Equilibrium.failure_callback := None |}.

(** The run of the driver with the global rewriters. *)
Definition global_run :=
  Equilibrium.apply as_global OnErrWarn 10 10 None g_ab.

(** The graph after one and after two applications of [commute]. *)
Definition g_ba : FG.fgraph := (Equilibrium.go_apply (commute 60) g_ab).1.2.
Definition g_ab' : FG.fgraph := (Equilibrium.go_apply (commute 60) g_ba).1.2.

(** The graphs the rewriters go through. *)
Definition reachable (g : FG.fgraph) : Prop := g = g_ab ∨ g = g_ba ∨ g = g_ab'.

(** What is observed of the run: how it ends, the log of the applications,
    [max_use_abort], the largest number of nodes seen and the counts of the
    two rewriters. *)
Definition observe :=
  (λ r : outcome unit * Equilibrium.eq_state FG.fgraph unit,
     (r.1, Equilibrium.e_log r.2, Equilibrium.e_abort r.2,
      Equilibrium.e_max_nb_nodes r.2,
      Equilibrium.count_of r.2 60, Equilibrium.count_of r.2 61))
  <$> global_run.
End OscillationScenario.

(** *** Scenario S1: two equal constants *)

Module ConstantScenario.
Import Scenario.

(** [x] and [y] are the variables [0] and [1]; the constants [2] and [3]
    have the same signature; the node [0] is [add(x, c1)] with output [4],
    the node [1] is [mul(y, c2)] with output [5]. *)
Definition tb : table :=
  {| t_owner := [(4, 0); (5, 1)];
     t_type := [];
     t_const := [(2, 7); (3, 7)];
     t_convert := λ _ _, false;
     t_op := [(0, 0); (1, 1)];
     t_outputs := [(0, [4]); (1, [5])];
     t_destroy_map := [];
     t_check_and_raise := [] |}.

#[local] Instance objs : Objects := objects tb.
#[local] Instance graphs : FunctionGraph FG.fgraph :=
  FG.fg_instance (λ _, true).

Definition g0 : FG.fgraph :=
  FG.make_graph [0; 1] [4; 5] (list_to_map [(0, [0; 2]); (1, [1; 3])]) false.

(** The feature once attached to the graph. *)
Definition attached : outcome unit * Merge.feat_world :=
  Merge.on_attach g0 {| Merge.names := ∅; Merge.feature := Merge.empty_feature |}.

(** [MergeOptimizer.apply] *)
Definition run := Merge.apply 10 g0 attached.2.

(** The replacement of the constant [3] by the constant [2]. *)
Definition replaced := replace_all g0 [(3, 2)].

(** What is observed of the result: the profile, whether the two constants
    are variables of the graph, and the inputs of the two nodes. *)
Definition observe :=
  (λ r : outcome Merge.profile * (FG.fgraph * Merge.feat_world),
     (r.1, bool_decide (2 ∈ FG.variables r.2.1),
      bool_decide (3 ∈ FG.variables r.2.1),
      FG.get_inputs r.2.1 0, FG.get_inputs r.2.1 1)) <$> run.
End ConstantScenario.

(** *** Two nodes that a constant merge makes equal *)

Module TwinScenario.
Import Scenario.

(** [x] is the variable [0]; the constants [2] and [3] have the same
    signature; the node [0] is [add(x, c1)] with output [4], the node [1]
    is [add(x, c2)] with output [5]. *)
Definition tb : table :=
  {| t_owner := [(4, 0); (5, 1)];
     t_type := [];
     t_const := [(2, 7); (3, 7)];
     t_convert := λ _ _, false;
     t_op := [(0, 0); (1, 0)];
     t_outputs := [(0, [4]); (1, [5])];
     t_destroy_map := [];
     t_check_and_raise := [] |}.

#[local] Instance objs : Objects := objects tb.
#[local] Instance graphs : FunctionGraph FG.fgraph :=
  FG.fg_instance (λ _, true).

Definition g0 : FG.fgraph :=
  FG.make_graph [0] [4; 5] (list_to_map [(0, [0; 2]); (1, [0; 3])]) false.

(** The feature once attached to the graph. *)
Definition attached : outcome unit * Merge.feat_world :=
  Merge.on_attach g0 {| Merge.names := ∅; Merge.feature := Merge.empty_feature |}.

(** [MergeOptimizer.apply] *)
Definition run := Merge.apply 10 g0 attached.2.

(** The replacement of the constant [3] by the constant [2]. *)
Definition replaced := replace_all g0 [(3, 2)].

(** The graph the callback of that replacement sees. *)
Definition seen_graph : FG.fgraph := default g0 (fst <$> head replaced.1.1).

(** The loop of [apply], and the state its first turn leaves when it
    schedules [group] and leaves the names [nm]. *)
Definition turns (fuel : nat) (s : Merge.apply_state FG.fgraph) :=
  Merge.apply_loop fuel s.
Definition start : Merge.apply_state FG.fgraph :=
  MergeInv.start_state g0 attached.2.
Definition after_first_turn (group : list Merge.plan)
    (nm : gmap var string) : Merge.apply_state FG.fgraph :=
  {| Merge.graph := replaced.1.2;
     Merge.fw :=
       {| Merge.names := nm;
          Merge.feature :=
            Merge.set_nodes_seen
              (Merge.set_scheduled (Merge.feature attached.2) [group])
              (Merge.nodes_seen (Merge.feature attached.2) ∖ {[1]})
              (Merge.noinput_nodes (Merge.feature attached.2)) |};
     Merge.nb_fail := 0; Merge.nb_merged := 1; Merge.nb_constant := 1 |}.

(** What is observed of the result: the profile, whether the two constants
    are variables of the graph, the inputs of the two nodes and the outputs
    of the graph. *)
Definition observe :=
  (λ r : outcome Merge.profile * (FG.fgraph * Merge.feat_world),
     (r.1, bool_decide (2 ∈ FG.variables r.2.1),
      bool_decide (3 ∈ FG.variables r.2.1),
      FG.get_inputs r.2.1 0, FG.get_inputs r.2.1 1, FG.outputs r.2.1)) <$> run.
End TwinScenario.

(** *** Scenario S3: a destroy conflict *)

Module DestroyScenario.
Import Scenario.

(** [a] and [b] are the variables [0] and [1]; the nodes [0] and [1] are
    both [mul(a, b)], with outputs [2] and [3]; the node [2] reads [2] and
    the node [3] reads [3], both with operators that destroy their input;
    their outputs [4] and [5] are the outputs of the graph. *)
Definition tb : table :=
  {| t_owner := [(2, 0); (3, 1); (4, 2); (5, 3)];
     t_type := [];
     t_const := [];
     t_convert := λ _ _, false;
     t_op := [(0, 10); (1, 10); (2, 11); (3, 12)];
     t_outputs := [(0, [2]); (1, [3]); (2, [4]); (3, [5])];
     t_destroy_map := [(11, [(0, [0])]); (12, [(0, [0])])];
     t_check_and_raise := [] |}.

#[local] Instance objs : Objects := objects tb.
#[local] Instance graphs : FunctionGraph FG.fgraph :=
  FG.fg_instance (λ _, true).

(** The graph has the destroy handler. *)
Definition g0 : FG.fgraph :=
  FG.make_graph [0; 1] [4; 5]
    (list_to_map [(0, [0; 1]); (1, [0; 1]); (2, [2]); (3, [3])]) true.

Definition attached : outcome unit * Merge.feat_world :=
  Merge.on_attach g0 {| Merge.names := ∅; Merge.feature := Merge.empty_feature |}.

(** The state [apply] starts in. *)
Definition s0 : Merge.apply_state FG.fgraph :=
  {| Merge.graph := g0; Merge.fw := attached.2; Merge.nb_fail := 0;
     Merge.nb_merged := 0; Merge.nb_constant := 0 |}.

(** The plan the feature scheduled: the node [1] by the node [0]. *)
Definition the_plan : Merge.plan := [(3, 2, Merge.ModeMerge)].

(** The loop of [apply], before the blacklist is cleared. *)
Definition loop := Merge.apply_loop 10 s0.

Definition observe :=
  (λ r : outcome unit * Merge.apply_state FG.fgraph,
     (r.1, Merge.nb_fail r.2, Merge.nb_merged r.2,
      Merge.blacklist (Merge.feature (Merge.fw r.2)),
      FG.apply_nodes (Merge.graph r.2))) <$> loop.
End DestroyScenario.

(** *** A group of two plans whose first plan is rejected

    Three nodes compute [mul(a, b)]; the graph is validated by a feature
    that rejects a second client of the output of the first of them. *)

Module GroupScenario.
Import Scenario.

(** [a] and [b] are the variables [0] and [1]; the nodes [0], [1] and [2]
    are [mul(a, b)] with outputs [2], [3] and [4]; the nodes [3], [4] and
    [5] apply three other operators to these outputs; their outputs [5],
    [6] and [7] are the outputs of the graph. *)
Definition tb : table :=
  {| t_owner := [(2, 0); (3, 1); (4, 2); (5, 3); (6, 4); (7, 5)];
     t_type := [];
     t_const := [];
     t_convert := λ _ _, false;
     t_op := [(0, 10); (1, 10); (2, 10); (3, 20); (4, 21); (5, 22)];
     t_outputs := [(0, [2]); (1, [3]); (2, [4]); (3, [5]); (4, [6]); (5, [7])];
     t_destroy_map := [];
     t_check_and_raise := [] |}.

#[local] Instance objs : Objects := objects tb.

(** The validating feature: the variable [2] has at most one client. *)
Definition validate (g : FG.fgraph) : bool :=
  length (FG.get_clients g 2) <=? 1.

#[local] Instance graphs : FunctionGraph FG.fgraph := FG.fg_instance validate.

Definition g0 : FG.fgraph :=
  FG.make_graph [0; 1] [5; 6; 7]
    (list_to_map [(0, [0; 1]); (1, [0; 1]); (2, [0; 1]);
                  (3, [2]); (4, [3]); (5, [4])]) false.

Definition attached : outcome unit * Merge.feat_world :=
  Merge.on_attach g0 {| Merge.names := ∅; Merge.feature := Merge.empty_feature |}.

(** [MergeOptimizer.apply] *)
Definition run := Merge.apply 20 g0 attached.2.

(** The profile and the apply nodes left. *)
Definition observe :=
  (λ r : outcome Merge.profile * (FG.fgraph * Merge.feat_world),
     (r.1, FG.apply_nodes r.2.1)) <$> run.

(** The state [apply] starts in and the state after [k] turns of its
    loop. *)
Definition s0 : Merge.apply_state FG.fgraph :=
  {| Merge.graph := g0; Merge.fw := attached.2; Merge.nb_fail := 0;
     Merge.nb_merged := 0; Merge.nb_constant := 0 |}.

Fixpoint after_turns (k : nat) : Merge.apply_state FG.fgraph :=
  match k with
  | 0 => s0
  | S k' =>
      match Merge.loop_turn (after_turns k') with
      | Some (_, s) => s
      | None => after_turns k'
      end
  end.

(** The fourth group the loop pops has two plans: the node [1] by the
    node [0], then the node [1] by the node [2]. *)
Definition plan_a : Merge.plan := [(3, 2, Merge.ModeMerge)].
Definition plan_b : Merge.plan := [(3, 4, Merge.ModeMerge)].

(** The state in which the loop over that group starts. *)
Definition before_group : Merge.apply_state FG.fgraph :=
  let s := after_turns 3 in
  Merge.with_world s (Merge.graph s)
    {| Merge.names := Merge.names (Merge.fw s);
       Merge.feature :=
         Merge.set_scheduled (Merge.feature (Merge.fw s)) [] |}.

(** The two turns of the loop over the group. *)
Definition first_plan := Merge.try_plan true plan_a before_group.
Definition second_plan := Merge.try_plan false plan_b first_plan.2.

Definition counters (s : Merge.apply_state FG.fgraph) :
    nat * nat * list node :=
  (Merge.nb_fail s, Merge.nb_merged s, FG.apply_nodes (Merge.graph s)).
End GroupScenario.

(** *** A pattern below a shared value

    The graph computes [neg(log(exp(x)))]; in one variant [exp(x)] is also
    read by [sin]. *)

Module PatternScenario.
Import Scenario.

(** [x] is the variable [0]; the nodes [0] to [3] are [exp(x)], [log],
    [neg] and [sin], with outputs [1], [2], [3] and [4]; the operators are
    numbered [30] to [33]. *)
Definition tb : table :=
  {| t_owner := [(1, 0); (2, 1); (3, 2); (4, 3)];
     t_type := [];
     t_const := [];
     t_convert := λ _ _, false;
     t_op := [(0, 30); (1, 31); (2, 32); (3, 33)];
     t_outputs := [(0, [1]); (1, [2]); (2, [3]); (3, [4])];
     t_destroy_map := [];
     t_check_and_raise := [] |}.

#[local] Instance objs : Objects := objects tb.
#[local] Instance graphs : FunctionGraph FG.fgraph :=
  FG.fg_instance (λ _, true).

Definition node_ins : gmap node (list var) :=
  list_to_map [(0, [0]); (1, [1]); (2, [2]); (3, [1])].

(** The graph with the output [neg(log(exp(x)))] alone, and the graph
    that also has the output [sin(exp(x))]. *)
Definition g_alone : FG.fgraph := FG.make_graph [0] [3] node_ins false.
Definition g_shared : FG.fgraph := FG.make_graph [0] [3; 4] node_ins false.

(** The output pattern is a name: the value bound to it. *)
Definition reify (p : PatternSub.pattern FG.fgraph) (s : PatternSub.subst) :
    var :=
  match p with
  | PatternSub.PVar x => default 0 (s !! x)
  | _ => 0
  end.

(** [PatternSub((neg, 'x'), 'x')] *)
Definition neg_x : PatternSub.PatternSub FG.fgraph :=
  {| PatternSub.in_pattern :=
       PatternSub.PApp 32
         (PatternSub.PCons (PatternSub.PVar "x") PatternSub.PNil);
     PatternSub.out_pattern := PatternSub.PVar "x";
     PatternSub.op := 32;
     PatternSub.allow_multiple_clients := false;
     PatternSub.get_nodes := None |}.

(** What the two graphs say about the node [neg]: the inputs of the node,
    the values the pattern is matched with and their clients. *)
Definition matched_part (g : FG.fgraph) :=
  (FG.get_inputs g 2,
   PatternSub.matched_values g (PatternSub.in_pattern neg_x) 3,
   FG.get_clients g 3, FG.get_clients g 2).
End PatternScenario.

(** *** A rewrite that removes two nodes at once

    The graph is [g(f(x))]; the local rewriter replaces [g(f(x))] by [x],
    as the pattern [(g, (f, 'x')) -> 'x'] does. *)

Module TopoScenario.
Import Scenario.

(** [x] is the variable [0]; the node [0] is [f(x)] with output [1], the
    node [1] is [g] of it with output [2]. *)
Definition tb : table :=
  {| t_owner := [(1, 0); (2, 1)];
     t_type := [];
     t_const := [];
     t_convert := λ _ _, false;
     t_op := [(0, 40); (1, 41)];
     t_outputs := [(0, [1]); (1, [2])];
     t_destroy_map := [];
     t_check_and_raise := [] |}.

#[local] Instance objs : Objects := objects tb.
#[local] Instance graphs : FunctionGraph FG.fgraph :=
  FG.fg_instance (λ _, true).

Definition g0 : FG.fgraph :=
  FG.make_graph [0] [2] (list_to_map [(0, [0]); (1, [1])]) false.

(** At the node [g], when its input is the output of [f], the rewriter
    returns the input of [f]; elsewhere it returns [False]. *)
Definition g_of_f : Navigator.LocalOptimizer FG.fgraph :=
  {| Navigator.lo_id := 70;
     Navigator.transform := λ g n,
       if Nat.eqb n 1 && bool_decide (FG.get_inputs g 1 = [1])
       then Normal (Navigator.RList (map Some (FG.get_inputs g 0)))
       else Normal Navigator.RNone |}.

(** The pass from the outputs to the inputs. *)
Definition topo (ignore : bool) : Navigator.TopoOptimizer FG.fgraph :=
  {| Navigator.local_opt := g_of_f;
     Navigator.order := Navigator.out_to_in;
     Navigator.ignore_newtrees := ignore;
     Navigator.failure_callback := None |}.

Definition run (ignore : bool) :=
  Navigator.topo_apply (topo ignore) 10 g0 (FG.outputs g0).

(** The nodes handed to the rewriter and the nodes left in the graph. *)
Definition observe (ignore : bool) :=
  (λ r : outcome unit * Navigator.topo_state FG.fgraph,
     (r.1, snd <$> Navigator.t_processed r.2,
      FG.apply_nodes (Navigator.t_graph r.2))) <$> run ignore.
End TopoScenario.

(** *** Sub-rewriters without a callback *)

Module SeqPlainScenario.
Import SeqOptimizer SeqScenario.

(** Two working rewriters, no failure callback. *)
Definition seq_plain : SeqOptimizer (list nat) unit :=
  {| data := [logging 1; logging 2]; failure_callback := None |}.
End SeqPlainScenario.

(** *** Rewriters on the graph [g(f(x))] *)

Module RewriterScenario.
#[local] Existing Instance TopoScenario.objs.
#[local] Existing Instance TopoScenario.graphs.
Import Navigator.

(** A rewriter that never applies, one whose answer is neither a list nor
    a dict, and one that fails an assertion. *)
Definition never : LocalOptimizer FG.fgraph :=
  {| lo_id := 71; transform := λ _ _, Normal RNone |}.
Definition malformed : LocalOptimizer FG.fgraph :=
  {| lo_id := 72; transform := λ _ _, Normal ROther |}.
Definition asserting : LocalOptimizer FG.fgraph :=
  {| lo_id := 73; transform := λ _ _, Raise AssertionError |}.

Definition topo_never (o : order_t) (ignore : bool) :
    TopoOptimizer FG.fgraph :=
  {| local_opt := never; order := o; ignore_newtrees := ignore;
     failure_callback := None |}.

(** A global rewriter that leaves the graph alone. *)
Definition quiet_global : Equilibrium.GlobalOptimizer FG.fgraph unit :=
  {| Equilibrium.go_id := 80;
     Equilibrium.go_merge_profile := Some (λ _ _, Normal tt);
     Equilibrium.go_apply := λ g, (Normal tt, g, []) |}.

(** An equilibrium driver all of whose rewriters leave the graph alone,
    with the given [max_use_ratio]. *)
Definition at_rest (ratio : option PyNumber.number) :
    Equilibrium.EquilibriumOptimizer FG.fgraph unit :=
  {| Equilibrium.global_optimizers := [quiet_global];
     Equilibrium.local_trackers := λ _, [never];
     Equilibrium.final_optimizers := [quiet_global];
     Equilibrium.cleanup_optimizers := [quiet_global];
     Equilibrium.ignore_newtrees := false;
     Equilibrium.tracks_on_change_inputs := true;
     Equilibrium.max_use_ratio := ratio;
     Equilibrium.failure_callback := None |}.

(** The [float] [0.5]. *)
Definition half : PyNumber.number :=
  PyNumber.NFloat (S754_finite false 4503599627370496 (-53)).
End RewriterScenario.

(** *** A group of local rewriters on [g(f(x))] *)

Module GroupRewriterScenario.
#[local] Existing Instance TopoScenario.objs.
#[local] Existing Instance TopoScenario.graphs.
Import LocalOptTracker LocalOptGroup.

(** Operators are their own classes, looked up under themselves alone. *)
Definition type_of (op : nat) : nat := op.
Definition compose_mro (c : nat) (_ : list nat) : list nat := [c].

(** The rewriters [1] and [3] track the operator [g]; [5] tracks its
    class; [9] tracks the empty list; any other rewriter tracks nothing in
    particular. *)
Definition tracks (rw : rewriter) : option (list (@track nat nat)) :=
  if Nat.eqb rw 1 || Nat.eqb rw 3 then Some [TrackInstance 41]
  else if Nat.eqb rw 5 then Some [TrackType 41]
  else if Nat.eqb rw 9 then Some []
  else None.

(** The rewriter [1] answers with an empty list; [3] replaces the output of
    the node [g] by [x]; the others answer [False]. *)
Definition transform_of (rw : rewriter) (g : FG.fgraph) (n : node) :
    outcome repl :=
  if Nat.eqb rw 1 then Normal (RSeq [])
  else if Nat.eqb rw 3 && Nat.eqb n 1 then Normal (RSeq [VVar 0])
  else Normal RFalse.

Definition grp : LocalOptGroup :=
  {| opts := [1; 3; 2]; apply_all_opts := false |}.

(** A group of rewriters that track nothing in particular. *)
Definition untracked : LocalOptGroup :=
  {| opts := [2; 4]; apply_all_opts := false |}.
End GroupRewriterScenario.

(** *** Chains, dicts and traces *)

Module ChainScenario.
#[local] Existing Instance TopoScenario.objs.
#[local] Existing Instance TopoScenario.graphs.

Definition isinstance_op (op c : nat) : bool := Nat.eqb op c.
Definition issubclass_Op (c : nat) : bool := true.

(** The graph of the single node [f()], without input. *)
Definition g_noin : FG.fgraph :=
  FG.make_graph [] [1] (list_to_map [(0, [])]) false.
End ChainScenario.

Module DictScenario.
Definition d1 : list (nat * Z) := [(1, 10%Z); (2, 20%Z)].
Definition d2 : list (nat * Z) := [(2, 5%Z); (3, 7%Z)].
End DictScenario.

Module TraceScenario.
#[local] Existing Instance TopoScenario.objs.
#[local] Existing Instance TopoScenario.graphs.
Import StackTrace.

Definition isinstance_op (op c : nat) : bool := Nat.eqb op c.
Definition scalar_op (op : nat) : option nat := None.

(** The output of [f] has a trace of one tuple; the output of [g] has
    none. *)
Definition t0 : tags := {[ 1 := [ETuple 5] ]}.

(** Both have a trace. *)
Definition t_all : tags := {[ 1 := [ETuple 5]; 2 := [EList [ETuple 6]] ]}.

(** A graph without node: its output is its input. *)
Definition g_empty : FG.fgraph := FG.make_graph [0] [0] ∅ false.
End TraceScenario.

(** *** Constants outside a function graph *)

Module PreMergeScenario.
#[local] Existing Instance ConstantScenario.objs.
Import PreConstantMerge.

(** The objects of scenario S1, none of them in a function graph. *)
Definition signature (v : var) : nat := merge_signature v.
Definition in_fgraph (n : node) : bool := false.
Definition ins (n : node) : list var :=
  match n with
  | 0 => [0; 2]
  | 1 => [1; 3]
  | _ => []
  end.

Definition st0 : state := {| seen_var := ∅; const_sig_inv := ∅; inputs := ins |}.

(** The state after the constant [2] has been met. *)
Definition st1 : state :=
  default st0 (snd <$> recursive_merge signature in_fgraph 1 2 st0).
End PreMergeScenario.


(** * Properties *)

(** ** Lists *)

Lemma pop_last_app {A} (l : list A) y r :
  pop_last l = Some (y, r) → l = r ++ [y].
Proof.
  revert y r. induction l as [|x l IH]; intros y r; simpl; [done|].
  destruct l as [|x' l']; [by intros [= <- <-]|].
  destruct (pop_last (x' :: l')) as [[y' r']|] eqn:Hp; simpl; [|done].
  intros [= <- <-]. simpl. f_equal. by apply IH.
Qed.

(** ** SeqOptimizer *)

Section SeqFacts.
Context {W prof : Type}.
Import SeqOptimizer.

(** A prefix of sub-rewriters the loop gets through can be split off. *)
Lemma apply_loop_app (self : SeqOptimizer W prof) pre post acc w acc1 w1 :
  apply_loop self pre acc w = (Normal acc1, w1) →
  apply_loop self (pre ++ post) acc w = apply_loop self post acc1 w1.
Proof.
  revert acc w. induction pre as [|o pre IH]; intros acc w Hpre; simpl in *.
  - by inversion Hpre.
  - destruct (optimize o w) as [[p|e] w'].
    + by apply IH.
    + destruct (is_AssertionError e); [done|].
      destruct (failure_callback self) as [cb|]; [|done].
      destruct (cb e (data self) o w') as [[u|e'] w'']; [by apply IH|done].
Qed.

(** C5, amended.  When the loop of [SeqOptimizer.apply] reaches a
    sub-rewriter that raises [e]: an [AssertionError] propagates, with or
    without a callback; without a callback [e] propagates; with a
    callback, the callback is called with [e] and the sub-rewriter, and
    the loop goes on with the remaining sub-rewriters when the callback
    returns, while an exception the callback raises propagates. *)
Theorem seq_exception_policy (self : SeqOptimizer W prof)
    pre opt post acc w acc1 w1 e w2 :
  apply_loop self pre acc w = (Normal acc1, w1) →
  optimize opt w1 = (Raise e, w2) →
  apply_loop self (pre ++ opt :: post) acc w =
    if is_AssertionError e then (Raise e, w2)
    else
      match failure_callback self with
      | None => (Raise e, w2)
      | Some cb =>
          match cb e (data self) opt w2 with
          | (Normal _, w3) => apply_loop self post acc1 w3
          | (Raise e', w3) => (Raise e', w3)
          end
      end.
Proof.
  intros Hpre Hopt. rewrite (apply_loop_app _ _ _ _ _ _ _ Hpre).
  simpl. rewrite Hopt. destruct (is_AssertionError e); [done|].
  destruct (failure_callback self) as [cb|]; [|done].
  by destruct (cb e (data self) opt w2) as [[u|e'] w3].
Qed.
End SeqFacts.

(** The policy at work: under [on_opt_error = "warn"] the default callback
    returns and the second sub-rewriter runs. *)
Lemma seq_exception_policy_witness :
  SeqOptimizer.seq_apply (SeqScenario.seq_warn OnErrWarn (OtherException 0)) []
  = (Normal [()], [1; 2]).
Proof.
  refine (eq_trans
            (seq_exception_policy
               (SeqScenario.seq_warn OnErrWarn (OtherException 0))
               [] (SeqScenario.failing 1 (OtherException 0))
               [SeqScenario.logging 2] [] [] [] [] (OtherException 0) [1]
               eq_refl eq_refl) _).
  reflexivity.
Defined.

(** C5 as stated fails: a callback is configured, the sub-rewriter raises
    an exception that is no [AssertionError], the callback is called and
    raises it again (the default callback under [on_opt_error = "raise"]),
    and the second sub-rewriter is never applied. *)
Lemma seq_callback_counterexample :
  let self := SeqScenario.seq_warn OnErrRaise (OtherException 0) in
  SeqOptimizer.failure_callback self ≠ None
  ∧ is_AssertionError (OtherException 0) = false
  ∧ SeqOptimizer.seq_apply self [] = (Raise (OtherException 0), [1]).
Proof. by repeat split. Qed.

(** ** LocalOptTracker *)

Section TrackerFacts.
Context {Op cls : Type} `{EqDecision Op} `{EqDecision cls}.
Variable type_of : Op → cls.
Variable compose_mro : cls → list cls → list cls.
Variable tracks : LocalOptTracker.rewriter → option (list (@LocalOptTracker.track Op cls)).
Import LocalOptTracker.

Abbreviation world := (@world Op cls).
Abbreviation get_trackers := (get_trackers type_of compose_mro).
Abbreviation run := (run type_of compose_mro tracks).
Abbreviation run_action := (run_action type_of compose_mro tracks).
Abbreviation cached := (@cached Op cls).
Abbreviation queries := (@queries Op).

Lemma dict_get_notin {K V} `{EqDecision K} (k : K) (pre l : list (K * V)) :
  k ∉ (fst <$> pre) → dict_get k (pre ++ l) = dict_get k l.
Proof.
  induction pre as [|[k' v] pre IH]; [done|]. simpl. intros Hk.
  apply not_elem_of_cons in Hk as [Hne Hk].
  destruct (decide (k = k')); [done|]. by apply IH.
Qed.

Lemma dict_get_None {K V} `{EqDecision K} (k : K) (l : list (K * V)) :
  dict_get k l = None → k ∉ (fst <$> l).
Proof.
  induction l as [|[k' v] l IH]; simpl; [intros _; apply not_elem_of_nil|].
  destruct (decide (k = k')); [done|]. intros Hl.
  apply not_elem_of_cons. auto.
Qed.

Lemma take_keep {A} (x : A) pre y post n :
  length pre < n →
  take (S n) (x :: pre ++ y :: post)
  = (x :: pre) ++ y :: take (n - S (length pre)) post.
Proof.
  intros Hn. simpl. f_equal. rewrite take_app_ge by lia. f_equal.
  destruct (n - length pre) as [|m] eqn:Hm; [lia|].
  simpl. f_equal. f_equal. lia.
Qed.

Lemma cached_lookup key r k w : cached key r k w → dict_get key (lru w) = Some r.
Proof.
  intros (pre & post & -> & Hk & _). rewrite dict_get_notin; [|done].
  simpl. by rewrite decide_True.
Qed.

Lemma cached_mono key r k k' w : k ≤ k' → cached key r k w → cached key r k' w.
Proof. intros ? (pre & post & ? & ? & ?). exists pre, post. repeat split; [done..|lia]. Qed.

(** A query puts the answer at the front of the cache. *)
Lemma get_trackers_cached_front self_id op w :
  cached (self_id, op) (get_trackers self_id op w).1 0
         (get_trackers self_id op w).2.
Proof.
  unfold get_trackers.
  destruct (dict_get (self_id, op) (lru w)) as [r|] eqn:Hget; simpl.
  - exists [], (filter (λ e, e.1 ≠ (self_id, op)) (lru w)).
    repeat split; [apply not_elem_of_nil|done].
  - exists [], (take (pred maxsize) (lru w)).
    repeat split; [apply not_elem_of_nil|done].
Qed.

(** One step of the program keeps the entry, one place further back at
    most when the step is a query. *)
Lemma cached_step key r k w a :
  cached key r k w →
  k + (if is_query a then 1 else 0) < maxsize →
  cached key r (k + (if is_query a then 1 else 0)) (run_action w a).
Proof.
  intros Hc Hk. destruct a as [i rw|i op]; cbn [is_query] in *.
  - destruct Hc as (pre & post & Hl & Hn & Hlen).
    exists pre, post. repeat split; [done..|lia].
  - destruct (decide ((i, op) = key)) as [<-|Hne].
    + pose proof (cached_lookup _ _ _ _ Hc) as Hget.
      pose proof (get_trackers_cached_front i op w) as Hf.
      unfold LocalOptTracker.run_action.
      unfold LocalOptTracker.get_trackers in Hf |- *.
      rewrite Hget in Hf |- *. simpl in *.
      eapply cached_mono; [|exact Hf]. lia.
    + destruct Hc as (pre & post & Hl & Hn & Hlen).
      unfold LocalOptTracker.run_action, LocalOptTracker.get_trackers.
      unfold cache, cache_key in *.
      destruct (dict_get (i, op) (lru w)) as [r'|] eqn:Hget; simpl.
      * exists (((i, op), r') :: filter (λ e, e.1 ≠ (i, op)) pre),
               (filter (λ e, e.1 ≠ (i, op)) post).
        rewrite Hl, filter_app, filter_cons_True by (simpl; congruence).
        repeat split.
        -- rewrite fmap_cons. apply not_elem_of_cons. split; [simpl; congruence|].
           intros Hin. apply Hn.
           apply list_elem_of_fmap in Hin as (e & -> & He).
           apply list_elem_of_filter in He as [_ He].
           apply list_elem_of_fmap. eauto.
        -- simpl. pose proof (length_filter (λ e, e.1 ≠ (i, op)) pre). lia.
      * exists (((i, op), get_trackers_body type_of compose_mro
                            (trackers w i) op) :: pre),
               (take (127 - S (length pre)) post).
        repeat split.
        -- cbn [lru]. rewrite Hl. unfold maxsize in *.
           apply (take_keep _ pre (key, r) post 127). lia.
        -- rewrite fmap_cons. apply not_elem_of_cons.
           split; [simpl; congruence|done].
        -- simpl. lia.
Qed.

Lemma cached_run key r acts : ∀ k w,
  cached key r k w →
  k + queries acts < maxsize →
  cached key r (k + queries acts) (run acts w).
Proof.
  unfold queries.
  induction acts as [|a acts IH]; intros k w Hc Hk; simpl in *.
  - eapply cached_mono; [|done]. lia.
  - assert (k + (if is_query a then 1 else 0) < maxsize) as Hk1
      by (destruct (is_query a); simpl in *; lia).
    pose proof (cached_step _ _ _ _ a Hc Hk1) as Hc1.
    apply IH in Hc1; [|destruct (is_query a); simpl in *; lia].
    eapply cached_mono; [|exact Hc1].
    destruct (is_query a); simpl; lia.
Qed.

(** C10, amended.  Once [get_trackers(op)] has been called on a tracker,
    a later call on the same tracker returns the cached result, whatever
    rewriters [add_tracker] has registered in between, as long as fewer
    than 128 calls of [get_trackers] (on any tracker: the cache is shared)
    were made in between; the cache keeps its 128 most recently used
    entries only. *)
Theorem get_trackers_cached self_id op w acts :
  queries acts < maxsize →
  (get_trackers self_id op (run acts (get_trackers self_id op w).2)).1
  = (get_trackers self_id op w).1.
Proof.
  intros Hq.
  pose proof (cached_run _ _ acts 0 _
                (get_trackers_cached_front self_id op w) Hq) as Hc.
  apply cached_lookup in Hc.
  unfold LocalOptTracker.get_trackers at 1. by rewrite Hc.
Qed.
End TrackerFacts.

(** A rewriter added after the first query stays invisible through 127
    further queries. *)
Lemma get_trackers_cached_witness :
  (LocalOptTracker.get_trackers TrackerScenario.type_of
     TrackerScenario.compose_mro 0 5
     (LocalOptTracker.run TrackerScenario.type_of TrackerScenario.compose_mro
        TrackerScenario.tracks (TrackerScenario.program 127)
        (LocalOptTracker.get_trackers TrackerScenario.type_of
           TrackerScenario.compose_mro 0 5 LocalOptTracker.initial).2)).1
  = (LocalOptTracker.get_trackers TrackerScenario.type_of
       TrackerScenario.compose_mro 0 5 LocalOptTracker.initial).1.
Proof.
  apply (get_trackers_cached TrackerScenario.type_of
           TrackerScenario.compose_mro TrackerScenario.tracks 0 5
           LocalOptTracker.initial (TrackerScenario.program 127)).
  vm_compute. lia.
Defined.

(** C10 as stated fails: the tracker [0] is asked for the operator [5] and
    answers with no rewriter; the rewriter [7], which tracks [5], is added;
    128 other operators are asked for; the tracker is asked for [5] again
    and answers with [7]. *)
Lemma get_trackers_eviction_counterexample :
  (LocalOptTracker.get_trackers TrackerScenario.type_of
     TrackerScenario.compose_mro 0 5 LocalOptTracker.initial).1 = []
  ∧ (LocalOptTracker.get_trackers TrackerScenario.type_of
       TrackerScenario.compose_mro 0 5
       (LocalOptTracker.run TrackerScenario.type_of
          TrackerScenario.compose_mro TrackerScenario.tracks
          (TrackerScenario.program 128)
          TrackerScenario.after_first_query)).1 = [7].
Proof. split; vm_compute; reflexivity. Qed.

(** ** EquilibriumOptimizer *)

Section EquilibriumFacts.
Context {objs : Objects} {G : Type} {graphs : FunctionGraph G} {prof : Type}.
Import Equilibrium.

Implicit Types (self : EquilibriumOptimizer G prof) (s : eq_state G prof).

(** *** A cleanup rewriter that always changes the graph *)

Lemma local_loop_no_rewriter self qfuel : ∀ s,
  (∀ op, local_trackers self op = []) →
  match local_loop self qfuel s with
  | Some (r, s') =>
      r = Normal tt ∧ e_graph s' = e_graph s ∧ e_changed s' = e_changed s
      ∧ e_abort s' = e_abort s ∧ e_iter_profs s' = e_iter_profs s
  | None => True
  end.
Proof.
  induction qfuel as [|qfuel IH]; intros s Hno; simpl.
  - by destruct (pop_last (e_q s)) as [[n q']|].
  - destruct (pop_last (e_q s)) as [[n q']|]; [|done].
    rewrite Hno. simpl.
    destruct (negb _);
      exact (IH (set_queue s q' (e_max_nb_nodes s) (e_max_use s)) Hno).
Qed.

(** The driver whose only rewriter is a cleanup rewriter that changes the
    graph at every application, and whose profiles can be merged, never
    leaves its loop. *)
Lemma cleanup_only_never_halts self c merge_profile (P : G → Prop) :
  global_optimizers self = [] → final_optimizers self = [] →
  cleanup_optimizers self = [c] →
  (∀ op, local_trackers self op = []) →
  (∀ n, ∃ max_use, max_use_of self n = Normal max_use) →
  go_merge_profile c = Some merge_profile →
  (∀ p1 p2, ∃ p, merge_profile p1 p2 = Normal p) →
  (∀ g, P g → ∃ p g' tr, go_apply c g = (Normal p, g', tr) ∧ P g'
                         ∧ ∀ ct, changed (track ct tr) = true) →
  ∀ fuel qfuel start_from s,
    P (e_graph s) → e_changed s = true → e_abort s = false →
    equilibrium_loop self fuel qfuel start_from s = None.
Proof.
  intros Hg Hf Hc Hno Hmu Hmp Hmerge Hrun.
  assert (∀ upd s l, P (e_graph s) → e_iter_profs s = [(c, l)] →
            ∃ s' p, cleanup_pass self upd s = (Normal tt, s')
                    ∧ P (e_graph s') ∧ e_changed s' = true
                    ∧ e_abort s' = e_abort s
                    ∧ e_iter_profs s' = [(c, l ++ [p])]) as Hpass.
  { intros upd s l HP Hd. unfold cleanup_pass, apply_cleanup. rewrite Hc.
    simpl. destruct (Hrun _ HP) as (p & g' & tr & -> & HP' & Hch). simpl.
    rewrite Hd. simpl. rewrite decide_True by done. simpl.
    rewrite Hch. simpl. eexists _, p. split; [done|]. simpl.
    split; [done|]. split; [apply orb_true_r|]. done. }
  induction fuel as [|fuel IH]; intros qfuel start_from s HP Hch Hab; simpl;
    rewrite Hch, Hab; simpl; [done|].
  unfold iteration. rewrite Hg, Hf, Hc. simpl.
  change (profs_init [c]) with [(c, @nil prof)].
  destruct (Hpass None
              (set_profs (set_flags s false (e_abort s)) [(c, [])]) [])
    as (s2 & p2 & -> & HP2 & _ & Hab2 & Hd2); [done..|].
  destruct (Hmu (Nat.max (e_max_nb_nodes s2)
                   (length (io_toposort (e_graph s2)
                              (start_vars start_from (e_graph s2))))))
    as [mu ->].
  match goal with
  | |- context [local_loop self qfuel ?s3] =>
      pose proof (local_loop_no_rewriter self qfuel s3 Hno) as Hl;
      destruct (local_loop self qfuel s3) as [[r4 s4]|]; [|done]
  end.
  destruct Hl as (-> & Hg4 & _ & Hab4 & Hd4). simpl in Hg4, Hab4, Hd4.
  destruct (Hpass None s4 [p2]) as (s6 & p6 & -> & HP6 & Hch6 & Hab6 & Hd6);
    [by rewrite Hg4|by rewrite Hd4|].
  rewrite Hd6. simpl. rewrite Hmp.
  destruct (Hmerge p2 p6) as [p ->].
  apply IH; [done..|]. simpl in Hab2. by rewrite Hab6, Hab4, Hab2.
Qed.

(** *** The cleanup pass *)

(** The log of a cleanup pass: one entry per cleanup rewriter, in order. *)
Lemma cleanup_loop_log self upd copts : ∀ ch s,
  match cleanup_loop self upd copts ch s with
  | (Normal ch', s') =>
      ∃ l, e_log s' = e_log s ++ l ∧ fst <$> l = go_id <$> copts
           ∧ ch' = ch || existsb snd l
  | (Raise e, s') =>
      ∃ l, e_log s' = e_log s ++ l ∧ (fst <$> l) `prefix_of` (go_id <$> copts)
  end.
Proof.
  induction copts as [|copt rest IH]; intros ch s; simpl.
  - exists []. by rewrite app_nil_r, orb_false_r.
  - destruct (go_apply copt (e_graph s)) as [[r g'] tr] eqn:Hrun.
    destruct r as [p|e]; simpl.
    + destruct (profs_append copt p (e_iter_profs s)) as [d|]; simpl.
      2:{ exists [(go_id copt, changed (track (reset (e_tracker s)) tr))].
          split; [done|]. simpl. apply prefix_cons, prefix_nil. }
      destruct (changed (track (reset (e_tracker s)) tr)) eqn:Hch.
      * specialize (IH true (incr_count
          (set_profs
             (after_run self upd s (reset (e_tracker s)) g' tr (go_id copt)
                true) d)
          (go_id copt))).
        destruct (cleanup_loop _ _ _ _ _) as [[ch'|e] s']; simpl in *.
        -- destruct IH as (l & Hl & Hids & Hch').
           exists ((go_id copt, true) :: l). rewrite Hl, <- app_assoc. simpl.
           repeat split; [by f_equal|]. by rewrite orb_true_r.
        -- destruct IH as (l & Hl & Hids).
           exists ((go_id copt, true) :: l). rewrite Hl, <- app_assoc. simpl.
           split; [done|]. by apply prefix_cons.
      * specialize (IH ch
          (set_profs
             (after_run self upd s (reset (e_tracker s)) g' tr (go_id copt)
                false) d)).
        destruct (cleanup_loop _ _ _ _ _) as [[ch'|e] s']; simpl in *.
        -- destruct IH as (l & Hl & Hids & Hch').
           exists ((go_id copt, false) :: l). rewrite Hl, <- app_assoc. simpl.
           repeat split; [by f_equal|done].
        -- destruct IH as (l & Hl & Hids).
           exists ((go_id copt, false) :: l). rewrite Hl, <- app_assoc. simpl.
           split; [done|]. by apply prefix_cons.
    + exists [(go_id copt, changed (track (reset (e_tracker s)) tr))].
      split; [done|]. simpl. apply prefix_cons, prefix_nil.
Qed.

(** C3, amended.  In a cleanup pass each cleanup rewriter is applied
    exactly once, in the order of the list (up to the first one that
    raises); the pass is not repeated.  It reports a change exactly when
    one of these applications changed the graph. *)
Theorem apply_cleanup_single_sweep self upd s :
  match apply_cleanup self upd s with
  | (Normal ch, s') =>
      ∃ l, e_log s' = e_log s ++ l
           ∧ fst <$> l = go_id <$> cleanup_optimizers self
           ∧ ch = existsb snd l
  | (Raise e, s') =>
      ∃ l, e_log s' = e_log s ++ l
           ∧ (fst <$> l) `prefix_of` (go_id <$> cleanup_optimizers self)
  end.
Proof.
  unfold apply_cleanup.
  exact (cleanup_loop_log self upd (cleanup_optimizers self) false s).
Qed.
End EquilibriumFacts.

Section CleanupScenarioFacts.
#[local] Existing Instance CleanupScenario.objs.
#[local] Existing Instance CleanupScenario.graphs.
Import Equilibrium.

(** The theorem on [identity(identity(x))]: the pass applies the one
    cleanup rewriter once and reports the change. *)
Lemma apply_cleanup_single_sweep_witness :
  ∃ s' l, CleanupScenario.pass1 = (Normal true, s')
          ∧ e_log s' = e_log CleanupScenario.s0 ++ l
          ∧ fst <$> l = [50]
          ∧ true = existsb snd l.
Proof.
  pose proof (apply_cleanup_single_sweep CleanupScenario.self None
                CleanupScenario.s0) as Hsweep.
  assert (Hrun : (apply_cleanup CleanupScenario.self None
                    CleanupScenario.s0).1 = Normal true)
    by (vm_compute; reflexivity).
  rewrite (surjective_pairing
             (apply_cleanup CleanupScenario.self None CleanupScenario.s0))
    in Hsweep.
  rewrite Hrun in Hsweep.
  destruct Hsweep as (l & Hl & Hids & Hch).
  exists (apply_cleanup CleanupScenario.self None CleanupScenario.s0).2, l.
  split; [|split; [exact Hl|split; [exact Hids|exact Hch]]].
  rewrite <- Hrun. apply surjective_pairing.
Defined.

(** C3 as stated fails: on [identity(identity(x))] the cleanup pass of the
    code applies the rewriter once, which removes one [identity] node, and
    ends although the node [1] is left and a second pass changes the graph
    again; a pass repeated until nothing changes applies the rewriter three
    times and leaves no node. *)
Lemma cleanup_not_repeated_counterexample :
  (CleanupScenario.pass1.1, CleanupScenario.observe CleanupScenario.pass1.2)
  = (Normal true, ([1], [(50, true)]))
  ∧ CleanupScenario.pass2.1 = Normal true
  ∧ (λ r, (r.1, CleanupScenario.observe r.2)) <$> CleanupScenario.stable_pass
    = Some (Normal true, ([], [(50, true); (50, true); (50, false)])).
Proof. repeat split; vm_compute; reflexivity. Qed.
End CleanupScenarioFacts.

(** ** MergeFeature and MergeOptimizer *)

Section MergeFacts.
Context {objs : Objects} {G : Type} {graphs : FunctionGraph G}.
Import Merge.

Implicit Types (w : feat_world) (s : apply_state G) (g : G).

(** *** The callbacks leave the blacklist alone *)

Lemma process_constant_blacklist c w :
  blacklist (feature (process_constant c w).2) = blacklist (feature w).
Proof.
  unfold process_constant. case_bool_decide; [done|].
  by destruct (const_sig_inv (feature w) !! merge_signature c).
Qed.

Lemma process_node_blacklist g n w :
  blacklist (feature (process_node g n w).2) = blacklist (feature w).
Proof.
  unfold process_node. case_bool_decide; [done|].
  destruct (merge_candidates g (feature w) n) as [cands|e]; [|done].
  destruct (foldl _ _ cands) as [nm [|p rc]]; done.
Qed.

Lemma mfor_blacklist {A} (body : A → M feat_world unit) (l : list A) :
  (∀ x w, blacklist (feature (body x w).2) = blacklist (feature w)) →
  ∀ w, blacklist (feature (mfor l body w).2) = blacklist (feature w).
Proof.
  intros Hbody. induction l as [|x l IH]; intros w; simpl; [done|].
  unfold mbind, M_bind. specialize (Hbody x w).
  destruct (body x w) as [[[]|e] w']; simpl in *; [|done].
  by rewrite IH.
Qed.

Lemma on_import_blacklist g n w :
  blacklist (feature (on_import g n w).2) = blacklist (feature w).
Proof.
  unfold on_import, mbind, M_bind.
  assert (∀ x w', blacklist (feature
            ((if is_Constant x then process_constant x else mret tt) w').2)
          = blacklist (feature w')) as Hbody.
  { intros x w'. destruct (is_Constant x); [|done].
    apply process_constant_blacklist. }
  pose proof (mfor_blacklist _ (node_inputs g n) Hbody w) as Hfor.
  destruct (mfor _ _ w) as [[[]|e] w']; simpl in *; [|done].
  by rewrite process_node_blacklist.
Qed.

Lemma on_prune_blacklist g n w :
  blacklist (feature (on_prune g n w).2) = blacklist (feature w).
Proof.
  unfold on_prune; simpl.
  match goal with
  | |- blacklist (foldl ?step ?f1 ?xs) = _ =>
      transitivity (blacklist f1); [|done];
      generalize f1; induction xs as [|c cs IH]; intros f; simpl; [done|];
      rewrite IH; by destruct (_ && _)
  end.
Qed.

Lemma on_change_input_blacklist g c i r new_r w :
  blacklist (feature (on_change_input g c i r new_r w).2)
  = blacklist (feature w).
Proof.
  unfold on_change_input, mbind, M_bind.
  assert (∀ n, blacklist (feature
            ((if bool_decide (n ∈ nodes_seen (feature w)) then
                process_node g n
                  {| names := names w;
                     feature :=
                       set_nodes_seen (feature w)
                         (nodes_seen (feature w) ∖ {[n]})
                         (noinput_nodes (feature w)) |}
              else (Normal tt, w)).2)) = blacklist (feature w)) as Hfirst.
  { intros n. case_bool_decide; [|done]. by rewrite process_node_blacklist. }
  destruct c as [|n]; simpl.
  - destruct (is_Constant new_r); [|done]. apply process_constant_blacklist.
  - specialize (Hfirst n).
    destruct (if bool_decide (n ∈ nodes_seen (feature w)) then _ else _)
      as [[[]|e] w1]; simpl in *; [|done].
    destruct (node_inputs g n); simpl; [done|].
    destruct (is_Constant new_r); [|done].
    by rewrite process_constant_blacklist.
Qed.

Lemma handle_blacklist g ev w :
  blacklist (feature (handle g ev w).2) = blacklist (feature w).
Proof.
  destruct ev; simpl;
    [apply on_import_blacklist|apply on_prune_blacklist
    |apply on_change_input_blacklist].
Qed.

Lemma fire_blacklist tr g_end w :
  blacklist (feature (fire tr g_end w).2.2) = blacklist (feature w).
Proof.
  revert w. induction tr as [|[g ev] tr IH]; intros w; simpl; [done|].
  pose proof (handle_blacklist g ev w) as Hh.
  destruct (handle g ev w) as [[[]|e] w']; simpl in *; [|done].
  by rewrite IH.
Qed.

Lemma do_replace_blacklist pairs g w :
  blacklist (feature (do_replace pairs g w).2.2) = blacklist (feature w).
Proof.
  unfold do_replace.
  destruct (if forallb _ pairs then _ else _) as [[tr g'] ex].
  pose proof (fire_blacklist tr g' w) as Hf.
  destruct (fire tr g' w) as [[[]|e] gw]; simpl in *; [|done].
  by destruct ex.
Qed.

(** *** The blacklist during [apply] *)

Lemma try_plan_blacklist success pairs_ s :
  blacklist (feature (fw (try_plan success pairs_ s).2))
  = blacklist (feature (fw s)) ++ appended_by_plan pairs_ s.
Proof.
  unfold try_plan, appended_by_plan.
  destruct (prepare_plan (graph s) pairs_) as [[pairs|]|e]; simpl;
    [|by rewrite app_nil_r..].
  pose proof (do_replace_blacklist pairs (graph s) (fw s)) as Hd.
  destruct (do_replace pairs (graph s) (fw s)) as [[[]|e] [g' w']];
    simpl in *.
  - destruct success; simpl; by rewrite Hd, app_nil_r.
  - destruct (is_InconsistencyError e); simpl; [by rewrite Hd|].
    by rewrite Hd, app_nil_r.
Qed.

Lemma run_group_blacklist pairs_list : ∀ success s,
  blacklist (feature (fw s))
  `prefix_of` blacklist (feature (fw (run_group success pairs_list s).2)).
Proof.
  induction pairs_list as [|pairs_ rest IH]; intros success s; simpl; [done|].
  unfold mbind, M_bind.
  pose proof (try_plan_blacklist success pairs_ s) as Ht.
  destruct (try_plan success pairs_ s) as [[[success'|]|e] s1]; simpl in *.
  - etrans; [|apply IH]. rewrite Ht. by apply prefix_app_r.
  - rewrite Ht. by apply prefix_app_r.
  - rewrite Ht. by apply prefix_app_r.
Qed.

Lemma loop_turn_blacklist s r s' :
  loop_turn s = Some (r, s') →
  blacklist (feature (fw s)) `prefix_of` blacklist (feature (fw s')).
Proof.
  unfold loop_turn.
  destruct (pop_last (scheduled (feature (fw s)))) as [[pl sched']|]; [|done].
  intros [= Hrun].
  pose proof (run_group_blacklist pl true
    (with_world s (graph s)
       {| names := names (fw s);
          feature := set_scheduled (feature (fw s)) sched' |})) as Hp.
  by rewrite Hrun in Hp.
Qed.

Lemma apply_loop_blacklist fuel : ∀ s r s',
  apply_loop fuel s = Some (r, s') →
  blacklist (feature (fw s)) `prefix_of` blacklist (feature (fw s')).
Proof.
  induction fuel as [|fuel IH]; intros s r s'; simpl.
  - destruct (loop_turn s); [done|]. by intros [= _ <-].
  - destruct (loop_turn s) as [[[[]|e] s2]|] eqn:Hturn.
    + intros Hloop. etrans; [by eapply loop_turn_blacklist|by eapply IH].
    + intros [= _ <-]. by eapply loop_turn_blacklist.
    + by intros [= _ <-].
Qed.

(** C7.  During one pass of [MergeOptimizer.apply] the blacklist only
    grows: a turn of the loop over the plans appends one pair when the
    replacement raises [InconsistencyError] and leaves the blacklist as it
    is otherwise (the callbacks the replacement fires included); along the
    loop over a group and along the whole [while] loop the blacklist the
    loop started with is a prefix of the one it reaches.  When [apply]
    returns, the blacklist is empty. *)
Theorem blacklist_grows_then_cleared :
  (∀ success pairs_ s,
     blacklist (feature (fw (try_plan success pairs_ s).2))
     = blacklist (feature (fw s)) ++ appended_by_plan pairs_ s)
  ∧ (∀ success pairs_list s,
       blacklist (feature (fw s))
       `prefix_of` blacklist (feature (fw (run_group success pairs_list s).2)))
  ∧ (∀ fuel s,
       match apply_loop fuel s with
       | Some (_, s') =>
           blacklist (feature (fw s))
           `prefix_of` blacklist (feature (fw s'))
       | None => True
       end)
  ∧ (∀ fuel g w,
       match apply fuel g w with
       | Some (Normal _, (_, w')) => blacklist (feature w') = []
       | _ => True
       end).
Proof.
  split; [exact try_plan_blacklist|].
  split; [intros; apply run_group_blacklist|].
  split.
  - intros fuel s. destruct (apply_loop fuel s) as [[r s']|] eqn:Hl; [|done].
    by eapply apply_loop_blacklist.
  - intros fuel g w. unfold apply.
    by destruct (apply_loop fuel _) as [[[[]|e] s']|].
Qed.

(** *** The destroy test *)

(** Removing the [CheckAndRaise] nodes raises nothing but [IndexError]. *)
Lemma inputs_assert_removed_raises g ins e :
  inputs_assert_removed g ins = Raise e → e = IndexError.
Proof.
  revert e. induction ins as [|i l IH]; intros e; simpl; [done|].
  destruct (owner i) as [o|].
  - destruct (is_CheckAndRaise (node_op o)).
    + destruct (node_inputs g o); [by intros [= <-]|].
      destruct (inputs_assert_removed g l); [done|].
      intros [= <-]. by eapply IH.
    + destruct (inputs_assert_removed g l); [done|].
      intros [= <-]. by eapply IH.
  - destruct (inputs_assert_removed g l); [done|].
    intros [= <-]. by eapply IH.
Qed.

(** C6, amended.  When the destroy test of [apply] rejects a plan (the
    graph has the destroy handler and the clients of the two endpoints
    hold more than one destroyer), the plan is skipped without a word: the
    graph, the counters ([nb_fail] among them) and the blacklist are what
    they were, and the loop goes on with the next plan of the group. *)
Theorem destroy_conflict_skips_plan success v c mode rest n cn s :
  owner v = Some n → owner c = Some cn →
  destroy_conflict (graph s) v c = true →
  match try_plan success ((v, c, mode) :: rest) s with
  | (Normal next, s') => next = Next success ∧ s' = s
  | (Raise e, s') => e = IndexError ∧ s' = s
  end.
Proof.
  intros Hv Hc Hd. unfold try_plan, prepare_plan. rewrite Hv, Hc, Hd.
  destruct (negb _ && _); [done|].
  destruct (inputs_assert_removed (graph s) (node_inputs (graph s) cn))
    as [ci|e] eqn:Hci; [|by apply inputs_assert_removed_raises in Hci].
  destruct (inputs_assert_removed (graph s) (node_inputs (graph s) n))
    as [ni|e] eqn:Hni; [|by apply inputs_assert_removed_raises in Hni].
  by destruct (negb _).
Qed.

(** *** The [success] flag *)

(** Once a plan of a group has been rejected, [success] stays false: a
    later plan of the group whose replacement goes through is neither
    counted nor followed by [break]. *)
Lemma try_plan_after_failure pairs_ pairs s g' w' :
  prepare_plan (graph s) pairs_ = Normal (Some pairs) →
  do_replace pairs (graph s) (fw s) = (Normal tt, (g', w')) →
  try_plan false pairs_ s = (Normal (Next false), with_world s g' w').
Proof. intros Hp Hd. unfold try_plan. by rewrite Hp, Hd. Qed.

(** *** Constants *)

(** A constant that is not indexed yet: without an incumbent for its
    signature it becomes the canonical constant; with an incumbent it is
    scheduled to be replaced by the incumbent, which stays canonical and
    takes the name of the newcomer if that name is set. *)
Lemma process_constant_cases c w :
  (process_constant c w).1 = Normal tt
  ∧ let f := feature w in
    let w' := (process_constant c w).2 in
    if bool_decide (c ∈ seen_constants f) then w' = w
    else
      match const_sig_inv f !! merge_signature c with
      | None =>
          const_sig_inv (feature w') !! merge_signature c = Some c
          ∧ const_sig (feature w') !! c = Some (merge_signature c)
          ∧ c ∈ seen_constants (feature w')
          ∧ scheduled (feature w') = scheduled f
          ∧ names w' = names w
      | Some other_c =>
          scheduled (feature w')
          = scheduled f ++ [[[(c, other_c, ModeMerge)]]]
          ∧ const_sig_inv (feature w') = const_sig_inv f
          ∧ seen_constants (feature w') = seen_constants f
          ∧ names w' !! other_c
            = (if name_truthy (names w !! c) then names w !! c
               else names w !! other_c)
          ∧ ∀ v, v ≠ other_c → names w' !! v = names w !! v
      end.
Proof.
  unfold process_constant. case_bool_decide; [done|].
  destruct (const_sig_inv (feature w) !! merge_signature c) as [other_c|];
    simpl.
  - split; [done|]. repeat split.
    + unfold copy_name. destruct (names w !! c) as [nm|] eqn:Hn; simpl.
      * case_bool_decide; simpl; [done|]. by rewrite lookup_insert_eq.
      * done.
    + intros v Hv. destruct (name_truthy (names w !! c)); [|done].
      unfold copy_name. destruct (names w !! c); [|done].
      by rewrite lookup_insert_ne.
  - split; [done|]. repeat split.
    + by rewrite lookup_insert_eq.
    + by rewrite lookup_insert_eq.
    + apply elem_of_union_l, elem_of_singleton. done.
Qed.

(** The first of two constants with the same signature is recorded, the
    second is scheduled to be replaced by the first. *)
Lemma process_two_constants c1 c2 w :
  c1 ≠ c2 → merge_signature c1 = merge_signature c2 →
  c1 ∉ seen_constants (feature w) → c2 ∉ seen_constants (feature w) →
  const_sig_inv (feature w) !! merge_signature c1 = None →
  let w' := (process_constant c2 (process_constant c1 w).2).2 in
  const_sig_inv (feature w') !! merge_signature c1 = Some c1
  ∧ scheduled (feature w')
    = scheduled (feature w) ++ [[[(c2, c1, ModeMerge)]]].
Proof.
  intros Hne Hsig Hc1 Hc2 Hnone. simpl.
  pose proof (process_constant_cases c1 w) as [_ H1]. simpl in H1.
  rewrite bool_decide_eq_false_2, Hnone in H1 by done.
  destruct H1 as (Hinv & _ & _ & Hsched & _).
  pose proof (process_constant_cases c2 (process_constant c1 w).2) as [_ H2].
  simpl in H2. rewrite bool_decide_eq_false_2 in H2.
  - rewrite <- Hsig, Hinv in H2. destruct H2 as (Hs2 & Hi2 & _).
    by rewrite Hi2, Hinv, Hs2, Hsched.
  - unfold process_constant. rewrite bool_decide_eq_false_2, Hnone by done.
    simpl. intros [Hin|Hin]%elem_of_union; [|done].
    apply elem_of_singleton in Hin. congruence.
Qed.
End MergeFacts.

Section DestroyScenarioFacts.
#[local] Existing Instance DestroyScenario.objs.
#[local] Existing Instance DestroyScenario.graphs.
Import Merge.

(** The theorem on scenario S3: the plan that replaces the node [1] by
    the node [0] is skipped and nothing changes. *)
Lemma destroy_conflict_skips_plan_witness :
  match try_plan true [(3, 2, ModeMerge)] DestroyScenario.s0 with
  | (Normal next, s') => next = Next true ∧ s' = DestroyScenario.s0
  | (Raise e, s') => e = IndexError ∧ s' = DestroyScenario.s0
  end.
Proof.
  apply (@destroy_conflict_skips_plan DestroyScenario.objs FG.fgraph
           DestroyScenario.graphs true 3 2 ModeMerge [] 1 0
           DestroyScenario.s0); by vm_compute.
Defined.

(** C6 as stated fails.  In scenario S3 the graph has the destroy handler,
    the nodes [1] and [0] have the same operator and the same inputs, and
    the destroy test rejects their merge; the loop of [apply] ends with
    both nodes in the graph, but with [nb_fail = 0] and an empty blacklist:
    the plan was skipped, not recorded as a failure. *)
Lemma destroy_conflict_counterexample :
  has_destroy_handler DestroyScenario.g0 = true
  ∧ node_op 1 = node_op 0
  ∧ node_inputs DestroyScenario.g0 1 = node_inputs DestroyScenario.g0 0
  ∧ scheduled (feature (fw DestroyScenario.s0)) = [[DestroyScenario.the_plan]]
  ∧ destroy_conflict DestroyScenario.g0 3 2 = true
  ∧ DestroyScenario.observe = Some (Normal tt, 0, 0, [], [0; 2; 1; 3]).
Proof. repeat split; by vm_compute. Qed.
End DestroyScenarioFacts.

Section GroupScenarioFacts.
#[local] Existing Instance GroupScenario.objs.
#[local] Existing Instance GroupScenario.graphs.
Import Merge.

(** C2 on a group whose first plan is rejected.  Three nodes compute
    [mul(a, b)] and the graph rejects a second client of the output of the
    node [0].  The fourth group the loop pops holds two plans for the node
    [1].  The first plan, by the node [0], is rejected ([nb_fail] goes
    from 3 to 4).  The second plan, by the node [2], goes through: the node
    [1] leaves the graph.  But [success] is still false: the loop does not
    [break] and [nb_merged] stays 0, also in the profile [apply] returns. *)
Lemma merge_not_counted_after_failure :
  scheduled (feature (fw (GroupScenario.after_turns 3)))
  = [[GroupScenario.plan_a; GroupScenario.plan_b]]
  ∧ GroupScenario.counters GroupScenario.before_group
    = (3, 0, [0; 3; 4; 5; 2; 1])
  ∧ (GroupScenario.first_plan.1,
     GroupScenario.counters GroupScenario.first_plan.2)
    = (Normal (Next false), (4, 0, [0; 3; 4; 5; 2; 1]))
  ∧ (GroupScenario.second_plan.1,
     GroupScenario.counters GroupScenario.second_plan.2)
    = (Normal (Next false), (4, 0, [0; 3; 4; 5; 2]))
  ∧ GroupScenario.observe
    = Some (Normal {| p_nb_fail := 4; p_nb_merged := 0; p_nb_constant := 0 |},
            [0; 3; 4; 5; 2]).
Proof. repeat split; by vm_compute. Qed.

(** The theorem on the same pass: the blacklist is empty at the start,
    has grown to four pairs when the loop ends, and is empty again when
    [apply] returns. *)
Lemma blacklist_grows_then_cleared_witness :
  blacklist (feature (fw GroupScenario.s0)) = []
  ∧ (∃ s', apply_loop 20 GroupScenario.s0 = Some (Normal tt, s')
           ∧ blacklist (feature (fw GroupScenario.s0))
             `prefix_of` blacklist (feature (fw s'))
           ∧ length (blacklist (feature (fw s'))) = 4)
  ∧ ∃ p g' w', apply 20 GroupScenario.g0 GroupScenario.attached.2
               = Some (Normal p, (g', w'))
               ∧ blacklist (feature w') = [].
Proof.
  destruct (@blacklist_grows_then_cleared GroupScenario.objs FG.fgraph
              GroupScenario.graphs) as (_ & _ & Hloop & Happly).
  split; [by vm_compute|]. split.
  - specialize (Hloop 20 GroupScenario.s0).
    let r := eval vm_compute in (apply_loop 20 GroupScenario.s0) in
    assert (Hrun : apply_loop 20 GroupScenario.s0 = r)
      by (vm_compute; reflexivity).
    rewrite Hrun in Hloop.
    eexists. split; [exact Hrun|]. split; [exact Hloop|]. reflexivity.
  - specialize (Happly 20 GroupScenario.g0 GroupScenario.attached.2).
    let r := eval vm_compute in
      (apply 20 GroupScenario.g0 GroupScenario.attached.2) in
    assert (Hrun : apply 20 GroupScenario.g0 GroupScenario.attached.2 = r)
      by (vm_compute; reflexivity).
    rewrite Hrun in Happly.
    eexists _, _, _. split; [exact Hrun|exact Happly].
Defined.
End GroupScenarioFacts.

(** ** PatternSub *)

Section PatternFacts.
Context {objs : Objects} {G : Type} {graphs : FunctionGraph G}.
Import PatternSub.
Variable reify : pattern G → subst → var.

Implicit Types (self : PatternSub G) (g : G).

(** A successful unification has tested every constraint of the pattern. *)
Lemma unify_constraints_hold g :
  (∀ p v s s', unify g p v s = Some s' → constraints_hold g p v = true)
  ∧ (∀ ps vs s s',
       unify_args g ps vs s = Some s' → constraints_hold_args g ps vs = true).
Proof.
  apply pattern_patterns_ind; simpl; try done.
  - intros op args IH v s s'. destruct (owner v) as [n|]; [|done].
    case_bool_decide; [|done]. apply IH.
  - intros p IH c v s s'. destruct (c g v); [|done]. simpl. apply IH.
  - intros p IHp ps IHps [|v vs] s s'; [done|].
    destruct (unify g p v s) as [s1|] eqn:Hp; [|done].
    intros Hps. rewrite (IHp _ _ _ Hp). simpl. by eapply IHps.
Qed.

Lemma try_real_nodes_dict self g real_nodes r :
  try_real_nodes reify self g real_nodes = Normal (Some r) → ∃ d, r = RDict d.
Proof.
  induction real_nodes as [|[|rn] rest IH]; simpl; [done|done|].
  destruct (transform_no_get_nodes reify self g rn) as [[|l|d]|e];
    [done|intros [= <-]; eauto..|done].
Qed.

(** What a list returned by [match_node] tells. *)
Lemma match_node_list self g n l :
  match_node reify self g n = Normal (RList l) →
  node_op n = op self
  ∧ ∃ o s, node_outputs n = [o]
           ∧ unify g (in_pattern self) o ∅ = Some s
           ∧ l = [reify (out_pattern self) s].
Proof.
  unfold match_node, node_out. case_bool_decide as Hop; [done|].
  destruct (node_outputs n) as [|o [|o' os]] eqn:Hout; [done| |done].
  destruct (unify g (in_pattern self) o ∅) as [s|] eqn:Hu; [|done].
  intros Hl. split; [done|]. exists o, s. repeat split; [done|].
  destruct (owner (reify (out_pattern self) s)).
  - case_bool_decide; [done|]. by injection Hl as <-.
  - case_bool_decide; [done|]. case_bool_decide; [done|].
    by injection Hl as <-.
Qed.

(** C4, amended.  When [transform] of a [PatternSub] with
    [allow_multiple_clients=False] returns a replacement list for a node,
    the operator of the node is the root operator, the unification of the
    pattern with the output of the node succeeded, every constraint of the
    pattern holds, and no variable between the inputs of the graph and the
    outputs of the node, the inputs of the graph left out, has more than
    one client.  These variables are all the ancestors of the node, and its
    outputs: values outside the matched subgraph count too. *)
Theorem transform_match_conditions self g n l :
  allow_multiple_clients self = false →
  transform reify self g n = Normal (RList l) →
  node_op n = op self
  ∧ (∃ o s, node_outputs n = [o]
            ∧ unify g (in_pattern self) o ∅ = Some s
            ∧ constraints_hold g (in_pattern self) o = true
            ∧ l = [reify (out_pattern self) s])
  ∧ ∀ v, v ∈ vars_between g (node_outputs n) → v ∉ fg_inputs g →
         length (fg_clients g v) ≤ 1.
Proof.
  intros Hallow. unfold transform. rewrite Hallow. simpl.
  destruct (some_value_has_several_clients g n) eqn:Hsev; [done|].
  intros Hm.
  assert (match_node reify self g n = Normal (RList l)) as Hmatch.
  { destruct (get_nodes self) as [gn|]; [|done].
    destruct (try_real_nodes reify self g (gn g n)) as [[r|]|e] eqn:Ht;
      [|done..].
    apply try_real_nodes_dict in Ht as [d ->]. done. }
  apply match_node_list in Hmatch as (Hop & o & s & Hout & Hu & ->).
  split; [done|]. split.
  - exists o, s. split; [done|]. split; [done|]. split; [|done].
    by eapply (proj1 (unify_constraints_hold g)).
  - intros v Hv Hin. unfold some_value_has_several_clients in Hsev.
    apply not_true_iff_false in Hsev. rewrite existsb_exists in Hsev.
    destruct (decide (length (fg_clients g v) ≤ 1)) as [|Hgt]; [done|].
    exfalso. apply Hsev. exists v. split.
    + apply list_elem_of_In, list_elem_of_filter. done.
    + apply Nat.ltb_lt. lia.
Qed.
End PatternFacts.

Section PatternScenarioFacts.
#[local] Existing Instance PatternScenario.objs.
#[local] Existing Instance PatternScenario.graphs.
Import PatternSub.

(** The theorem on [neg(log(exp(x)))] alone: the pattern [(neg, 'x')]
    matches at the node [neg] and returns the value bound to ['x']. *)
Lemma transform_match_conditions_witness :
  node_op 2 = op PatternScenario.neg_x
  ∧ (∃ o s, node_outputs 2 = [o]
            ∧ unify PatternScenario.g_alone
                (in_pattern PatternScenario.neg_x) o ∅ = Some s
            ∧ constraints_hold PatternScenario.g_alone
                (in_pattern PatternScenario.neg_x) o = true
            ∧ [2] = [PatternScenario.reify
                       (out_pattern PatternScenario.neg_x) s])
  ∧ ∀ v, v ∈ vars_between PatternScenario.g_alone (node_outputs 2) →
         v ∉ fg_inputs PatternScenario.g_alone →
         length (fg_clients PatternScenario.g_alone v) ≤ 1.
Proof.
  apply (@transform_match_conditions PatternScenario.objs FG.fgraph
           PatternScenario.graphs PatternScenario.reify
           PatternScenario.neg_x PatternScenario.g_alone 2 [2]);
    by vm_compute.
Defined.

(** C4 as stated fails.  The pattern [(neg, 'x')] is matched at the node
    [neg] of two graphs that agree on the matched subgraph: the operator is
    the root operator, the unification succeeds, and the matched values [3]
    and [2] have exactly one client each.  In the graph where [exp(x)], the
    value [1], which is outside the matched subgraph, is also read by
    [sin], [transform] returns [False]; in the graph where it is not, the
    same node matches. *)
Lemma outside_value_counterexample :
  allow_multiple_clients PatternScenario.neg_x = false
  ∧ node_op 2 = op PatternScenario.neg_x
  ∧ PatternScenario.matched_part PatternScenario.g_shared
    = PatternScenario.matched_part PatternScenario.g_alone
  ∧ PatternScenario.matched_part PatternScenario.g_shared
    = ([2], [3; 2], [(COutput, 0)], [(CNode 2, 0)])
  ∧ unify PatternScenario.g_shared (in_pattern PatternScenario.neg_x) 3 ∅
    = Some {["x" := 2]}
  ∧ spec_single_client PatternScenario.neg_x PatternScenario.g_shared 2 = true
  ∧ length (fg_clients PatternScenario.g_shared 1) = 2
  ∧ transform PatternScenario.reify PatternScenario.neg_x
      PatternScenario.g_shared 2 = Normal RFalse
  ∧ transform PatternScenario.reify PatternScenario.neg_x
      PatternScenario.g_alone 2 = Normal (RList [2]).
Proof. repeat split; by vm_compute. Qed.
End PatternScenarioFacts.

(** ** TopoOptimizer *)

Section TopoFacts.
Context {objs : Objects} {G : Type} {graphs : FunctionGraph G}.
Import Navigator.

Implicit Types (self : TopoOptimizer G) (s : topo_state G).

Lemma occurrences_app n l1 l2 :
  occurrences n (l1 ++ l2) = occurrences n l1 + occurrences n l2.
Proof. unfold occurrences. by rewrite filter_app, length_app. Qed.

Lemma occurrences_cons n m l :
  occurrences n (m :: l) = (if decide (m = n) then 1 else 0) + occurrences n l.
Proof.
  unfold occurrences. destruct (decide (m = n)).
  - by rewrite filter_cons_True.
  - by rewrite filter_cons_False.
Qed.

(** Popping takes one entry off the work list. *)
Lemma topo_pop_entry self q n q' :
  topo_pop self q = Some (n, q') →
  length q = S (length q')
  ∧ ∀ m, occurrences m q = (if decide (n = m) then 1 else 0) + occurrences m q'.
Proof.
  unfold topo_pop. destruct (order self).
  - destruct q as [|n0 q0]; [done|]. intros [= <- <-]. split; [done|].
    intros m. apply occurrences_cons.
  - intros Hp%pop_last_app. subst q. split.
    + rewrite length_app. simpl. lia.
    + intros m. rewrite occurrences_app, occurrences_cons.
      change (occurrences m []) with 0. destruct (decide (n = m)); lia.
Qed.




End TopoFacts.

Section TopoScenarioFacts.
#[local] Existing Instance TopoScenario.objs.
#[local] Existing Instance TopoScenario.graphs.


End TopoScenarioFacts.

Section OscillationScenarioFacts.
#[local] Existing Instance OscillationScenario.objs.
#[local] Existing Instance OscillationScenario.graphs.
Import Equilibrium PyNumber.

(** The rewriter [commute] keeps the graph among the three graphs of the
    scenario and changes it every time. *)
Lemma commute_reachable id g :
  OscillationScenario.reachable g →
  ∃ p g' tr, go_apply (OscillationScenario.commute id) g = (Normal p, g', tr)
             ∧ OscillationScenario.reachable g'
             ∧ ∀ ct, changed (track ct tr) = true.
Proof.
  intros [->|[->| ->]].
  - eexists _, _, _. split; [by vm_compute|].
    split; [right; left; by vm_compute|]. intros ct. reflexivity.
  - eexists _, _, _. split; [by vm_compute|].
    split; [right; right; by vm_compute|]. intros ct. reflexivity.
  - eexists _, _, _. split; [by vm_compute|].
    split; [right; left; by vm_compute|]. intros ct. reflexivity.
Qed.

(** The product of an [int] and a [float] is the rounded one: [10 * 0.3]
    is the [float] [3.0], which the count [3] does not exceed, although
    [0.3] is less than three tenths. *)
Example max_use_float_product :
  let ratio := S754_finite false 5404319552844595 (-54) in
  int_mul 10 (Some (NFloat ratio))
  = Normal (NFloat (S754_finite false 6755399441055744 (-51)))
  ∧ int_gt 3 (NFloat (S754_finite false 6755399441055744 (-51))) = false
  ∧ int_gt 4 (NFloat (S754_finite false 6755399441055744 (-51))) = true
  ∧ (5404319552844595 * 10 <? 3 * 2 ^ 54)%Z = true.
Proof. repeat split; vm_compute; reflexivity. Qed.

(** C1 does not hold of the code, which exceeds the bound of its own
    documentation ("each optimizer can be applied at most (size of graph *
    this number) times") and need not halt.  With the two rewriters as
    global rewriters, [max_use_ratio = 1] and a graph of one node,
    [max_use] is [1]; the driver applies each rewriter twice, four
    successful applications in all, and only then leaves its loop with
    [max_use_abort] set.  With one of them as a cleanup rewriter, the
    driver never leaves its loop: the count of a cleanup rewriter is not
    tested against [max_use]. *)
Theorem equilibrium_exceeds_documented_bound :
  fg_nb_apply_nodes OscillationScenario.g_ab = 1
  ∧ max_use_of OscillationScenario.as_global 1 = Normal (NInt 1)
  ∧ OscillationScenario.observe
    = Some (Normal tt, [(60, true); (61, true); (60, true); (61, true)],
            true, 1, 2, 2)
  ∧ ∀ fuel qfuel,
      apply OscillationScenario.as_cleanup OnErrWarn fuel qfuel None
        OscillationScenario.g_ab
      = None.
Proof.
  split; [by vm_compute|]. split; [by vm_compute|]. split; [by vm_compute|].
  intros fuel qfuel. unfold apply.
  change (start_from_ok None OscillationScenario.g_ab) with true.
  assert (max_use_of OscillationScenario.as_cleanup
            (fg_nb_apply_nodes OscillationScenario.g_ab) = Normal (NInt 1))
    as -> by (by vm_compute).
  cbn [negb].
  rewrite (cleanup_only_never_halts OscillationScenario.as_cleanup
             (OscillationScenario.commute 60) (λ _ _, Normal tt)
             OscillationScenario.reachable); try done.
  - intros n. eexists. unfold max_use_of. simpl. done.
  - intros p1 p2. by exists tt.
  - intros g Hg. apply commute_reachable, Hg.
  - by left.
Qed.
End OscillationScenarioFacts.

(** * Further properties *)

Lemma pop_last_None {A} (l : list A) : pop_last l = None → l = [].
Proof.
  induction l as [|x l IH]; [done|]. simpl. destruct l as [|y l]; [done|].
  destruct (pop_last (y :: l)) as [[z r]|]; [done|].
  intros _. by specialize (IH eq_refl).
Qed.

Section MergeMoreFacts.
Context {objs : Objects} {G : Type} {graphs : FunctionGraph G}.
Import Merge MergeInv.

Implicit Types (w : feat_world) (s : apply_state G) (g : G).

Lemma apply_loop_drains fuel : ∀ s s',
  apply_loop fuel s = Some (Normal tt, s') →
  scheduled (feature (fw s')) = [].
Proof.
  induction fuel as [|fuel IH]; intros s s'; simpl.
  - unfold loop_turn.
    destruct (pop_last (scheduled (feature (fw s)))) as [[pl sched']|] eqn:Hp;
      [done|].
    intros [= <-]. by apply pop_last_None.
  - unfold loop_turn.
    destruct (pop_last (scheduled (feature (fw s)))) as [[pl sched']|] eqn:Hp.
    + destruct (run_group _ _ _) as [[[]|e] s2]; [apply IH|done].
    + intros [= <-]. by apply pop_last_None.
Qed.

(** X1.  When [MergeOptimizer.apply] returns, no replacement is left scheduled,
    whatever the callbacks scheduled meanwhile; on a feature with nothing
    scheduled it returns at once, with the three counters at zero and the
    graph as it was. *)
Theorem apply_drains_schedule :
  (∀ fuel g w p g' w',
     apply fuel g w = Some (Normal p, (g', w')) →
     scheduled (feature w') = [])
  ∧ (∀ fuel g w,
       scheduled (feature w) = [] →
       apply fuel g w
       = Some (Normal {| p_nb_fail := 0; p_nb_merged := 0;
                         p_nb_constant := 0 |},
               (g, {| names := names w;
                      feature := set_blacklist (feature w) [] |}))).
Proof.
  split.
  - intros fuel g w p g' w'. unfold apply.
    destruct (apply_loop fuel _) as [[[[]|e] s]|] eqn:Hloop; [|done..].
    intros [= _ _ <-]. simpl. by eapply apply_loop_drains.
  - intros fuel g w Hs. unfold apply.
    assert (∀ s, scheduled (feature (fw s)) = [] →
                 apply_loop fuel s = Some (Normal tt, s)) as Hnone.
    { intros s Hs'. destruct fuel; simpl; unfold loop_turn; by rewrite Hs'. }
    by rewrite Hnone.
Qed.

(** *** Counters *)

Lemma try_plan_counters success pairs_ s :
  let s' := (try_plan success pairs_ s).2 in
  nb_fail s' + length (blacklist (feature (fw s)))
  = nb_fail s + length (blacklist (feature (fw s')))
  ∧ nb_constant s ≤ nb_constant s'
  ∧ nb_constant s' + nb_merged s ≤ nb_constant s + nb_merged s'.
Proof.
  unfold try_plan.
  destruct (prepare_plan (graph s) pairs_) as [[pairs|]|e]; simpl;
    [|lia..].
  pose proof (do_replace_blacklist pairs (graph s) (fw s)) as Hd.
  destruct (do_replace pairs (graph s) (fw s)) as [[[]|e] [g' w']];
    simpl in *.
  - destruct success; simpl; rewrite Hd; [|lia].
    destruct pairs as [|[a b] pairs]; simpl; [lia|].
    destruct (is_Constant a); lia.
  - destruct (is_InconsistencyError e); simpl; rewrite ?Hd.
    + rewrite length_app. simpl. lia.
    + lia.
Qed.

Lemma counters_rel_trans s1 s2 s3 :
  counters_rel s1 s2 → counters_rel s2 s3 → counters_rel s1 s3.
Proof. unfold counters_rel. lia. Qed.

Lemma run_group_counters pairs_list : ∀ success s,
  counters_rel s (run_group success pairs_list s).2.
Proof.
  induction pairs_list as [|pairs_ rest IH]; intros success s; simpl.
  - unfold counters_rel. lia.
  - unfold mbind, M_bind.
    pose proof (try_plan_counters success pairs_ s) as Ht.
    destruct (try_plan success pairs_ s) as [[[success'|]|e] s1];
      simpl in *; [|done..].
    eapply counters_rel_trans; [exact Ht|apply IH].
Qed.

Lemma apply_loop_counters fuel : ∀ s r s',
  apply_loop fuel s = Some (r, s') → counters_rel s s'.
Proof.
  assert (∀ s r s', loop_turn s = Some (r, s') → counters_rel s s') as Hturn.
  { intros s r s'. unfold loop_turn.
    destruct (pop_last (scheduled (feature (fw s)))) as [[pl sched']|];
      [|done].
    intros [= Hrun].
    pose proof (run_group_counters pl true
      (with_world s (graph s)
         {| names := names (fw s);
            feature := set_scheduled (feature (fw s)) sched' |})) as Hp.
    by rewrite Hrun in Hp. }
  induction fuel as [|fuel IH]; intros s r s'; simpl.
  - destruct (loop_turn s); [done|]. intros [= _ <-].
    unfold counters_rel; lia.
  - destruct (loop_turn s) as [[[[]|e] s2]|] eqn:Ht.
    + intros Hloop. eapply counters_rel_trans; [by eapply Hturn|by eapply IH].
    + intros [= _ <-]. by eapply Hturn.
    + intros [= _ <-]. unfold counters_rel; lia.
Qed.

(** X2.  [nb_fail] counts the pairs the pass put on the blacklist: along the
    loop of [MergeOptimizer.apply], however it ends, the counter has grown
    by the number of pairs the blacklist has grown by. *)
Theorem nb_fail_counts_blacklist fuel s r s' :
  apply_loop fuel s = Some (r, s') →
  nb_fail s' + length (blacklist (feature (fw s)))
  = nb_fail s + length (blacklist (feature (fw s'))).
Proof. intros Hl. by destruct (apply_loop_counters _ _ _ _ Hl). Qed.

(** X3.  A constant merge is counted as a merge too: in the profile
    [MergeOptimizer.apply] returns, [nb_constant] is at most [nb_merged]. *)
Theorem nb_constant_le_nb_merged fuel g w p gw :
  apply fuel g w = Some (Normal p, gw) → p_nb_constant p ≤ p_nb_merged p.
Proof.
  unfold apply.
  destruct (apply_loop fuel _) as [[[[]|e] s]|] eqn:Hloop; [|done..].
  intros [= <- _]. simpl.
  destruct (apply_loop_counters _ _ _ _ Hloop) as (_ & _ & Hc). simpl in Hc.
  lia.
Qed.

(** *** What [process_node] schedules *)

Lemma inputs_match_eq (xs ys : list var) :
  length xs = length ys → inputs_match xs ys = true → xs = ys.
Proof.
  revert ys. induction xs as [|x xs IH]; intros [|y ys]; simpl; try done.
  intros [= Hlen]. unfold inputs_match. simpl.
  intros [Hxy Hrest]%andb_prop. apply bool_decide_eq_true in Hxy.
  simpl in Hxy. subst y. f_equal. by apply IH.
Qed.

Lemma try_candidate_sound g f n (Q : node → Prop) cands : ∀ nm rc,
  (∀ c, c ∈ cands → Q c) →
  Forall (λ pl, ∃ c, Q c ∧ c ≠ n ∧ node_op n = node_op c
                     ∧ node_inputs g n = node_inputs g c
                     ∧ ((Some n, Some c) ∉ blacklist f)
                     ∧ pl = zip_with (λ o co, (o, co, ModeMerge))
                              (node_outputs n) (node_outputs c)) rc →
  Forall (λ pl, ∃ c, Q c ∧ c ≠ n ∧ node_op n = node_op c
                     ∧ node_inputs g n = node_inputs g c
                     ∧ ((Some n, Some c) ∉ blacklist f)
                     ∧ pl = zip_with (λ o co, (o, co, ModeMerge))
                              (node_outputs n) (node_outputs c))
         (foldl (try_candidate g f n) (nm, rc) cands).2.
Proof.
  induction cands as [|c cands IH]; intros nm rc HQ Hrc; simpl; [done|].
  assert (∀ c', c' ∈ cands → Q c') as HQ'.
  { intros c' Hc'. apply HQ. by right. }
  case_bool_decide as Hcn; [by apply IH|].
  case_bool_decide as Hlen; [by apply IH|].
  destruct (inputs_match _ _ && _) eqn:Hm; [|by apply IH].
  apply andb_prop in Hm as [Him Hop]. apply bool_decide_eq_true in Hop.
  case_bool_decide as Hbl; [by apply IH|].
  apply IH; [done|]. apply Forall_app. split; [done|].
  apply Forall_singleton. exists c. split; [apply HQ; by left|].
  split; [done|]. split; [done|]. split; [|done].
  apply inputs_match_eq; [|done].
  destruct (decide (length (node_inputs g n) = length (node_inputs g c)));
    [done|]. by destruct Hlen.
Qed.

(** X4.  What [MergeFeature.process_node] does with a node it has not seen: it
    either schedules one group of plans and leaves the node unseen, or
    schedules nothing and records the node as seen.  Every plan of the
    group pairs the outputs of the node with those of a seen node that is
    not the node itself, has an equal operator and the very same inputs,
    and is not blacklisted with it. *)
Theorem process_node_schedules_equal_nodes g n w w' :
  n ∉ nodes_seen (feature w) →
  process_node g n w = (Normal tt, w') →
  (∃ group, group ≠ []
            ∧ scheduled (feature w') = scheduled (feature w) ++ [group]
            ∧ nodes_seen (feature w') = nodes_seen (feature w)
            ∧ Forall (sound_plan g (feature w) n) group)
  ∨ (scheduled (feature w') = scheduled (feature w)
     ∧ nodes_seen (feature w') = {[n]} ∪ nodes_seen (feature w)).
Proof.
  intros Hn. unfold process_node. rewrite bool_decide_eq_false_2 by done.
  destruct (merge_candidates g (feature w) n) as [cands|e] eqn:Hc; [|done].
  pose proof (try_candidate_sound g (feature w) n
                (λ c, c ∈ nodes_seen (feature w)
                      ∨ (node_inputs g n = []
                         ∧ c ∈ noinput_nodes (feature w)))
                cands (names w) []) as Hsound.
  destruct (foldl _ _ cands) as [nm rc]. simpl in Hsound.
  destruct rc as [|pl rc]; intros [= <-]; simpl; [by right|].
  left. exists (pl :: rc). split; [done|]. split; [done|]. split; [done|].
  apply Hsound; [|done].
  intros c Hin. unfold merge_candidates in Hc.
  destruct (node_inputs g n) as [|i0 ins] eqn:Hins.
  - injection Hc as <-. by right.
  - left. destruct (0 <? _); [|done]. injection Hc as <-.
    apply list_elem_of_omap in Hin as ([[|m] i] & _ & Hsome); [done|].
    simpl in Hsome. case_bool_decide; [|done]. by injection Hsome as <-.
Qed.

(** *** The constant indexes *)

Lemma const_index_ok_same (f f' : MergeFeature) :
  seen_constants f' = seen_constants f → const_sig f' = const_sig f →
  const_sig_inv f' = const_sig_inv f →
  const_index_ok f → const_index_ok f'.
Proof. unfold const_index_ok. by intros -> -> ->. Qed.

Lemma process_constant_index c w :
  const_index_ok (feature w) →
  const_index_ok (feature (process_constant c w).2).
Proof.
  intros Hok. unfold process_constant. case_bool_decide as Hseen; [done|].
  destruct (const_sig_inv (feature w) !! merge_signature c) as [oc|] eqn:Hinv;
    simpl; [by eapply const_index_ok_same|].
  destruct Hok as (H1 & H2 & H3).
  assert (const_sig (feature w) !! c = None) as Hc.
  { apply eq_None_not_Some. by rewrite <- H3. }
  split; [|split]; simpl.
  - intros c' sig'. destruct (decide (c' = c)) as [->|Hne].
    + rewrite lookup_insert_eq. intros [= <-]. by rewrite lookup_insert_eq.
    + rewrite lookup_insert_ne by done. intros Hc'.
      destruct (H1 _ _ Hc') as [-> Hi]. split; [done|].
      rewrite lookup_insert_ne; [done|]. intros Heq.
      rewrite <- Heq in Hi. by rewrite Hinv in Hi.
  - intros sig' c'. destruct (decide (sig' = merge_signature c)) as [->|Hne].
    + rewrite lookup_insert_eq. intros [= <-]. by rewrite lookup_insert_eq.
    + rewrite lookup_insert_ne by done. intros Hi.
      specialize (H2 _ _ Hi). rewrite lookup_insert_ne; [done|].
      intros ->. by rewrite Hc in H2.
  - intros c'. rewrite elem_of_union, elem_of_singleton, H3.
    destruct (decide (c' = c)) as [->|Hne].
    + rewrite lookup_insert_eq. split; [eauto|by left].
    + rewrite lookup_insert_ne by done. split; [by intros [|]|by right].
Qed.

Lemma process_node_index g n w :
  const_index_ok (feature w) →
  const_index_ok (feature (process_node g n w).2).
Proof.
  unfold process_node. case_bool_decide; [done|].
  destruct (merge_candidates g (feature w) n) as [cands|e]; [|done].
  destruct (foldl _ _ cands) as [nm [|p rc]]; simpl;
    by apply const_index_ok_same.
Qed.

Lemma mfor_index {A} (body : A → M feat_world unit) (l : list A) :
  (∀ x w, const_index_ok (feature w) →
          const_index_ok (feature (body x w).2)) →
  ∀ w, const_index_ok (feature w) →
       const_index_ok (feature (mfor l body w).2).
Proof.
  intros Hbody. induction l as [|x l IH]; intros w Hok; simpl; [done|].
  unfold mbind, M_bind. specialize (Hbody x w Hok).
  destruct (body x w) as [[[]|e] w1]; simpl in *; [|done]. by apply IH.
Qed.

Lemma on_import_index g n w :
  const_index_ok (feature w) →
  const_index_ok (feature (on_import g n w).2).
Proof.
  intros Hok. unfold on_import, mbind, M_bind.
  pose proof (mfor_index
    (λ c, if is_Constant c then process_constant c else mret tt)
    (node_inputs g n)) as Hfor.
  specialize (Hfor (λ x w1 Hw1,
    match is_Constant x as b
      return const_index_ok
               (feature ((if b then process_constant x else mret tt) w1).2)
    with
    | true => process_constant_index x w1 Hw1
    | false => Hw1
    end) w Hok).
  destruct (mfor _ _ w) as [[[]|e] w1]; simpl in *; [|done].
  by apply process_node_index.
Qed.

Lemma on_prune_index g n w :
  const_index_ok (feature w) →
  const_index_ok (feature (on_prune g n w).2).
Proof.
  intros Hok. unfold on_prune. simpl.
  match goal with
  | |- const_index_ok (foldl ?step ?f1 ?xs) =>
      assert (const_index_ok f1) as Hf1
        by (by eapply const_index_ok_same);
      revert Hf1; generalize f1; induction xs as [|c cs IH];
      intros f Hf; simpl; [done|]; apply IH
  end.
  destruct (is_Constant c && _); [|done].
  destruct Hf as (H1 & H2 & H3). split; [|split]; simpl.
  - intros c' sig'. rewrite lookup_delete_Some. intros [Hne Hc'].
    destruct (H1 _ _ Hc') as [-> Hi]. split; [done|].
    destruct (const_sig f !! c) as [sig|] eqn:Hc; [|done].
    rewrite lookup_delete_ne; [done|]. intros Heq.
    destruct (H1 _ _ Hc) as [_ Hi']. rewrite Heq, Hi in Hi'.
    by injection Hi'.
  - intros sig' c' Hi. rewrite lookup_delete_Some.
    destruct (const_sig f !! c) as [sig|] eqn:Hc.
    + apply lookup_delete_Some in Hi as [Hne Hi]. specialize (H2 _ _ Hi).
      split; [|done]. intros <-. rewrite Hc in H2. by injection H2.
    + specialize (H2 _ _ Hi). split; [|done]. intros <-.
      by rewrite Hc in H2.
  - intros c'. rewrite elem_of_difference, elem_of_singleton, H3.
    destruct (decide (c' = c)) as [->|Hne].
    + rewrite lookup_delete_eq. split; [by intros [_ []]|by intros []].
    + rewrite lookup_delete_ne by done. split; [by intros []|done].
Qed.

Lemma on_change_input_index g c i r new_r w :
  const_index_ok (feature w) →
  const_index_ok (feature (on_change_input g c i r new_r w).2).
Proof.
  intros Hok. unfold on_change_input, mbind, M_bind.
  assert (∀ (b : bool) w1, const_index_ok (feature w1) →
            const_index_ok
              (feature ((if b then process_constant new_r else mret tt)
                          w1).2)) as Hlast.
  { intros [] w1 Hw1; [by apply process_constant_index|done]. }
  destruct c as [|n]; simpl; [by apply Hlast|].
  assert (Hfirst : const_index_ok (feature
            ((if bool_decide (n ∈ nodes_seen (feature w)) then
                process_node g n
                  {| names := names w;
                     feature :=
                       set_nodes_seen (feature w)
                         (nodes_seen (feature w) ∖ {[n]})
                         (noinput_nodes (feature w)) |}
              else (Normal tt, w)).2))).
  { case_bool_decide; [|done]. apply process_node_index. simpl.
    by eapply const_index_ok_same. }
  destruct (if bool_decide (n ∈ nodes_seen (feature w)) then _ else _)
    as [[[]|e] w1]; simpl in *; [|done].
  destruct (node_inputs g n); simpl; [done|]. by apply Hlast.
Qed.

Lemma handle_index g ev w :
  const_index_ok (feature w) → const_index_ok (feature (handle g ev w).2).
Proof.
  destruct ev; simpl;
    [apply on_import_index|apply on_prune_index
    |apply on_change_input_index].
Qed.

Lemma fire_index tr g_end w :
  const_index_ok (feature w) →
  const_index_ok (feature (fire tr g_end w).2.2).
Proof.
  revert w. induction tr as [|[g ev] tr IH]; intros w Hok; simpl; [done|].
  pose proof (handle_index g ev w Hok) as Hh.
  destruct (handle g ev w) as [[[]|e] w1]; simpl in *; [|done].
  by apply IH.
Qed.

(** X5.  The feature keeps its two constant indexes inverse of each other:
    whatever callback the graph fires, and however the callback ends,
    [const_sig] maps a recorded constant to its own signature,
    [const_sig_inv] maps that signature back to it, and [seen_constants]
    holds the recorded constants.  So no two recorded constants have the
    same signature. *)
Theorem constant_indexes_agree :
  const_index_ok empty_feature
  ∧ (∀ g ev w,
       const_index_ok (feature w) →
       const_index_ok (feature (handle g ev w).2))
  ∧ (∀ tr g_end w,
       const_index_ok (feature w) →
       const_index_ok (feature (fire tr g_end w).2.2))
  ∧ (∀ f c1 c2 sig,
       const_index_ok f →
       const_sig f !! c1 = Some sig → const_sig f !! c2 = Some sig →
       c1 = c2).
Proof.
  split; [|split; [|split]].
  - split; [|split]; simpl.
    + intros c sig. by rewrite lookup_empty.
    + intros sig c. by rewrite lookup_empty.
    + intros c. rewrite lookup_empty. split; [set_solver|by intros []].
  - apply handle_index.
  - apply fire_index.
  - intros f c1 c2 sig (H1 & _ & _) Hc1 Hc2.
    destruct (H1 _ _ Hc1) as [_ Hi1]. destruct (H1 _ _ Hc2) as [_ Hi2].
    rewrite Hi1 in Hi2. by injection Hi2.
Qed.
End MergeMoreFacts.

(** ** Constant merges *)

Section GraphConstantFacts.
Context {objs : Objects}.
Import GraphInv.

Implicit Types (g : FG.fgraph) (cl : client).

(** *** The replacement of a constant in the function graph *)

Lemma remove_client_nil fuel g evs : FG.remove_client fuel [] g evs = (g, evs).
Proof. by destruct fuel. Qed.

Lemma input_at_set_input_eq g cl v r :
  input_at g cl = Some r → input_at (FG.set_input g cl.1 cl.2 v) cl = Some v.
Proof.
  destruct cl as [[|n] i]; unfold input_at, FG.get_inputs; simpl; intros Hr.
  - apply list_lookup_insert_eq. by eapply lookup_lt_Some.
  - rewrite lookup_insert_eq. simpl. apply list_lookup_insert_eq.
    by eapply lookup_lt_Some.
Qed.

Lemma input_at_set_input_ne g cl cl' v :
  cl' ≠ cl → input_at (FG.set_input g cl.1 cl.2 v) cl' = input_at g cl'.
Proof.
  destruct cl as [[|n] i], cl' as [[|n'] i']; unfold input_at, FG.get_inputs;
    simpl; intros Hne; try done.
  - apply list_lookup_insert_ne. congruence.
  - destruct (decide (n = n')) as [<-|Hn].
    + rewrite lookup_insert_eq. simpl. apply list_lookup_insert_ne. congruence.
    + by rewrite lookup_insert_ne.
Qed.

(** [change_input] at a client of a constant: the incumbent is in the
    graph, so nothing is imported; the client leaves the client list of the
    constant, which leaves the graph with its last client; one callback is
    fired. *)
Lemma change_input_constant g cl c incumbent rest :
  c ≠ incumbent → owner c = None → incumbent ∈ FG.variables g →
  input_at g cl = Some c → FG.get_clients g c = cl :: rest →
  ∃ g4,
    FG.change_input g cl.1 cl.2 incumbent
    = (g4, [(g4, OnChangeInput cl.1 cl.2 c incumbent)])
    ∧ FG.get_clients g4 c = rest
    ∧ FG.variables g4
      = match rest with
        | [] => filter (λ x, x ≠ c) (FG.variables g)
        | _ => FG.variables g
        end
    ∧ input_at g4 cl = Some incumbent
    ∧ ∀ cl', cl' ≠ cl → input_at g4 cl' = input_at g cl'.
Proof.
  intros Hne Ho Hinc Hat Hcl.
  pose proof (input_at_set_input_eq g cl incumbent c Hat) as Heq.
  pose proof (λ cl', input_at_set_input_ne g cl cl' incumbent) as Hother.
  unfold FG.change_input.
  assert (match cl.1 with
          | COutput => FG.outputs g !! cl.2
          | CNode n => FG.get_inputs g n !! cl.2
          end = Some c) as -> by exact Hat.
  rewrite bool_decide_eq_false_2 by done.
  set (g1 := FG.set_input g cl.1 cl.2 incumbent) in *.
  assert (FG.variables g1 = FG.variables g) as Hv1.
  { unfold g1. by destruct (cl.1). }
  assert (FG.clients g1 = FG.clients g) as Hc1.
  { unfold g1. by destruct (cl.1). }
  assert (FG.import_var g1 incumbent
          = (FG.set_residents g1 (FG.apply_nodes g1) (FG.variables g1), []))
    as ->.
  { unfold FG.import_var, FG.size_bound. simpl.
    rewrite bool_decide_eq_true_2 by (by rewrite Hv1). simpl.
    unfold FG.add_var. by rewrite bool_decide_eq_true_2 by (by rewrite Hv1). }
  set (g2 := FG.set_residents g1 (FG.apply_nodes g1) (FG.variables g1)).
  set (g3 := FG.set_clients g2 incumbent
               (FG.get_clients g2 incumbent ++ [(cl.1, cl.2)])).
  assert (FG.get_clients g3 c = cl :: rest) as Hc3.
  { unfold FG.get_clients, g3. simpl. rewrite lookup_insert_ne by done.
    rewrite Hc1. exact Hcl. }
  unfold FG.size_bound. cbn [FG.remove_client pop_last].
  rewrite Hc3. destruct cl as [co i]. simpl FG.remove_first.
  rewrite decide_True by done. simpl in *.
  destruct rest as [|cl2 rest].
  - rewrite Ho, remove_client_nil. eexists. split; [done|].
    split; [unfold FG.get_clients; simpl; by rewrite lookup_insert_eq|].
    split; [simpl; by rewrite Hv1|]. split; [exact Heq|exact Hother].
  - rewrite remove_client_nil. eexists. split; [done|].
    split; [unfold FG.get_clients; simpl; by rewrite lookup_insert_eq|].
    split; [simpl; by rewrite Hv1|]. split; [exact Heq|exact Hother].
Qed.

Lemma replace_constant_fold c incumbent :
  c ≠ incumbent → owner c = None →
  ∀ cls g evs,
    incumbent ∈ FG.variables g → FG.get_clients g c = cls → NoDup cls →
    Forall (λ cl, input_at g cl = Some c) cls →
    let res :=
      foldl (λ (ge : FG.fgraph * list (FG.fgraph * event)) (cl : client),
               let '(g', evs') := FG.change_input ge.1 cl.1 cl.2 incumbent in
               (g', ge.2 ++ evs'))
            (g, evs) cls in
    incumbent ∈ FG.variables res.1
    ∧ (cls ≠ [] → c ∉ FG.variables res.1)
    ∧ (∀ cl, cl ∈ cls → input_at res.1 cl = Some incumbent)
    ∧ (∀ cl, cl ∉ cls → input_at res.1 cl = input_at g cl)
    ∧ res.2.*2
      = evs.*2 ++ map (λ cl, OnChangeInput cl.1 cl.2 c incumbent) cls.
Proof.
  intros Hne Ho. induction cls as [|cl rest IH]; intros g evs Hinc Hcl Hnd Hat.
  { simpl. split; [done|]. split; [done|]. split; [by inversion 1|].
    split; [done|]. by rewrite app_nil_r. }
  apply NoDup_cons in Hnd as [Hnotin Hnd].
  apply Forall_cons in Hat as [Hat Hrest].
  destruct (change_input_constant g cl c incumbent rest Hne Ho Hinc Hat Hcl)
    as (g4 & Hch & Hcl4 & Hv4 & Hat4 & Hother).
  cbn [foldl]. simpl fst. simpl snd. rewrite Hch.
  assert (incumbent ∈ FG.variables g4) as Hinc4.
  { rewrite Hv4. destruct rest; [|done].
    apply list_elem_of_filter. split; [by intros ->|done]. }
  assert (Forall (λ cl', input_at g4 cl' = Some c) rest) as Hrest4.
  { apply Forall_forall. intros cl' Hin'. rewrite Hother.
    - by apply (proj1 (Forall_forall _ _) Hrest).
    - by intros ->. }
  destruct (IH g4 (evs ++ [(g4, OnChangeInput cl.1 cl.2 c incumbent)])
              Hinc4 Hcl4 Hnd Hrest4) as (Hi & Hc & Hin & Hout & Hev).
  split; [exact Hi|]. split; [|split; [|split]].
  - intros _. destruct rest as [|cl2 rest]; [|by apply Hc].
    simpl. rewrite Hv4. intros Hx. apply list_elem_of_filter in Hx as [Hx _].
    by apply Hx.
  - intros cl' [->|Hin']%elem_of_cons; [|by apply Hin].
    by rewrite Hout.
  - intros cl' Hnot. apply not_elem_of_cons in Hnot as [Hne' Hnot'].
    rewrite Hout by done. by apply Hother.
  - rewrite Hev, fmap_app. simpl. by rewrite <- app_assoc.
Qed.

(** The replacement of a constant of the graph by another variable of the
    graph: one callback per client of the constant, in the order of the
    client list; the constant leaves the graph, the other variable stays,
    and what read the constant reads the other variable. *)
Lemma replace_constant validate g c incumbent :
  c ≠ incumbent → owner c = None → var_type c = var_type incumbent →
  c ∈ FG.variables g → incumbent ∈ FG.variables g →
  FG.get_clients g c ≠ [] → clients_read g c →
  ∃ tr g',
    replace_all (FunctionGraph := FG.fg_instance validate) g [(c, incumbent)]
    = (tr, g', None)
    ∧ tr.*2 = map (λ cl, OnChangeInput cl.1 cl.2 c incumbent)
                (FG.get_clients g c)
    ∧ (c ∉ FG.variables g') ∧ incumbent ∈ FG.variables g'
    ∧ (∀ cl, cl ∈ FG.get_clients g c → input_at g' cl = Some incumbent)
    ∧ (∀ cl, cl ∉ FG.get_clients g c → input_at g' cl = input_at g cl).
Proof.
  intros Hne Ho Hty Hc Hinc Hcl [Hnd Hat].
  destruct (replace_constant_fold c incumbent Hne Ho (FG.get_clients g c)
              g [] Hinc eq_refl Hnd Hat) as (Hi & Hcv & Hin & Hout & Hev).
  simpl. unfold FG.fg_replace_all. simpl. unfold FG.type_ok at 1. simpl.
  rewrite bool_decide_eq_true_2 by done. simpl.
  rewrite bool_decide_eq_true_2 by done.
  destruct (foldl _ _ (FG.get_clients g c)) as [g' tr]. simpl in *.
  exists tr, g'. split; [done|]. split; [done|]. split; [by apply Hcv|].
  split; [done|]. split; [exact Hin|exact Hout].
Qed.

End GraphConstantFacts.

Section MergeConstantFacts.
Context {objs : Objects} {G : Type} {graphs : FunctionGraph G}.
Import Merge MergeInv.

Implicit Types (w : feat_world) (s : apply_state G) (g : G).

(** *** A replacement that makes no twin *)

Lemma has_twin_false g f n :
  has_twin g f n = false →
  ∀ m, m ∈ nodes_seen f → m ≠ n → node_op n = node_op m →
       node_inputs g n ≠ node_inputs g m.
Proof.
  intros Hf m Hm Hne Hop Hin.
  assert (has_twin g f n = true) as Ht; [|congruence].
  apply existsb_exists. exists m.
  split; [by apply list_elem_of_In, elem_of_elements|].
  unfold is_twin. by rewrite !andb_true_iff, !bool_decide_eq_true.
Qed.

Lemma inputs_match_refl (xs : list var) : inputs_match xs xs = true.
Proof.
  unfold inputs_match. induction xs as [|x xs IH]; [done|]. simpl.
  by rewrite bool_decide_eq_true_2.
Qed.

Lemma foldl_try_candidate_none g f n cands st :
  (∀ m, m ∈ cands → m ≠ n → node_op n = node_op m →
        node_inputs g n ≠ node_inputs g m) →
  foldl (try_candidate g f n) st cands = st.
Proof.
  revert st. induction cands as [|m cands IH]; intros st Hno; [done|].
  simpl.
  assert (try_candidate g f n st m = st) as ->.
  { unfold try_candidate. destruct st as [nm rc].
    case_bool_decide as Hmn; [done|].
    case_bool_decide as Hlen; [done|].
    destruct (inputs_match _ _ && _) eqn:Hm; [|done].
    apply andb_prop in Hm as [Him Hop]. apply bool_decide_eq_true in Hop.
    destruct (Hno m); [by left|done|done|].
    apply inputs_match_eq; [|done].
    destruct (decide (length (node_inputs g n) = length (node_inputs g m)));
      [done|]. by destruct Hlen. }
  apply IH. intros m' Hm'. apply Hno. by right.
Qed.

Lemma last_elem_of {A} (l : list A) (d : A) : List.last l d ∈ d :: l.
Proof.
  assert (∀ l : list A, l ≠ [] → List.last l d ∈ l) as Hne.
  { clear l. induction l as [|x l IH]; [done|]. intros _.
    destruct l as [|y l]; [by left|]. right. by apply IH. }
  destruct l as [|x l]; [by left|]. right. by apply Hne.
Qed.

(** The candidates of a node with inputs: seen nodes, among them every
    seen node that is a client of each input. *)
Lemma merge_candidates_seen g f n :
  (0 <? length (node_inputs g n)) = true →
  forallb (λ v, 0 <? length (fg_clients g v)) (node_inputs g n) = true →
  ∃ cands, merge_candidates g f n = Normal cands
           ∧ (∀ m, m ∈ cands → m ∈ nodes_seen f)
           ∧ ∀ m, m ∈ nodes_seen f →
                  (∀ v, v ∈ node_inputs g n →
                        ∃ j, (CNode m, j) ∈ fg_clients g v) →
                  m ∈ cands.
Proof.
  intros Hne Hcl. unfold merge_candidates.
  destruct (node_inputs g n) as [|i0 ins] eqn:Hins; [done|].
  assert (∃ v, v ∈ i0 :: ins
               ∧ (if length (fg_clients g i0)
                     <? length (fg_clients g (List.last (i0 :: ins) i0))
                  then fg_clients g i0
                  else fg_clients g (List.last (i0 :: ins) i0))
                 = fg_clients g v) as (v & Hv & ->).
  { destruct (length (fg_clients g i0) <? _).
    - exists i0. split; [by left|done].
    - exists (List.last (i0 :: ins) i0). split; [|done].
      pose proof (last_elem_of (i0 :: ins) i0) as Hl.
      apply elem_of_cons in Hl as [->|Hl]; [by left|done]. }
  rewrite forallb_forall in Hcl.
  rewrite (Hcl v) by (by apply list_elem_of_In).
  eexists. split; [done|]. split.
  - intros m Hin.
    apply list_elem_of_omap in Hin as ([[|m'] i] & _ & Hsome); [done|].
    simpl in Hsome. case_bool_decide; [|done]. by injection Hsome as <-.
  - intros m Hm Hall. destruct (Hall v Hv) as [j Hj].
    apply list_elem_of_omap. exists (CNode m, j). split; [done|]. simpl.
    by rewrite bool_decide_eq_true_2.
Qed.

(** A node without twin is recorded as seen, and nothing is scheduled. *)
Lemma process_node_no_twin g n w :
  n ∉ nodes_seen (feature w) →
  (0 <? length (node_inputs g n)) = true →
  forallb (λ v, 0 <? length (fg_clients g v)) (node_inputs g n) = true →
  (∀ m, m ∈ nodes_seen (feature w) → m ≠ n → node_op n = node_op m →
        node_inputs g n ≠ node_inputs g m) →
  process_node g n w
  = (Normal tt,
     {| names := names w;
        feature :=
          set_nodes_seen (feature w) ({[n]} ∪ nodes_seen (feature w))
            (noinput_nodes (feature w)) |}).
Proof.
  intros Hn Hne Hcl Hno. unfold process_node.
  rewrite bool_decide_eq_false_2 by done.
  destruct (merge_candidates_seen g (feature w) n Hne Hcl)
    as (cands & -> & Hseen & _).
  rewrite foldl_try_candidate_none.
  - destruct (node_inputs g n); [done|done].
  - intros m Hm. apply Hno. by apply Hseen.
Qed.

(** On a quiet callback the feature ends as it started. *)
Lemma on_change_input_quiet g c i r new_r w incumbent :
  quiet_change (feature w) incumbent (g, OnChangeInput c i r new_r) = true →
  incumbent ∈ seen_constants (feature w) →
  on_change_input g c i r new_r w = (Normal tt, w).
Proof.
  unfold quiet_change. simpl. intros [Hnew Hc]%andb_prop Hseen.
  apply bool_decide_eq_true in Hnew. subst new_r.
  assert ((if is_Constant incumbent then process_constant incumbent
           else mret tt) w = (Normal tt, w)) as Hconst.
  { destruct (is_Constant incumbent); [|done].
    unfold process_constant. by rewrite bool_decide_eq_true_2. }
  unfold on_change_input, mbind, M_bind.
  destruct c as [|n]; [done|].
  unfold inputs_have_clients in Hc.
  apply andb_prop in Hc as [[Hne Hcl]%andb_prop Htw].
  apply negb_true_iff in Htw.
  assert (match node_inputs g n with
          | [] => mraise AssertionError
          | _ :: _ => mret tt
          end w = (Normal tt, w)) as Hassert.
  { destruct (node_inputs g n); [done|done]. }
  case_bool_decide as Hin; [|by rewrite Hassert].
  rewrite process_node_no_twin; simpl; try done.
  - assert ({|
        names := names w;
        feature :=
          set_nodes_seen
            (set_nodes_seen (feature w) (nodes_seen (feature w) ∖ {[n]})
               (noinput_nodes (feature w)))
            ({[n]} ∪ nodes_seen (feature w) ∖ {[n]})
            (noinput_nodes (feature w))
      |} = w) as ->; [|by rewrite Hassert].
    rewrite <- union_difference_singleton_L by done.
    by destruct w as [nm []].
  - intros Hx. apply elem_of_difference in Hx as [_ Hx].
    by apply Hx, elem_of_singleton.
  - intros m Hm. apply elem_of_difference in Hm as [Hm _].
    by apply (has_twin_false _ _ _ Htw).
Qed.

Lemma fire_quiet tr g_end w incumbent :
  forallb (quiet_change (feature w) incumbent) tr = true →
  incumbent ∈ seen_constants (feature w) →
  fire tr g_end w = (Normal tt, (g_end, w)).
Proof.
  intros Hq Hseen. induction tr as [|[g ev] tr IH]; [done|].
  simpl in Hq. apply andb_prop in Hq as [Hev Hq]. simpl.
  assert (handle g ev w = (Normal tt, w)) as ->; [|by apply IH].
  destruct ev as [| |c i r new_r]; try done.
  by apply (on_change_input_quiet _ _ _ _ _ _ incumbent).
Qed.

(** *** A client that becomes the twin of a seen node *)

Lemma foldl_try_candidate_mono g f n cands pl : ∀ nm rc,
  pl ∈ rc → pl ∈ (foldl (try_candidate g f n) (nm, rc) cands).2.
Proof.
  induction cands as [|c cands IH]; intros nm rc Hin; simpl; [done|].
  case_bool_decide; [by apply IH|].
  case_bool_decide; [by apply IH|].
  destruct (inputs_match _ _ && _); [|by apply IH].
  case_bool_decide; [by apply IH|].
  apply IH, elem_of_app. by left.
Qed.

Lemma foldl_try_candidate_twin g f n m cands : ∀ nm rc,
  m ∈ cands → m ≠ n → node_op n = node_op m →
  node_inputs g n = node_inputs g m →
  (Some n, Some m) ∉ blacklist f →
  zip_with (λ o co, (o, co, ModeMerge)) (node_outputs n) (node_outputs m)
  ∈ (foldl (try_candidate g f n) (nm, rc) cands).2.
Proof.
  intros nm rc Hin Hne Hop Hins Hbl. revert nm rc.
  induction cands as [|c cands IH]; intros nm rc; [by inversion Hin|].
  destruct (decide (m = c)) as [<-|Hmc].
  2:{ apply elem_of_cons in Hin as [?|Hin]; [done|]. cbn [foldl].
      destruct (try_candidate g f n (nm, rc) c) as [nm' rc']. by apply IH. }
  simpl. rewrite bool_decide_eq_false_2 by done.
  rewrite bool_decide_eq_false_2 by (by rewrite Hins; intros Hx; apply Hx).
  rewrite Hins, inputs_match_refl, bool_decide_eq_true_2 by done. simpl.
  rewrite bool_decide_eq_false_2 by done.
  apply foldl_try_candidate_mono, elem_of_app. right. by left.
Qed.

(** A node with a twin is left unseen, and one group is scheduled, which
    holds the plan for the twin. *)
Lemma process_node_twin g n m w :
  n ∉ nodes_seen (feature w) → m ∈ nodes_seen (feature w) →
  (0 <? length (node_inputs g n)) = true →
  forallb (λ v, 0 <? length (fg_clients g v)) (node_inputs g n) = true →
  (∀ v, v ∈ node_inputs g n → ∃ j, (CNode m, j) ∈ fg_clients g v) →
  m ≠ n → node_op n = node_op m → node_inputs g n = node_inputs g m →
  (Some n, Some m) ∉ blacklist (feature w) →
  ∃ group nm,
    zip_with (λ o co, (o, co, ModeMerge)) (node_outputs n) (node_outputs m)
    ∈ group
    ∧ Forall (sound_plan g (feature w) n) group
    ∧ process_node g n w
      = (Normal tt,
         {| names := nm;
            feature :=
              set_scheduled (feature w) (scheduled (feature w) ++ [group])
         |}).
Proof.
  intros Hn Hm Hne Hcl Hall Hmn Hop Hins Hbl. unfold process_node.
  rewrite bool_decide_eq_false_2 by done.
  destruct (merge_candidates_seen g (feature w) n Hne Hcl)
    as (cands & -> & Hseen & Hcand).
  pose proof (foldl_try_candidate_twin g (feature w) n m cands (names w) []
                (Hcand m Hm Hall) Hmn Hop Hins Hbl) as Hpl.
  pose proof (try_candidate_sound g (feature w) n
                (λ c, c ∈ nodes_seen (feature w)
                      ∨ (node_inputs g n = []
                         ∧ c ∈ noinput_nodes (feature w)))
                cands (names w) []) as Hsound.
  destruct (foldl _ _ cands) as [nm rc]. simpl in Hpl, Hsound.
  destruct rc as [|pl rc]; [by inversion Hpl|].
  exists (pl :: rc), nm. split; [done|]. split; [|done].
  apply Hsound; [|done]. intros c Hc. left. by apply Hseen.
Qed.

(** *** The pass over a scheduled constant merge *)

(** The first turn of the loop on a single scheduled constant merge, when
    the replacement and the callbacks on it return. *)
Lemma constant_turn g w c incumbent tr g' w' :
  scheduled (feature w) = [[[(c, incumbent, ModeMerge)]]] →
  fg_variables g c = true → fg_variables g incumbent = true →
  owner c = None → is_Constant c = true →
  var_type c = var_type incumbent →
  replace_all g [(c, incumbent)] = (tr, g', None) →
  fire tr g' {| names := names w; feature := set_scheduled (feature w) [] |}
  = (Normal tt, (g', w')) →
  loop_turn (start_state g w)
  = Some (Normal tt,
          {| graph := g'; fw := w'; nb_fail := 0; nb_merged := 1;
             nb_constant := 1 |}).
Proof.
  intros Hs Hc Hi Ho Hconst Hty Hrep Hfire.
  unfold loop_turn. simpl. rewrite Hs. simpl.
  unfold mbind, M_bind, try_plan, prepare_plan. simpl.
  rewrite Hc, Hi, Ho. simpl.
  rewrite bool_decide_eq_false_2 by (by intros Hx; apply Hx). simpl.
  unfold do_replace. simpl. rewrite Hconst. simpl. by rewrite Hrep, Hfire.
Qed.

(** The pass over a single scheduled constant merge whose callbacks are
    quiet. *)
Lemma constant_merge_quiet fuel g w c incumbent tr g' :
  scheduled (feature w) = [[[(c, incumbent, ModeMerge)]]] →
  fg_variables g c = true → fg_variables g incumbent = true →
  owner c = None → is_Constant c = true →
  var_type c = var_type incumbent →
  incumbent ∈ seen_constants (feature w) →
  replace_all g [(c, incumbent)] = (tr, g', None) →
  forallb (quiet_change (feature w) incumbent) tr = true →
  apply (S fuel) g w
  = Some (Normal {| p_nb_fail := 0; p_nb_merged := 1; p_nb_constant := 1 |},
          (g', {| names := names w;
                  feature :=
                    set_blacklist (set_scheduled (feature w) []) [] |})).
Proof.
  intros Hs Hc Hi Ho Hconst Hty Hseen Hrep Hq.
  pose proof (constant_turn g w c incumbent tr g'
                {| names := names w;
                   feature := set_scheduled (feature w) [] |}
                Hs Hc Hi Ho Hconst Hty Hrep) as Hturn.
  unfold apply. fold (start_state g w). cbn [apply_loop].
  rewrite Hturn by (by apply (fire_quiet _ _ _ incumbent)).
  by destruct fuel.
Qed.

Lemma reads_inputs_of_clients g m n :
  reads_inputs_of g m n = true →
  ∀ v, v ∈ node_inputs g n → ∃ j, (CNode m, j) ∈ fg_clients g v.
Proof.
  unfold reads_inputs_of. rewrite forallb_forall. intros Hall v Hv.
  apply list_elem_of_In, Hall, existsb_exists in Hv as ([co j] & Hin & Hco).
  apply bool_decide_eq_true in Hco. simpl in Hco. subst co.
  exists j. by apply list_elem_of_In.
Qed.

(** The first turn of the loop on a single scheduled constant merge whose
    one callback rebinds an input of the seen node [n], which becomes a
    twin of the seen node [m]: the turn leaves [n] unseen and one group
    scheduled, which holds the plan that pairs the outputs of [n] with
    those of [m]. *)
Lemma constant_merge_twin fuel g w c incumbent g1 n i r g' m :
  scheduled (feature w) = [[[(c, incumbent, ModeMerge)]]] →
  fg_variables g c = true → fg_variables g incumbent = true →
  owner c = None → is_Constant c = true →
  var_type c = var_type incumbent →
  incumbent ∈ seen_constants (feature w) →
  replace_all g [(c, incumbent)]
  = ([(g1, OnChangeInput (CNode n) i r incumbent)], g', None) →
  n ∈ nodes_seen (feature w) → m ∈ nodes_seen (feature w) →
  inputs_have_clients g1 n = true → reads_inputs_of g1 m n = true →
  is_twin g1 n m = true →
  (Some n, Some m) ∉ blacklist (feature w) →
  ∃ group nm,
    zip_with (λ o co, (o, co, ModeMerge)) (node_outputs n) (node_outputs m)
    ∈ group
    ∧ Forall (sound_plan g1
                (set_nodes_seen (feature w) (nodes_seen (feature w) ∖ {[n]})
                   (noinput_nodes (feature w))) n) group
    ∧ apply_loop (S fuel) (start_state g w)
      = apply_loop fuel
          {| graph := g';
             fw := {| names := nm;
                      feature :=
                        set_nodes_seen (set_scheduled (feature w) [group])
                          (nodes_seen (feature w) ∖ {[n]})
                          (noinput_nodes (feature w)) |};
             nb_fail := 0; nb_merged := 1; nb_constant := 1 |}.
Proof.
  intros Hs Hc Hi Ho Hconst Hty Hseen Hrep Hn Hm Hhave Hreads Htwin Hbl.
  apply andb_prop in Hhave as [Hne Hcl].
  apply andb_prop in Htwin as [[Hmn Hop]%andb_prop Hins].
  apply bool_decide_eq_true in Hmn, Hop, Hins.
  pose proof (reads_inputs_of_clients _ _ _ Hreads) as Hall.
  destruct (process_node_twin g1 n m
              {| names := names w;
                 feature :=
                   set_nodes_seen (set_scheduled (feature w) [])
                     (nodes_seen (feature w) ∖ {[n]})
                     (noinput_nodes (feature w)) |})
    as (group & nm & Hpl & Hsound & Hpn); simpl; try done.
  { intros Hx. apply elem_of_difference in Hx as [_ Hx].
    by apply Hx, elem_of_singleton. }
  { apply elem_of_difference. split; [done|].
    intros Hx. by apply elem_of_singleton in Hx. }
  exists group, nm. split; [done|]. split; [exact Hsound|].
  cbn [apply_loop].
  rewrite (constant_turn g w c incumbent _ g'
             {| names := nm;
                feature :=
                  set_nodes_seen (set_scheduled (feature w) [group])
                    (nodes_seen (feature w) ∖ {[n]})
                    (noinput_nodes (feature w)) |}
             Hs Hc Hi Ho Hconst Hty Hrep); [done|].
  simpl. unfold on_change_input, mbind, M_bind. simpl.
  rewrite bool_decide_eq_true_2 by done. simpl in Hpn. rewrite Hpn.
  destruct (node_inputs g1 n) eqn:Hin1; [done|]. simpl.
  destruct (is_Constant incumbent); [|done].
  unfold process_constant. simpl. by rewrite bool_decide_eq_true_2.
Qed.
End MergeConstantFacts.

Section MergeConstantClaim.
Context {objs : Objects} {G : Type} {graphs : FunctionGraph G}.
Import Merge MergeInv GraphInv.

(** C8, amended.  A constant the merge feature processes: the first
    constant with a given merge signature is recorded as the canonical one;
    a later constant with an equal signature is scheduled to be replaced by
    that incumbent, which is kept, and its name, if set, is copied onto the
    incumbent.  The pass of the merger over one such scheduled constant
    merge, on any function graph: when the replacement fires changes of
    input only and no client they rebind has a twin (a seen node with an
    equal operator and the same inputs), the pass returns [nb_merged = 1],
    [nb_constant = 1] and [nb_fail = 0] and leaves the feature as it was,
    its schedule empty.  When the one client of the constant, a seen node,
    becomes a twin of a seen node, the first turn leaves the client unseen
    and a group scheduled that holds the merge of the two nodes, and the
    pass goes on from [nb_merged = 1].  On the function graph of section 3
    the pass that meets no twin removes the constant from the graph and
    keeps the incumbent, which every client of the constant reads
    afterwards. *)
Theorem constants_canonical_by_signature :
  (∀ c w,
     (process_constant c w).1 = Normal tt
     ∧ let f := feature w in
       let w' := (process_constant c w).2 in
       if bool_decide (c ∈ seen_constants f) then w' = w
       else
         match const_sig_inv f !! merge_signature c with
         | None =>
             const_sig_inv (feature w') !! merge_signature c = Some c
             ∧ const_sig (feature w') !! c = Some (merge_signature c)
             ∧ c ∈ seen_constants (feature w')
             ∧ scheduled (feature w') = scheduled f
             ∧ names w' = names w
         | Some other_c =>
             scheduled (feature w')
             = scheduled f ++ [[[(c, other_c, ModeMerge)]]]
             ∧ const_sig_inv (feature w') = const_sig_inv f
             ∧ seen_constants (feature w') = seen_constants f
             ∧ names w' !! other_c
               = (if name_truthy (names w !! c) then names w !! c
                  else names w !! other_c)
             ∧ ∀ v, v ≠ other_c → names w' !! v = names w !! v
         end)
  ∧ (∀ c1 c2 w,
       c1 ≠ c2 → merge_signature c1 = merge_signature c2 →
       c1 ∉ seen_constants (feature w) → c2 ∉ seen_constants (feature w) →
       const_sig_inv (feature w) !! merge_signature c1 = None →
       let w' := (process_constant c2 (process_constant c1 w).2).2 in
       const_sig_inv (feature w') !! merge_signature c1 = Some c1
       ∧ scheduled (feature w')
         = scheduled (feature w) ++ [[[(c2, c1, ModeMerge)]]])
  ∧ (∀ fuel (g : G) w c incumbent tr g',
       scheduled (feature w) = [[[(c, incumbent, ModeMerge)]]] →
       fg_variables g c = true → fg_variables g incumbent = true →
       owner c = None → is_Constant c = true →
       var_type c = var_type incumbent →
       incumbent ∈ seen_constants (feature w) →
       replace_all g [(c, incumbent)] = (tr, g', None) →
       forallb (quiet_change (feature w) incumbent) tr = true →
       apply (S fuel) g w
       = Some (Normal {| p_nb_fail := 0; p_nb_merged := 1;
                         p_nb_constant := 1 |},
               (g', {| names := names w;
                       feature :=
                         set_blacklist (set_scheduled (feature w) []) []
                    |})))
  ∧ (∀ fuel (g : G) w c incumbent g1 n i r g' m,
       scheduled (feature w) = [[[(c, incumbent, ModeMerge)]]] →
       fg_variables g c = true → fg_variables g incumbent = true →
       owner c = None → is_Constant c = true →
       var_type c = var_type incumbent →
       incumbent ∈ seen_constants (feature w) →
       replace_all g [(c, incumbent)]
       = ([(g1, OnChangeInput (CNode n) i r incumbent)], g', None) →
       n ∈ nodes_seen (feature w) → m ∈ nodes_seen (feature w) →
       inputs_have_clients g1 n = true → reads_inputs_of g1 m n = true →
       is_twin g1 n m = true →
       (Some n, Some m) ∉ blacklist (feature w) →
       ∃ group nm,
         zip_with (λ o co, (o, co, ModeMerge))
           (node_outputs n) (node_outputs m) ∈ group
         ∧ Forall (sound_plan g1
                     (set_nodes_seen (feature w)
                        (nodes_seen (feature w) ∖ {[n]})
                        (noinput_nodes (feature w))) n) group
         ∧ apply_loop (S fuel) (start_state g w)
           = apply_loop fuel
               {| graph := g';
                  fw := {| names := nm;
                           feature :=
                             set_nodes_seen
                               (set_scheduled (feature w) [group])
                               (nodes_seen (feature w) ∖ {[n]})
                               (noinput_nodes (feature w)) |};
                  nb_fail := 0; nb_merged := 1; nb_constant := 1 |})
  ∧ (∀ validate fuel (g : FG.fgraph) w c incumbent,
       scheduled (feature w) = [[[(c, incumbent, ModeMerge)]]] →
       c ≠ incumbent → owner c = None → is_Constant c = true →
       var_type c = var_type incumbent →
       incumbent ∈ seen_constants (feature w) →
       c ∈ FG.variables g → incumbent ∈ FG.variables g →
       FG.get_clients g c ≠ [] → clients_read g c →
       forallb (@quiet_change _ _ (FG.fg_instance validate)
                  (feature w) incumbent)
               (FG.fg_replace_all g [(c, incumbent)]).1.1 = true →
       ∃ g',
         @apply _ _ (FG.fg_instance validate) (S fuel) g w
         = Some (Normal {| p_nb_fail := 0; p_nb_merged := 1;
                           p_nb_constant := 1 |},
                 (g', {| names := names w;
                         feature :=
                           set_blacklist (set_scheduled (feature w) []) []
                      |}))
         ∧ (c ∉ FG.variables g') ∧ incumbent ∈ FG.variables g'
         ∧ (∀ cl, cl ∈ FG.get_clients g c →
                  input_at g' cl = Some incumbent)
         ∧ ∀ cl, cl ∉ FG.get_clients g c → input_at g' cl = input_at g cl).
Proof.
  split; [exact process_constant_cases|].
  split; [exact process_two_constants|].
  split; [exact constant_merge_quiet|].
  split; [exact constant_merge_twin|].
  intros validate fuel g w c incumbent Hs Hne Ho Hconst Hty Hseen Hc Hi Hcl
    Hread Hq.
  destruct (replace_constant validate g c incumbent Hne Ho Hty Hc Hi Hcl
              Hread) as (tr & g' & Hrep & _ & Hgone & Hstays & Hin & Hout).
  exists g'. split; [|done].
  apply (constant_merge_quiet (graphs := FG.fg_instance validate)
           fuel g w c incumbent tr g'); try done.
  - simpl. by apply bool_decide_eq_true_2.
  - simpl. by apply bool_decide_eq_true_2.
  - simpl in Hrep. by rewrite Hrep in Hq.
Qed.
End MergeConstantClaim.

Section ConstantScenarioFacts.
#[local] Existing Instance ConstantScenario.objs.
#[local] Existing Instance ConstantScenario.graphs.
Import Merge MergeInv GraphInv.

(** C8 as stated fails.  The two constants of [add(x, c1)] and
    [add(x, c2)] have the same signature and are in the graph.  The pass replaces [c2] by [c1], which
    makes the second node a twin of the first, and then merges the two
    nodes: one constant remains and nothing fails, but two merges are
    counted. *)
Lemma constants_twin_counterexample :
  (bool_decide (2 ∈ FG.variables TwinScenario.g0),
   bool_decide (3 ∈ FG.variables TwinScenario.g0)) = (true, true)
  ∧ @merge_signature TwinScenario.objs 2 = @merge_signature TwinScenario.objs 3
  ∧ TwinScenario.attached.1 = Normal tt
  ∧ TwinScenario.observe
    = Some (Normal {| p_nb_fail := 0; p_nb_merged := 2; p_nb_constant := 1 |},
            true, false, [0; 2], [0; 2], [4; 4]).
Proof. repeat split; vm_compute; reflexivity. Qed.

(** The theorem on scenario S1: the constant [2] is recorded, the constant
    [3] is scheduled to be replaced by it, and the pass, which meets no
    twin, leaves the constant [2] alone in the graph, read by both nodes.
    On the graph of [add(x, c1)] and [add(x, c2)] the first turn schedules
    the merge of the output [5] into the output [4]. *)
Lemma constants_canonical_witness :
  (let w := {| names := ∅; feature := empty_feature |} in
   let w' := (process_constant 3 (process_constant 2 w).2).2 in
   const_sig_inv (feature w') !! 7 = Some 2
   ∧ scheduled (feature w') = [[[(3, 2, ModeMerge)]]])
  ∧ ConstantScenario.run
    = Some (Normal {| p_nb_fail := 0; p_nb_merged := 1; p_nb_constant := 1 |},
            (ConstantScenario.replaced.1.2,
             {| names := names ConstantScenario.attached.2;
                feature :=
                  set_blacklist
                    (set_scheduled (feature ConstantScenario.attached.2) [])
                    [] |}))
  ∧ (∃ g',
       ConstantScenario.run
       = Some (Normal {| p_nb_fail := 0; p_nb_merged := 1;
                         p_nb_constant := 1 |},
               (g', {| names := names ConstantScenario.attached.2;
                       feature :=
                         set_blacklist
                           (set_scheduled
                              (feature ConstantScenario.attached.2) [])
                           [] |}))
       ∧ (3 ∉ FG.variables g') ∧ 2 ∈ FG.variables g'
       ∧ input_at g' (CNode 1, 1) = Some 2
       ∧ input_at g' (CNode 0, 1) = Some 2)
  ∧ (∃ group nm,
       [(5, 4, ModeMerge)] ∈ group
       ∧ TwinScenario.turns 10 TwinScenario.start
         = TwinScenario.turns 9 (TwinScenario.after_first_turn group nm))
  ∧ ConstantScenario.observe
    = Some (Normal {| p_nb_fail := 0; p_nb_merged := 1; p_nb_constant := 1 |},
            true, false, [0; 2], [1; 2]).
Proof.
  destruct (@constants_canonical_by_signature ConstantScenario.objs
              FG.fgraph ConstantScenario.graphs)
    as (_ & Htwo & Hquiet & _ & Hgraph).
  destruct (@constants_canonical_by_signature TwinScenario.objs
              FG.fgraph TwinScenario.graphs) as (_ & _ & _ & Htwin & _).
  split.
  { apply (Htwo 2 3 {| names := ∅; feature := empty_feature |});
      [by vm_compute|by vm_compute|apply not_elem_of_empty
      |apply not_elem_of_empty|by vm_compute]. }
  split.
  { apply (Hquiet 9 ConstantScenario.g0 ConstantScenario.attached.2 3 2
             ConstantScenario.replaced.1.1 ConstantScenario.replaced.1.2);
      vm_compute; reflexivity. }
  split.
  { destruct (Hgraph (λ _, true) 9 ConstantScenario.g0
                ConstantScenario.attached.2 3 2)
      as (g' & Hrun & Hgone & Hstays & Hin & Hout);
      [vm_compute; reflexivity|lia|vm_compute; reflexivity
      |vm_compute; reflexivity|vm_compute; reflexivity
      |vm_compute; reflexivity
      |apply (bool_decide_unpack _); vm_compute; exact I
      |apply (bool_decide_unpack _); vm_compute; exact I
      |vm_compute; discriminate
      |split; apply (bool_decide_unpack _); vm_compute; exact I
      |vm_compute; reflexivity|].
    exists g'. split; [exact Hrun|]. split; [exact Hgone|].
    split; [exact Hstays|]. split.
    - apply Hin. apply (bool_decide_unpack _); vm_compute; exact I.
    - rewrite Hout; [vm_compute; reflexivity|].
      apply (bool_decide_unpack _); vm_compute; exact I. }
  split; [|vm_compute; reflexivity].
  destruct (Htwin 9 TwinScenario.g0 TwinScenario.attached.2 3 2
              TwinScenario.seen_graph 1 1 3 TwinScenario.replaced.1.2 0)
    as (group & nm & Hpl & _ & Hloop);
    [vm_compute; reflexivity|vm_compute; reflexivity|vm_compute; reflexivity
    |vm_compute; reflexivity|vm_compute; reflexivity|vm_compute; reflexivity
    |vm_compute; reflexivity|vm_compute; reflexivity|vm_compute; reflexivity
    |vm_compute; reflexivity|vm_compute; reflexivity|vm_compute; reflexivity
    |vm_compute; reflexivity
    |apply (bool_decide_unpack _); vm_compute; exact I|].
  exists group, nm. split; [exact Hpl|exact Hloop].
Defined.
End ConstantScenarioFacts.

Section SeqMoreFacts.
Context {W prof : Type}.
Import SeqOptimizer.

Lemma apply_loop_length (self : SeqOptimizer W prof) todo : ∀ acc w profs w',
  apply_loop self todo acc w = (Normal profs, w') →
  length profs ≤ length acc + length todo
  ∧ (failure_callback self = None →
     length profs = length acc + length todo).
Proof.
  induction todo as [|o todo IH]; intros acc w profs w'; simpl.
  - intros [= <- _]. simpl. lia.
  - destruct (optimize o w) as [[p|e] w1].
    + intros Hl. apply IH in Hl as [Hle Heq]. rewrite length_app in *.
      simpl in *. split; [lia|]. intros Hn. specialize (Heq Hn). lia.
    + destruct (is_AssertionError e); [done|].
      destruct (failure_callback self) as [cb|]; [|done].
      destruct (cb e (data self) o w1) as [[[]|e'] w2]; [|done].
      intros Hl. apply IH in Hl as [Hle _]. simpl. split; [lia|done].
Qed.

(** X6.  The profile of [SeqOptimizer.apply] lists one sub-profile for each
    sub-rewriter that returned: never more than there are sub-rewriters, and
    exactly as many when no failure callback is configured. *)
Theorem seq_profiles_aligned (self : SeqOptimizer W prof) w profs w' :
  seq_apply self w = (Normal profs, w') →
  length profs ≤ length (data self)
  ∧ (failure_callback self = None → length profs = length (data self)).
Proof. intros Hl. by apply apply_loop_length in Hl. Qed.

Lemma apply_loop_warn (self : SeqOptimizer W prof) cfg todo : ∀ acc w e w',
  failure_callback self = Some (warn cfg) → cfg ≠ OnErrRaise →
  apply_loop self todo acc w = (Raise e, w') →
  is_AssertionError e = true.
Proof.
  induction todo as [|o todo IH]; intros acc w e w' Hcb Hcfg; simpl; [done|].
  destruct (optimize o w) as [[p|e1] w1]; [by apply IH|].
  destruct (is_AssertionError e1) eqn:Hass; [by intros [= <- _]|].
  rewrite Hcb. unfold warn. destruct cfg; [done|by apply IH..].
Qed.

(** X7.  Under the default callback [SeqOptimizer.warn], and unless
    [config.on_opt_error] is ["raise"], the only exceptions
    [SeqOptimizer.apply] lets through are assertion errors. *)
Theorem seq_warn_only_assertions (self : SeqOptimizer W prof) cfg w e w' :
  failure_callback self = Some (warn cfg) → cfg ≠ OnErrRaise →
  seq_apply self w = (Raise e, w') →
  is_AssertionError e = true.
Proof. apply apply_loop_warn. Qed.
End SeqMoreFacts.

Section NavigatorMoreFacts.
Context {objs : Objects} {G : Type} {graphs : FunctionGraph G}.
Import Navigator NavigatorMore.

Implicit Types (g : G) (n : node) (lopt : LocalOptimizer G).

(** The pairs [process_node] hands to the graph. *)
Lemma repl_pairs_distinct (l : list (var * option var)) :
  ∀ p, p ∈ omap (λ p : var * option var,
                   match p.2 with
                   | Some rnew =>
                       if bool_decide (rnew = p.1) then None
                       else Some (p.1, rnew)
                   | None => None
                   end) l → p.1 ≠ p.2.
Proof.
  intros p ([o [rnew|]] & _ & Hsome)%list_elem_of_omap; simpl in *; [|done].
  case_bool_decide as Hne; [done|]. injection Hsome as <-. simpl. congruence.
Qed.

(** X8.  [NavigatorOptimizer.process_node] returns [True] only when the graph
    accepted a replacement: a list of pairs that is not empty, none of
    which replaces a variable by itself.  Without a failure callback it
    returns [False] only with the graph as it was. *)
Theorem process_node_true_iff_replaced cb g n lopt :
  (∀ g' tr,
     process_node cb g n lopt = (Normal true, g', tr) →
     ∃ pairs remove,
       pairs ≠ [] ∧ (∀ p, p ∈ pairs → p.1 ≠ p.2)
       ∧ replace_all_validate_remove g pairs remove = (tr, g', None))
  ∧ (∀ g' tr,
       process_node None g n lopt = (Normal false, g', tr) →
       g' = g ∧ tr = []).
Proof.
  split.
  - intros g' tr. unfold process_node, on_failure.
    destruct (transform lopt g n) as [[|l|d remove|]|e]; simpl; [done| | |done|].
    1,2: case_bool_decide; [done|]; destruct (existsb _ _); [done|];
      match goal with
      | |- context [omap ?f ?l] =>
          pose proof (repl_pairs_distinct l) as Hd;
          destruct (omap f l) as [|p ps]; [done|]
      end;
      match goal with
      | |- context [replace_all_validate_remove ?g0 ?ps ?rm] =>
          destruct (replace_all_validate_remove g0 ps rm)
            as [[tr1 g1] [e|]] eqn:Hr;
          [destruct cb as [cb|]; [by destruct (cb _ _ _ _)|done]
          |intros [= <- <-]; by exists ps, rm]
      end.
    destruct cb as [cb|]; [|done]. by destruct (cb _ _ _ _).
  - intros g' tr. unfold process_node, on_failure.
    destruct (transform lopt g n) as [[|l|d remove|]|e]; simpl;
      [by intros [= <- <-]| | |done|done].
    all: case_bool_decide; [done|]; destruct (existsb _ _); [done|];
      match goal with
      | |- context [omap ?f ?l] =>
          destruct (omap f l) as [|p ps]; [by intros [= <- <-]|]
      end;
      match goal with
      | |- context [replace_all_validate_remove ?g0 ?ps ?rm] =>
          by destruct (replace_all_validate_remove g0 ps rm)
            as [[tr1 g1] [e|]]
      end.
Qed.

(** X9.  With the callback [warn_ignore], the only exceptions that leave
    [process_node] are the [TypeError] and the [ValueError] it raises
    itself on a malformed answer of the rewriter (neither a list nor a
    dict, a wrong number of replacements, the removal of a variable in
    use); they are raised before the graph is touched. *)
Theorem process_node_warn_ignore g n lopt e g' tr :
  process_node (Some warn_ignore) g n lopt = (Raise e, g', tr) →
  (e = TypeError ∨ e = ValueError) ∧ g' = g ∧ tr = [].
Proof.
  unfold process_node, on_failure, warn_ignore.
  destruct (transform lopt g n) as [[|l|d remove|]|e0]; simpl;
    [done| | |intros [= <- <- <-]; eauto|done].
  all: case_bool_decide; [intros [= <- <- <-]; eauto|];
    destruct (existsb _ _); [intros [= <- <- <-]; eauto|];
    match goal with
    | |- context [omap ?f ?l] => destruct (omap f l) as [|p ps]; [done|]
    end;
    match goal with
    | |- context [replace_all_validate_remove ?g0 ?ps ?rm] =>
        by destruct (replace_all_validate_remove g0 ps rm)
          as [[tr1 g1] [e1|]]
    end.
Qed.

(** X10.  The two other callbacks of the class.  Under [warn_inplace] no
    [InconsistencyError] leaves [process_node], whether the rewriter or
    the graph raised it.  Under [warn] an assertion error of the rewriter
    always does, unless [config.on_opt_error] is ["pdb"]. *)
Theorem process_node_warn_policy cfg g n lopt :
  (∀ e g' tr,
     process_node (Some (warn_inplace cfg)) g n lopt = (Raise e, g', tr) →
     is_InconsistencyError e = false)
  ∧ (∀ e,
       cfg ≠ OnErrPdb → is_AssertionError e = true →
       transform lopt g n = Raise e →
       process_node (Some (warn cfg)) g n lopt = (Raise e, g, [])).
Proof.
  split.
  - intros e g' tr. unfold process_node, on_failure, warn_inplace, warn.
    assert (∀ (e0 : exn) (g1 : G) (tr1 : list (G * event)),
      match (if is_InconsistencyError e0 then None
             else match cfg with
                  | OnErrRaise => Some e0
                  | OnErrPdb => None
                  | _ => if is_AssertionError e0 then Some e0 else None
                  end) with
      | Some e' => (Raise e', g1, tr1)
      | None => (Normal false, g1, tr1)
      end = (Raise e, g', tr) → is_InconsistencyError e = false) as Hcb.
    { intros e0 g1 tr1. destruct (is_InconsistencyError e0) eqn:He0; [done|].
      destruct cfg; try done; try (by intros [= <- _ _]);
        destruct (is_AssertionError e0); try done; by intros [= <- _ _]. }
    destruct (transform lopt g n) as [[|l|d remove|]|e0]; simpl;
      [done| | |by intros [= <- _ _]|apply Hcb].
    all: case_bool_decide; [by intros [= <- _ _]|];
      destruct (existsb _ _); [by intros [= <- _ _]|];
      match goal with
      | |- context [omap ?f ?l] => destruct (omap f l) as [|p ps]; [done|]
      end;
      match goal with
      | |- context [replace_all_validate_remove ?g0 ?ps ?rm] =>
          destruct (replace_all_validate_remove g0 ps rm)
            as [[tr1 g1] [e1|]]; [apply Hcb|done]
      end.
  - intros e Hcfg Hass Ht. unfold process_node, on_failure, warn.
    rewrite Ht, Hass. by destruct cfg.
Qed.

(** X11.  [OpRemove] under [process_node].  A node with another operator is left
    alone.  A node of the operator whose inputs and outputs differ in
    number makes [process_node] raise [ValueError], with or without a
    failure callback.  Otherwise a success means that the graph accepted
    the replacement of the outputs by the inputs, position by position. *)
Theorem OpRemove_process_node cb id op g n :
  (node_op n ≠ op →
   process_node cb g n (OpRemove id op) = (Normal false, g, []))
  ∧ (node_op n = op →
     length (node_inputs g n) ≠ length (node_outputs n) →
     process_node cb g n (OpRemove id op) = (Raise ValueError, g, []))
  ∧ (∀ g' tr,
       process_node cb g n (OpRemove id op) = (Normal true, g', tr) →
       node_op n = op
       ∧ length (node_inputs g n) = length (node_outputs n)
       ∧ replace_all_validate_remove g
           (filter (λ p : var * var, p.1 ≠ p.2)
              (zip (node_outputs n) (node_inputs g n))) []
         = (tr, g', None)).
Proof.
  assert (∀ outs ins : list var,
    omap (λ p : var * option var,
            match p.2 with
            | Some rnew =>
                if bool_decide (rnew = p.1) then None else Some (p.1, rnew)
            | None => None
            end) (zip outs (Some <$> ins))
    = filter (λ p : var * var, p.1 ≠ p.2) (zip outs ins)) as Hpairs.
  { induction outs as [|o outs IH]; intros [|i ins]; simpl; try done.
    rewrite IH. case_bool_decide as Heq.
    - rewrite filter_cons_False; [done|]. simpl. intros Hne. by apply Hne.
    - rewrite filter_cons_True; [done|]. simpl. congruence. }
  unfold process_node, OpRemove. simpl. split; [|split].
  - intros Hop. by rewrite bool_decide_eq_true_2.
  - intros Hop Hlen. rewrite bool_decide_eq_false_2 by (by intros []).
    rewrite bool_decide_eq_true_2; [done|]. rewrite length_fmap. congruence.
  - intros g' tr. case_bool_decide as Hop; [done|].
    case_bool_decide as Hlen; [done|]. rewrite length_fmap in Hlen.
    destruct (existsb _ _); [done|]. rewrite Hpairs.
    destruct (filter _ _) as [|p ps] eqn:Hf; [done|].
    destruct (replace_all_validate_remove g (p :: ps) [])
      as [[tr1 g1] [e|]] eqn:Hr.
    + unfold on_failure. destruct cb as [cb|]; [|done].
      by destruct (cb _ _ _ _).
    + intros [= <- <-]. split; [|split; [|done]].
      * destruct (decide (node_op n = op)); [done|]. by destruct Hop.
      * destruct (decide (length (node_inputs g n)
                          = length (node_outputs n))) as [|Hne]; [done|].
        destruct Hlen. congruence.
Qed.

(** *** The order of a pass *)

Lemma topo_pop_pending (self : TopoOptimizer G) q n q' :
  topo_pop self q = Some (n, q') → pending self q = n :: pending self q'.
Proof.
  unfold topo_pop, pending. destruct (order self).
  - destruct q as [|n0 q0]; [done|]. by intros [= <- <-].
  - intros Hp%pop_last_app. subst q. by rewrite reverse_app.
Qed.

Lemma topo_loop_order (self : TopoOptimizer G) fuel : ∀ s r s',
  ignore_newtrees self = true →
  topo_loop self fuel s = Some (r, s') →
  (∃ l, snd <$> t_processed s' = (snd <$> t_processed s) ++ l
        ∧ l `sublist_of` pending self (t_q s))
  ∧ t_nb s' + length (t_processed s) ≤ t_nb s + length (t_processed s').
Proof.
  induction fuel as [|fuel IH]; intros s r s' Hi; simpl.
  - destruct (topo_pop self (t_q s)) as [[n q']|]; [done|].
    intros [= _ <-]. split; [|lia]. exists []. rewrite app_nil_r.
    split; [done|apply sublist_nil_l].
  - destruct (topo_pop self (t_q s)) as [[n q']|] eqn:Hpop.
    2:{ intros [= _ <-]. split; [|lia]. exists []. rewrite app_nil_r.
        split; [done|apply sublist_nil_l]. }
    apply topo_pop_pending in Hpop. rewrite Hpop.
    destruct (fg_apply_nodes (t_graph s) n); simpl.
    + destruct (process_node (failure_callback self) (t_graph s) n
                  (local_opt self)) as [[r0 g'] tr].
      unfold topo_pushes. rewrite Hi, !app_nil_r.
      destruct r0 as [b|e].
      * intros Hl. apply IH in Hl as [(l & Hl & Hsub) Hnb]; [|done].
        simpl in *. rewrite fmap_app in Hl. simpl in Hl.
        rewrite length_app in Hnb. simpl in Hnb. split.
        -- exists (n :: l). rewrite Hl, <- app_assoc. split; [done|].
           by apply sublist_skip.
        -- destruct b; lia.
      * intros [= _ <-]. simpl. split.
        -- exists [n]. rewrite fmap_app. split; [done|].
           apply sublist_skip, sublist_nil_l.
        -- rewrite length_app. simpl. lia.
    + intros Hl. apply IH in Hl as [(l & Hl & Hsub) Hnb]; [|done].
      simpl in *. split; [|done]. exists l. split; [done|].
      by apply sublist_cons.
Qed.

(** X12.  With [ignore_newtrees=True] a pass of [TopoOptimizer.apply] hands the
    nodes to the rewriter in the order of the topological sort it started
    with, inputs first for ["in_to_out"] and outputs first for
    ["out_to_in"]; the count of successes it reports is at most the number
    of nodes it handed over. *)
Theorem topo_pass_order (self : TopoOptimizer G) fuel g start_from r s :
  ignore_newtrees self = true →
  topo_apply self fuel g start_from = Some (r, s) →
  (snd <$> t_processed s)
  `sublist_of` pending self (io_toposort g start_from)
  ∧ t_nb s ≤ length (t_processed s).
Proof.
  intros Hi Hl. apply topo_loop_order in Hl as [(l & Hl & Hsub) Hnb]; [|done].
  simpl in *. rewrite Hl. split; [done|lia].
Qed.

Lemma elem_of_pending (self : TopoOptimizer G) q n :
  n ∈ pending self q ↔ n ∈ q.
Proof. unfold pending. destruct (order self); [done|apply elem_of_reverse]. Qed.

Lemma topo_loop_noop (self : TopoOptimizer G) fuel : ∀ s,
  (∀ n, n ∈ t_q s → transform (local_opt self) (t_graph s) n = Normal RNone) →
  length (t_q s) ≤ fuel →
  topo_loop self fuel s
  = Some (Normal tt,
          {| t_graph := t_graph s; t_q := []; t_nb := t_nb s;
             t_processed :=
               t_processed s
               ++ ((t_graph s ,.)
                   <$> filter (λ n, fg_apply_nodes (t_graph s) n = true)
                         (pending self (t_q s)));
             t_pushed := t_pushed s;
             t_skipped :=
               t_skipped s
               ++ ((t_graph s ,.)
                   <$> filter (λ n, fg_apply_nodes (t_graph s) n ≠ true)
                         (pending self (t_q s))) |}).
Proof.
  assert (∀ s, t_q s = [] →
    Some (Normal tt, s)
    = Some (Normal tt,
            {| t_graph := t_graph s; t_q := []; t_nb := t_nb s;
               t_processed :=
                 t_processed s
                 ++ ((t_graph s ,.)
                     <$> filter (λ n, fg_apply_nodes (t_graph s) n = true)
                           (pending self (t_q s)));
               t_pushed := t_pushed s;
               t_skipped :=
                 t_skipped s
                 ++ ((t_graph s ,.)
                     <$> filter (λ n, fg_apply_nodes (t_graph s) n ≠ true)
                           (pending self (t_q s))) |})) as Hend.
  { intros [g q nb pr pu sk] Hq. simpl in *. subst q.
    assert (pending self [] = []) as -> by (unfold pending; by destruct (order self)).
    by rewrite !filter_nil, !fmap_nil, !app_nil_r. }
  assert (∀ q, topo_pop self q = None → q = []) as Hnone.
  { intros q. unfold topo_pop. destruct (order self).
    - by destruct q.
    - induction q as [|x q IHq]; [done|]. simpl. destruct q as [|y q]; [done|].
      destruct (pop_last (y :: q)) as [[z r]|]; [done|].
      intros _. by specialize (IHq eq_refl). }
  induction fuel as [|fuel IH]; intros s Ht Hlen; simpl.
  - destruct (topo_pop self (t_q s)) as [[n q']|] eqn:Hpop.
    + apply topo_pop_entry in Hpop as [Hl _]. lia.
    + apply Hend. by apply Hnone.
  - destruct (topo_pop self (t_q s)) as [[n q']|] eqn:Hpop.
    2:{ apply Hend. by apply Hnone. }
    pose proof (topo_pop_pending _ _ _ _ Hpop) as Hpend.
    apply topo_pop_entry in Hpop as [Hl _].
    assert (∀ m, m ∈ q' → m ∈ t_q s) as Hsub.
    { intros m Hm. apply (elem_of_pending self). rewrite Hpend. right.
      by apply elem_of_pending. }
    assert (n ∈ t_q s) as Hn.
    { apply (elem_of_pending self). rewrite Hpend. by left. }
    rewrite Hpend.
    destruct (fg_apply_nodes (t_graph s) n) eqn:Hres; simpl.
    + unfold process_node. rewrite (Ht n Hn).
      assert (topo_pushes self n [] = []) as ->
        by (unfold topo_pushes; by destruct (ignore_newtrees self)).
      rewrite !app_nil_r, IH; simpl.
      * rewrite filter_cons_True by done. rewrite Nat.add_0_r.
        rewrite (filter_cons_False (λ n0, fg_apply_nodes (t_graph s) n0 ≠ true))
          by (intros Hx; by apply Hx).
        by rewrite fmap_cons, <- app_assoc.
      * intros m Hm. apply Ht, Hsub, Hm.
      * lia.
    + rewrite IH; simpl.
      * rewrite filter_cons_False by (by rewrite Hres).
        rewrite (filter_cons_True (λ n0, fg_apply_nodes (t_graph s) n0 ≠ true))
          by (by rewrite Hres).
        by rewrite fmap_cons, <- app_assoc.
      * intros m Hm. apply Ht, Hsub, Hm.
      * lia.
Qed.

(** X13.  A pass of [TopoOptimizer.apply] whose rewriter answers [False] on every
    node of the topological sort ends within one turn per node, whatever
    [ignore_newtrees] is: the graph is as it was, no success is counted,
    and the nodes handed to the rewriter are the nodes of the sort that are
    in the graph, each once, in the order of the pass. *)
Theorem topo_pass_noop (self : TopoOptimizer G) fuel g start_from :
  (∀ n, n ∈ io_toposort g start_from →
        transform (local_opt self) g n = Normal RNone) →
  length (io_toposort g start_from) ≤ fuel →
  ∃ s, topo_apply self fuel g start_from = Some (Normal tt, s)
       ∧ t_graph s = g ∧ t_nb s = 0 ∧ t_q s = [] ∧ t_pushed s = []
       ∧ snd <$> t_processed s
         = filter (λ n, fg_apply_nodes g n = true)
             (pending self (io_toposort g start_from)).
Proof.
  intros Ht Hlen. unfold topo_apply.
  rewrite (topo_loop_noop self fuel (topo_init g start_from)) by done.
  eexists. split; [done|]. simpl. repeat split.
  rewrite <- list_fmap_compose. apply list_fmap_id.
Qed.
End NavigatorMoreFacts.

Section EquilibriumMoreFacts.
Context {objs : Objects} {G : Type} {graphs : FunctionGraph G} {prof : Type}.
Import Navigator NavigatorMore Equilibrium EquilibriumMore.

Implicit Types (self : EquilibriumOptimizer G prof) (s : eq_state G prof)
  (g : G) (d : profs_dict G prof) (c k : GlobalOptimizer G prof).

(** X14.  What [ChangeTracker] makes of the callbacks fired since its last
    [reset]: [changed] is set by an import or a change of input, never by a
    prune alone, and [nb_imported] counts the imports. *)
Theorem change_tracker_track (ct : ChangeTracker) (tr : list (G * event)) :
  changed (track (reset ct) tr) = existsb sets_changed tr
  ∧ nb_imported (track ct tr)
    = nb_imported ct + length (List.filter is_import tr)
  ∧ (Forall (λ x : G * event, ∃ n, x.2 = OnPrune n) tr →
     track ct tr = ct).
Proof.
  assert (∀ ct0, changed (track ct0 tr)
                 = changed ct0 || existsb sets_changed tr) as Hch.
  { induction tr as [|[g ev] tr IH]; intros ct0; simpl.
    - by rewrite orb_false_r.
    - unfold track in *. simpl. rewrite IH. unfold sets_changed. simpl.
      destruct ev; simpl; [by rewrite orb_true_r|done|by rewrite orb_true_r]. }
  split; [by rewrite Hch|]. clear Hch. split.
  - revert ct. induction tr as [|[g ev] tr IH]; intros ct; simpl; [lia|].
    unfold track in *. simpl. rewrite IH. unfold is_import. simpl.
    destruct ev; simpl; lia.
  - revert ct. induction tr as [|[g ev] tr IH]; intros ct Hall; simpl;
      [done|].
    apply Forall_cons in Hall as [[n Hev] Hall]. simpl in Hev. subst ev.
    unfold track in *. simpl. by apply IH.
Qed.

Lemma quiet_refl s : quiet s s.
Proof.
  repeat split. exists []. by rewrite app_nil_r.
Qed.

Lemma quiet_trans s1 s2 s3 : quiet s1 s2 → quiet s2 s3 → quiet s1 s3.
Proof.
  intros (Ha1 & Ha2 & Ha3 & Ha4 & Ha5 & Ha6 & Ha7 & l1 & Hl1 & Hf1)
         (Hb1 & Hb2 & Hb3 & Hb4 & Hb5 & Hb6 & Hb7 & l2 & Hl2 & Hf2).
  repeat split; try congruence.
  exists (l1 ++ l2). split; [|by apply Forall_app].
  by rewrite Hl2, Hl1, app_assoc.
Qed.

Lemma quiet_after_run self upd s ct id :
  quiet s (after_run self upd s ct (e_graph s) [] id false).
Proof.
  repeat split; simpl.
  - destruct upd; [|done]. by rewrite app_nil_r.
  - exists [(id, false)]. split; [done|]. by apply Forall_singleton.
Qed.

(** *** The dict of the cleanup profiles *)

Lemma profs_set_empty_keys c d :
  key_ids (profs_set_empty c d)
  = (if decide (go_id c ∈ key_ids d) then key_ids d
     else key_ids d ++ [go_id c])
  ∧ ∀ k, k ∈ (profs_set_empty c d).*1 → k = c ∨ k ∈ d.*1.
Proof.
  induction d as [|[k l] d [IH1 IH2]]; simpl.
  - split; [done|]. intros k ->%list_elem_of_singleton. by left.
  - destruct (decide (go_id k = go_id c)) as [Heq|Hne]; simpl.
    + split.
      * rewrite decide_True; [done|]. rewrite Heq. by left.
      * intros k'. by right.
    + unfold key_ids in *. simpl. rewrite IH1. split.
      * destruct (decide (go_id c ∈ _)) as [Hin|Hin].
        -- rewrite decide_True; [done|]. by right.
        -- rewrite decide_False; [done|].
           intros [Hx|Hx]%elem_of_cons; [congruence|done].
      * intros k' [->|Hk']%elem_of_cons; [right; by left|].
        destruct (IH2 _ Hk') as [->|Hin]; [by left|]. right. by right.
Qed.

Lemma profs_init_keys (copts : list (GlobalOptimizer G prof)) :
  NoDup (key_ids (profs_init copts))
  ∧ (∀ k, k ∈ (profs_init copts).*1 → k ∈ copts)
  ∧ (∀ c, c ∈ copts → go_id c ∈ key_ids (profs_init copts)).
Proof.
  unfold profs_init.
  assert (∀ d,
            NoDup (key_ids d) →
            NoDup (key_ids (foldl (λ d c, profs_set_empty c d) d copts))
            ∧ (∀ k, k ∈ (foldl (λ d c, profs_set_empty c d) d copts).*1 →
                    k ∈ copts ∨ k ∈ d.*1)
            ∧ (∀ i, i ∈ (go_id <$> copts) ∨ i ∈ key_ids d →
                    i ∈ key_ids (foldl (λ d c, profs_set_empty c d) d copts)))
    as Hgen.
  { induction copts as [|c copts IH]; intros d Hnd; simpl.
    - split; [done|]. split; [by right|]. intros i [[]%elem_of_nil|Hi]. done.
    - destruct (profs_set_empty_keys c d) as [Hk Hsub].
      destruct (IH (profs_set_empty c d)) as (IH1 & IH2 & IH3).
      { rewrite Hk. destruct (decide _); [done|].
        apply NoDup_app. split; [done|]. split; [|apply NoDup_singleton].
        intros x Hx ->%list_elem_of_singleton. done. }
      split; [done|]. split.
      + intros k Hk'. destruct (IH2 _ Hk') as [Hin|Hin]; [left; by right|].
        destruct (Hsub _ Hin) as [->|Hd]; [left; by left|by right].
      + intros i Hi. apply IH3. rewrite Hk.
        destruct Hi as [[->|Hi]%elem_of_cons|Hi].
        * right. destruct (decide _); [done|].
          apply elem_of_app. right. by left.
        * by left.
        * right. destruct (decide _); [done|]. apply elem_of_app. by left. }
  destruct (Hgen []) as (H1 & H2 & H3); [apply NoDup_nil_2|].
  split; [done|]. split.
  - intros k Hk. destruct (H2 _ Hk) as [Hin|[]%elem_of_nil]. done.
  - intros c Hc. apply H3. left. apply list_elem_of_fmap. by exists c.
Qed.

Lemma profs_append_filled c p : ∀ d ids,
  go_id c ∈ key_ids d → NoDup (key_ids d) → filled ids d →
  ∃ d', profs_append c p d = Some d' ∧ d'.*1 = d.*1
        ∧ filled (go_id c :: ids) d'.
Proof.
  induction d as [|[k l] d IH]; intros ids Hin Hnd Hfill; simpl.
  - by apply elem_of_nil in Hin.
  - unfold key_ids in *. simpl in *. apply NoDup_cons in Hnd as [Hk Hnd].
    destruct (decide (go_id k = go_id c)) as [Heq|Hne].
    + eexists. split; [done|]. split; [done|].
      intros k' l' [Hx|Hx]%elem_of_cons Hid.
      * injection Hx as -> ->. by destruct l.
      * apply (Hfill k' l'); [by right|].
        apply elem_of_cons in Hid as [Hid|Hid]; [|done].
        destruct Hk. rewrite Heq, <- Hid.
        apply list_elem_of_fmap. by exists (k', l').
    + destruct (IH ids) as (d' & -> & Hkeys & Hfill').
      * apply elem_of_cons in Hin as [Hin|Hin]; [congruence|done].
      * done.
      * intros k' l' Hx. apply Hfill. by right.
      * eexists. split; [done|]. split; [exact (f_equal (cons k) Hkeys)|].
        intros k' l' [Hx|Hx]%elem_of_cons Hid.
        -- injection Hx as -> ->. apply (Hfill k l); [by left|].
           apply elem_of_cons in Hid as [Hid|Hid]; [congruence|done].
        -- by apply (Hfill' k' l').
Qed.

Lemma key_ids_keys d d' : d'.*1 = d.*1 → key_ids d' = key_ids d.
Proof.
  intros Hk. unfold key_ids.
  rewrite !(list_fmap_compose fst go_id). by rewrite Hk.
Qed.

Lemma merge_sub_profs_returns c merge_profile (l : list prof) :
  go_merge_profile c = Some merge_profile →
  (∀ p1 p2, ∃ p, merge_profile p1 p2 = Normal p) →
  l ≠ [] → ∃ p, merge_sub_profs c l = Normal p.
Proof.
  intros Hmp Htotal Hl. destruct l as [|p0 l]; [done|]. simpl.
  clear Hl. rewrite Hmp. revert p0.
  induction l as [|p1 l IH]; intros p0; simpl.
  - by exists p0.
  - destruct (Htotal p0 p1) as [p ->]. apply IH.
Qed.

Lemma merge_cleanup_profiles_returns d :
  (∀ k l, (k, l) ∈ d →
          l ≠ []
          ∧ ∃ merge_profile,
              go_merge_profile k = Some merge_profile
              ∧ ∀ p1 p2, ∃ p, merge_profile p1 p2 = Normal p) →
  ∃ ps, merge_cleanup_profiles d = Normal ps.
Proof.
  induction d as [|[k l] d IH]; intros Hd; simpl; [by exists []|].
  destruct (Hd k l) as (Hl & mp & Hmp & Htotal); [by left|].
  destruct (merge_sub_profs_returns k mp l Hmp Htotal Hl) as [p ->].
  destruct IH as [ps ->]; [|by eexists].
  intros k' l' Hin. apply Hd. by right.
Qed.

(** A cleanup rewriter without [merge_profile] that has returned two
    profiles makes the merge raise. *)
Lemma merge_sub_profs_no_attribute c (p0 p1 : prof) (l : list prof) :
  go_merge_profile c = None →
  merge_sub_profs c (p0 :: p1 :: l) = Raise AttributeError.
Proof.
  intros Hno. simpl. rewrite Hno. induction l as [|p l IH]; [done|].
  simpl. exact IH.
Qed.

Section FixedPoint.
Variables (self : EquilibriumOptimizer G prof) (g : G).
Hypothesis Hglobal :
  ∀ o, o ∈ global_optimizers self ++ final_optimizers self
           ++ cleanup_optimizers self →
       ∃ p, go_apply o g = (Normal p, g, []).
Hypothesis Hlocal :
  ∀ n lo, lo ∈ local_trackers self (node_op n) →
          transform lo g n = Normal RNone.

Lemma cleanup_loop_quiet upd copts : ∀ ch s ids,
  (∀ o, o ∈ copts → ∃ p, go_apply o g = (Normal p, g, [])) →
  e_graph s = g →
  (∀ o, o ∈ copts → go_id o ∈ key_ids (e_iter_profs s)) →
  NoDup (key_ids (e_iter_profs s)) → filled ids (e_iter_profs s) →
  ∃ s', cleanup_loop self upd copts ch s = (Normal ch, s') ∧ quiet s s'
        ∧ (e_iter_profs s').*1 = (e_iter_profs s).*1
        ∧ filled ((go_id <$> copts) ++ ids) (e_iter_profs s').
Proof.
  induction copts as [|c copts IH]; intros ch s ids Hc Hg Hkeys Hnd Hfill;
    simpl.
  - exists s. split; [done|]. split; [apply quiet_refl|done].
  - rewrite Hg. destruct (Hc c) as [p ->]; [by left|]. simpl.
    destruct (profs_append_filled c p (e_iter_profs s) ids)
      as (d' & -> & Hk' & Hfill'); [apply Hkeys; by left|done..|].
    simpl.
    destruct (IH ch
                (set_profs
                   (after_run self upd s (reset (e_tracker s)) g []
                      (go_id c) false) d')
                (go_id c :: ids))
      as (s' & Hs' & Hq & Hk'' & Hfill''); simpl.
    { intros o Ho. apply Hc. by right. }
    { done. }
    { intros o Ho. rewrite (key_ids_keys _ _ Hk'). apply Hkeys. by right. }
    { by rewrite (key_ids_keys _ _ Hk'). }
    { done. }
    exists s'. split; [done|]. split.
    + eapply quiet_trans; [|exact Hq].
      apply (quiet_trans _
               (after_run self upd s (reset (e_tracker s)) g []
                  (go_id c) false)).
      * rewrite <- Hg. apply quiet_after_run.
      * repeat split. exists []. by rewrite app_nil_r.
    + split; [by rewrite Hk''|].
      intros k l Hin Hid. apply (Hfill'' k l Hin).
      change (go_id k ∈ go_id c :: ((go_id <$> copts) ++ ids)) in Hid.
      apply elem_of_cons in Hid as [Hid|Hid].
      * apply elem_of_app. right. rewrite Hid. by left.
      * apply elem_of_app in Hid as [Hid|Hid]; apply elem_of_app;
          [by left|right; by right].
Qed.

Lemma cleanup_pass_quiet upd s ids :
  e_graph s = g →
  (∀ o, o ∈ cleanup_optimizers self → go_id o ∈ key_ids (e_iter_profs s)) →
  NoDup (key_ids (e_iter_profs s)) → filled ids (e_iter_profs s) →
  ∃ s', cleanup_pass self upd s = (Normal tt, s') ∧ quiet s s'
        ∧ (e_iter_profs s').*1 = (e_iter_profs s).*1
        ∧ filled ((go_id <$> cleanup_optimizers self) ++ ids)
            (e_iter_profs s').
Proof.
  intros Hg Hkeys Hnd Hfill. unfold cleanup_pass, apply_cleanup.
  destruct (cleanup_loop_quiet upd (cleanup_optimizers self) false s ids)
    as (s' & -> & Hq & Hk & Hf); [|done..|].
  { intros o Ho. apply Hglobal. rewrite !elem_of_app. by right; right. }
  eexists. split; [done|]. split; [|done].
  eapply quiet_trans; [exact Hq|].
  repeat split; simpl; [by rewrite orb_false_r|].
  exists []. by rewrite app_nil_r.
Qed.

Lemma global_loop_quiet gopts : ∀ s,
  (∀ o, o ∈ gopts → ∃ p, go_apply o g = (Normal p, g, [])) →
  e_graph s = g →
  ∃ s', global_loop self gopts s = (Normal tt, s') ∧ quiet s s'
        ∧ e_iter_profs s' = e_iter_profs s.
Proof.
  induction gopts as [|c gopts IH]; intros s Hc Hg; simpl.
  - exists s. split; [done|]. split; [apply quiet_refl|done].
  - rewrite Hg. destruct (Hc c) as [p ->]; [by left|]. simpl.
    destruct (IH (after_run self None s (reset (e_tracker s)) g []
                    (go_id c) false)) as (s' & Hs' & Hq & Hd); [|done|].
    { intros o Ho. apply Hc. by right. }
    exists s'. split; [done|]. split; [|done].
    eapply quiet_trans; [|exact Hq].
    rewrite <- Hg. apply quiet_after_run.
Qed.

Lemma lopt_loop_quiet n lopts : ∀ s,
  (∀ lo, lo ∈ lopts → transform lo g n = Normal RNone) →
  e_graph s = g →
  ∃ s', lopt_loop self n lopts s = (Normal tt, s') ∧ quiet s s'
        ∧ e_iter_profs s' = e_iter_profs s.
Proof.
  induction lopts as [|lo lopts IH]; intros s Hl Hg; simpl.
  - exists s. split; [done|]. split; [apply quiet_refl|done].
  - unfold process_node. rewrite Hg, (Hl lo) by (by left).
    destruct (IH (after_run self (updater_for self n) s (e_tracker s) g []
                    (lo_id lo) false)) as (s' & Hs' & Hq & Hd); [|done|].
    { intros o Ho. apply Hl. by right. }
    exists s'. split; [done|]. split; [|done].
    eapply quiet_trans; [|exact Hq].
    rewrite <- Hg. apply quiet_after_run.
Qed.

Lemma local_loop_quiet qfuel : ∀ s,
  e_graph s = g → length (e_q s) ≤ qfuel →
  ∃ s', local_loop self qfuel s = Some (Normal tt, s')
        ∧ e_graph s' = g ∧ e_changed s' = e_changed s
        ∧ e_abort s' = e_abort s ∧ e_count s' = e_count s
        ∧ e_iter_profs s' = e_iter_profs s
        ∧ ∃ l, e_log s' = e_log s ++ l
               ∧ Forall (λ x : nat * bool, x.2 = false) l.
Proof.
  induction qfuel as [|qfuel IH]; intros s Hg Hlen; simpl.
  - destruct (e_q s) as [|n q] eqn:Hq; [|simpl in Hlen; lia]. simpl.
    exists s. repeat split; [done|]. exists []. by rewrite app_nil_r.
  - destruct (pop_last (e_q s)) as [[n q']|] eqn:Hpop.
    2:{ exists s. repeat split; [done|]. exists []. by rewrite app_nil_r. }
    apply pop_last_app in Hpop. rewrite Hpop, length_app in Hlen.
    simpl in Hlen.
    set (s1 := set_queue s q' (e_max_nb_nodes s) (e_max_use s)).
    change (e_graph s1) with (e_graph s).
    destruct (fg_apply_nodes (e_graph s) n); simpl.
    + destruct (lopt_loop_quiet n (local_trackers self (node_op n)) s1)
        as (s2 & -> & Hq2 & Hd2); [by apply Hlocal|done|].
      destruct Hq2 as (H1 & H2 & H3 & H4 & H5 & _ & _ & l2 & Hl2 & Hf2).
      destruct (IH s2)
        as (s' & -> & Hg' & Hc' & Ha' & Hn' & Hd' & l & Hl' & Hf');
        [by rewrite H1|rewrite H5; simpl; lia|].
      exists s'. split; [done|]. split; [done|].
      split; [by rewrite Hc', H2|]. split; [by rewrite Ha', H3|].
      split; [by rewrite Hn', H4|]. split; [by rewrite Hd', Hd2|].
      exists (l2 ++ l). split; [|by apply Forall_app].
      by rewrite Hl', Hl2, app_assoc.
    + destruct (IH s1) as (s' & -> & Hrest); [done|simpl; lia|].
      by exists s'.
Qed.

Hypothesis Hmerge :
  ∀ o, o ∈ cleanup_optimizers self →
       ∃ merge_profile,
         go_merge_profile o = Some merge_profile
         ∧ ∀ p1 p2, ∃ p, merge_profile p1 p2 = Normal p.

Lemma iteration_quiet qfuel start_from s :
  e_graph s = g → e_abort s = false → e_count s = ∅ →
  Forall (λ x : nat * bool, x.2 = false) (e_log s) →
  (∃ max_use,
     max_use_of self
       (Nat.max (e_max_nb_nodes s)
          (length (io_toposort g (start_vars start_from g))))
     = Normal max_use) →
  length (io_toposort g (start_vars start_from g)) ≤ qfuel →
  ∃ s', iteration self qfuel start_from s = Some (Normal tt, s')
        ∧ e_graph s' = g ∧ e_changed s' = false ∧ e_abort s' = false
        ∧ e_count s' = ∅
        ∧ Forall (λ x : nat * bool, x.2 = false) (e_log s').
Proof.
  intros Hg Hab Hcount Hlog [mu Hmu] Hlen. unfold iteration.
  destruct (profs_init_keys (cleanup_optimizers self))
    as (Hnd & Hsub & Hall).
  set (d0 := profs_init (cleanup_optimizers self)) in *.
  destruct (global_loop_quiet (global_optimizers self)
              (set_profs (set_flags s false (e_abort s)) d0))
    as (s1 & -> & (Ha1 & Ha2 & Ha3 & Ha4 & _ & Ha6 & _ & l1 & Hl1 & Hf1)
        & Hd1);
    [|done|].
  { intros o Ho. apply Hglobal. rewrite !elem_of_app. by left. }
  simpl in *.
  destruct (cleanup_pass_quiet None s1 [])
    as (s2 & -> & (Hb1 & Hb2 & Hb3 & Hb4 & _ & Hb6 & _ & l2 & Hl2 & Hf2)
        & Hk2 & Hfill2);
    [congruence|by rewrite Hd1|by rewrite Hd1|by intros k l _ []%elem_of_nil|].
  assert (e_graph s2 = g) as Hg2 by congruence. rewrite Hg2.
  set (q := io_toposort g (start_vars start_from g)) in *.
  assert (e_max_nb_nodes s2 = e_max_nb_nodes s) as -> by congruence.
  rewrite Hmu.
  set (s3 := set_queue s2 q _ _).
  destruct (local_loop_quiet qfuel s3)
    as (s4 & -> & Hc1 & Hc2 & Hc3 & Hc4 & Hd4 & l3 & Hl3 & Hf3); [done|done|].
  simpl in *.
  destruct (global_loop_quiet (final_optimizers self) s4)
    as (s5 & -> & (Hd1' & Hd2' & Hd3' & Hd4' & _ & _ & _ & l4 & Hl4 & Hf4)
        & Hd5);
    [|done|].
  { intros o Ho. apply Hglobal. rewrite !elem_of_app. by right; left. }
  assert ((e_iter_profs s5).*1 = d0.*1) as Hk5
    by (by rewrite Hd5, Hd4, Hk2, Hd1).
  destruct (cleanup_pass_quiet None s5
              ((go_id <$> cleanup_optimizers self) ++ []))
    as (s6 & -> & (He1 & He2 & He3 & He4 & _ & _ & _ & l5 & Hl5 & Hf5)
        & Hk6 & Hfill6).
  { congruence. }
  { intros o Ho. rewrite (key_ids_keys _ _ Hk5). by apply Hall. }
  { by rewrite (key_ids_keys _ _ Hk5). }
  { by rewrite Hd5, Hd4. }
  destruct (merge_cleanup_profiles_returns (e_iter_profs s6)) as [ps ->].
  { intros k l Hin.
    assert (k ∈ cleanup_optimizers self) as Hk.
    { apply Hsub. rewrite <- Hk5, <- Hk6.
      apply list_elem_of_fmap. by exists (k, l). }
    split; [|by apply Hmerge].
    apply (Hfill6 k l Hin). apply elem_of_app. left.
    apply list_elem_of_fmap. by exists k. }
  exists s6. split; [done|]. split; [congruence|]. split; [congruence|].
  split; [congruence|]. split; [congruence|].
  rewrite Hl5, Hl4, Hl3, Hl2, Hl1. by repeat apply Forall_app_2.
Qed.
End FixedPoint.

(** X15.  On a graph that is a fixed point of its rewriters (every global,
    final and cleanup rewriter returns without a callback fired, every
    local rewriter answers [False] on every node)
    [EquilibriumOptimizer.apply] returns after a single iteration, provided
    the variables of [start_from], if it is given, are outputs of the
    graph, [max_use_ratio] is a number whose product with the number of
    nodes can be computed, and every cleanup rewriter has a
    [merge_profile] that returns.  The graph is as it was, no use is
    counted, [max_use_abort] is not set, and every rewriter application in
    its log is one without success.  With a variable in [start_from] that
    is no output of the graph it raises [AssertionError], and with
    [max_use_ratio=None], the default, [TypeError], before any rewriter is
    applied. *)
Theorem equilibrium_fixpoint self cfg g start_from fuel qfuel :
  (start_from_ok start_from g = false →
   apply self cfg fuel qfuel start_from g
   = Some (Raise AssertionError, unstarted g))
  ∧ (start_from_ok start_from g = true → max_use_ratio self = None →
     apply self cfg fuel qfuel start_from g
     = Some (Raise TypeError, unstarted g))
  ∧ ((∀ o, o ∈ global_optimizers self ++ final_optimizers self
               ++ cleanup_optimizers self →
           ∃ p, go_apply o g = (Normal p, g, [])) →
     (∀ n lo, lo ∈ local_trackers self (node_op n) →
              transform lo g n = Normal RNone) →
     (∀ o, o ∈ cleanup_optimizers self →
           ∃ merge_profile,
             go_merge_profile o = Some merge_profile
             ∧ ∀ p1 p2, ∃ p, merge_profile p1 p2 = Normal p) →
     start_from_ok start_from g = true →
     (∃ max_use, max_use_of self (fg_nb_apply_nodes g) = Normal max_use) →
     (∃ max_use,
        max_use_of self
          (Nat.max (fg_nb_apply_nodes g)
             (length (io_toposort g (start_vars start_from g))))
        = Normal max_use) →
     0 < fuel →
     length (io_toposort g (start_vars start_from g)) ≤ qfuel →
     ∃ s, apply self cfg fuel qfuel start_from g = Some (Normal tt, s)
          ∧ e_graph s = g ∧ e_changed s = false ∧ e_abort s = false
          ∧ e_count s = ∅
          ∧ Forall (λ x : nat * bool, x.2 = false) (e_log s)).
Proof.
  split; [|split].
  - intros Hno. unfold apply. by rewrite Hno.
  - intros Hok Hnone. unfold apply, max_use_of. by rewrite Hok, Hnone.
  - intros Hglobal Hlocal Hmerge Hstart [mu0 Hmu0] Hmu Hfuel Hlen.
    unfold apply. rewrite Hstart, Hmu0. simpl.
    destruct fuel as [|fuel]; [lia|]. simpl.
    destruct (iteration_quiet self g Hglobal Hlocal Hmerge qfuel start_from
                (initial_state g mu0))
      as (s & -> & Hg & Hch & Hab & Hcount & Hlog); try done.
    assert (equilibrium_loop self fuel qfuel start_from s
            = Some (Normal tt, s)) as ->.
    { destruct fuel; simpl; by rewrite Hch. }
    rewrite Hab. by exists s.
Qed.
End EquilibriumMoreFacts.

Section TrackerMoreFacts.
Context {objs : Objects} {G : Type} {graphs : FunctionGraph G} {cls : Type}
  `{EqDecision cls}.
Import LocalOptTracker LocalOptGroup.
Variable type_of : Op → cls.
Variable compose_mro : cls → list cls → list cls.
Variable tracks : rewriter → option (list (@track Op cls)).

Implicit Types (self : @LocalOptTracker Op cls) (rw : rewriter).

Lemma dict_get_Some_elem {K V} `{EqDecision K} (k : K) (d : list (K * V)) v :
  dict_get k d = Some v → (k, v) ∈ d.
Proof.
  induction d as [|[k' v'] d IH]; simpl; [done|].
  destruct (decide (k = k')) as [->|]; [intros [= ->]; by left|].
  intros Hd. right. by apply IH.
Qed.

Lemma dict_get_setdefault {K} `{EqDecision K} (k k' : K) rw
    (d : list (K * list rewriter)) :
  dict_get k (setdefault_append k' rw d)
  = if decide (k = k') then Some (default [] (dict_get k d) ++ [rw])
    else dict_get k d.
Proof.
  induction d as [|[k0 l0] d IH]; simpl.
  - by destruct (decide (k = k')).
  - destruct (decide (k' = k0)) as [->|Hne]; simpl;
      destruct (decide (k = k0)) as [->|Hk]; simpl; rewrite ?IH;
      repeat (destruct (decide _)); by simplify_eq.
Qed.

Lemma elem_of_concat {A} (x : A) (ls : list (list A)) :
  x ∈ concat ls ↔ ∃ l, x ∈ l ∧ l ∈ ls.
Proof.
  induction ls as [|l0 ls IH]; simpl.
  - split; [by intros ?%elem_of_nil|by intros (l & _ & ?%elem_of_nil)].
  - rewrite elem_of_app, IH. split.
    + intros [Hx|(l & Hx & Hl)]; [exists l0; split; [done|by left]|].
      exists l. split; [done|by right].
    + intros (l & Hx & [->|Hl]%elem_of_cons); [by left|]. right. by exists l.
Qed.

(** X16.  [get_trackers] only returns registered rewriters: whatever the
    operator and the method resolution order of its class, every rewriter
    in the answer is one of [get_rewriters]. *)
Theorem get_trackers_registered self op rw :
  rw ∈ get_trackers_body type_of compose_mro self op →
  rw ∈ get_rewriters self.
Proof.
  unfold get_trackers_body, get_rewriters, _find_impl.
  rewrite !elem_of_app. intros [Hin|[Hin|Hin]]; [| |by right].
  - left. apply elem_of_concat in Hin as (l & Hrw & Hl).
    apply list_elem_of_fmap in Hl as (t & -> & _).
    destruct (dict_get t (tracked_types self)) as [l|] eqn:Hd;
      [|by apply elem_of_nil in Hrw].
    apply elem_of_concat. exists l. split; [done|].
    apply elem_of_app. left. apply list_elem_of_fmap.
    exists (t, l). split; [done|]. by apply dict_get_Some_elem.
  - left. destruct (dict_get op (tracked_instances self)) as [l|] eqn:Hd;
      [|by apply elem_of_nil in Hin].
    apply elem_of_concat. exists l. split; [done|].
    apply elem_of_app. right. apply list_elem_of_fmap.
    exists (op, l). split; [done|]. by apply dict_get_Some_elem.
Qed.

Lemma add_tracker_untracked self rw :
  tracks rw = None →
  untracked_opts (add_tracker tracks self rw) = untracked_opts self ++ [rw].
Proof. unfold add_tracker. by intros ->. Qed.

Lemma add_tracks_instance rw op ts : ∀ self,
  TrackInstance op ∈ ts
  ∨ rw ∈ default [] (dict_get op (tracked_instances self)) →
  rw ∈ default []
         (dict_get op
            (tracked_instances
               (foldl (λ self c,
                         match c with
                         | TrackType c =>
                             {| tracked_instances := tracked_instances self;
                                tracked_types :=
                                  setdefault_append c rw (tracked_types self);
                                untracked_opts := untracked_opts self |}
                         | TrackInstance op =>
                             {| tracked_instances :=
                                  setdefault_append op rw
                                    (tracked_instances self);
                                tracked_types := tracked_types self;
                                untracked_opts := untracked_opts self |}
                         end) self ts))).
Proof.
  induction ts as [|t ts IH]; intros self; simpl.
  - by intros [?%elem_of_nil|].
  - intros Hor. apply IH. destruct t as [c|op']; simpl.
    + destruct Hor as [[?|Hin]%elem_of_cons|Hrw]; [done|by left|by right].
    + rewrite dict_get_setdefault. destruct (decide (op = op')) as [<-|Hne].
      * right. simpl. apply elem_of_app. right. by left.
      * destruct Hor as [[?|Hin]%elem_of_cons|Hrw];
          [congruence|by left|by right].
Qed.

Lemma add_tracks_type rw c ts : ∀ self,
  TrackType c ∈ ts
  ∨ rw ∈ default [] (dict_get c (tracked_types self)) →
  rw ∈ default []
         (dict_get c
            (tracked_types
               (foldl (λ self c,
                         match c with
                         | TrackType c =>
                             {| tracked_instances := tracked_instances self;
                                tracked_types :=
                                  setdefault_append c rw (tracked_types self);
                                untracked_opts := untracked_opts self |}
                         | TrackInstance op =>
                             {| tracked_instances :=
                                  setdefault_append op rw
                                    (tracked_instances self);
                                tracked_types := tracked_types self;
                                untracked_opts := untracked_opts self |}
                         end) self ts))).
Proof.
  induction ts as [|t ts IH]; intros self; simpl.
  - by intros [?%elem_of_nil|].
  - intros Hor. apply IH. destruct t as [c'|op']; simpl.
    + rewrite dict_get_setdefault. destruct (decide (c = c')) as [<-|Hne].
      * right. simpl. apply elem_of_app. right. by left.
      * destruct Hor as [[?|Hin]%elem_of_cons|Hrw];
          [congruence|by left|by right].
    + destruct Hor as [[?|Hin]%elem_of_cons|Hrw]; [done|by left|by right].
Qed.

(** X17.  Registration then lookup.  Once [add_tracker] has registered a
    rewriter, a fresh [get_trackers] returns it for every operator if it
    tracks nothing in particular ([tracks()] is [None]), for the operators
    it tracks as instances, and for the operators whose class has one of
    the classes it tracks in its method resolution order. *)
Theorem add_tracker_found self rw :
  (tracks rw = None →
   ∀ op, rw ∈ get_trackers_body type_of compose_mro
                (add_tracker tracks self rw) op)
  ∧ (∀ ts op,
       tracks rw = Some ts → TrackInstance op ∈ ts →
       rw ∈ get_trackers_body type_of compose_mro
              (add_tracker tracks self rw) op)
  ∧ (∀ ts c op,
       tracks rw = Some ts → TrackType c ∈ ts →
       c ∈ compose_mro (type_of op)
             (map fst (tracked_types (add_tracker tracks self rw))) →
       rw ∈ get_trackers_body type_of compose_mro
              (add_tracker tracks self rw) op).
Proof.
  split; [|split].
  - intros Hnone op. unfold get_trackers_body.
    rewrite add_tracker_untracked by done. rewrite !elem_of_app.
    right. right. right. by left.
  - intros ts op Hts Hin. unfold get_trackers_body. rewrite !elem_of_app.
    right. left. unfold add_tracker. rewrite Hts.
    apply add_tracks_instance. by left.
  - intros ts c op Hts Hin Hmro. unfold get_trackers_body.
    rewrite !elem_of_app. left. unfold _find_impl.
    apply elem_of_concat.
    exists (default [] (dict_get c
                          (tracked_types (add_tracker tracks self rw)))).
    split.
    + unfold add_tracker. rewrite Hts. apply add_tracks_type. by left.
    + apply list_elem_of_fmap. by exists c.
Qed.

(** X18.  A rewriter whose [tracks()] is the empty list is dropped by
    [add_tracker] without a trace.  [LocalOptGroup.tracks] returns the
    empty list, not [None], for a group none of whose rewriters tracks
    anything: registered in a tracker (as [EquilibriumOptimizer] does with
    its local rewriters), such a group is never returned by
    [get_trackers]. *)
Theorem untracked_group_dropped (grp : LocalOptGroup) (grp_id : rewriter)
    self :
  (∀ o, o ∈ opts grp → tracks o = None ∨ tracks o = Some []) →
  group_tracks tracks grp = []
  ∧ (tracks grp_id = Some (group_tracks tracks grp) →
     add_tracker tracks self grp_id = self).
Proof.
  intros Hall.
  assert (group_tracks tracks grp = []) as Hnil.
  { unfold group_tracks. induction (opts grp) as [|o os IH]; simpl; [done|].
    rewrite IH by (intros o' Ho'; apply Hall; by right).
    destruct (Hall o) as [->| ->]; [by left|done..]. }
  split; [done|]. rewrite Hnil. unfold add_tracker. intros ->. simpl.
  by destruct self.
Qed.

(** *** LocalOptGroup.transform *)

Variable transform_of : rewriter → G → node → outcome repl.

Lemma first_applicable_spec candidates g n r :
  first_applicable transform_of candidates g n = Normal (Some r) →
  truthy r = true
  ∧ ∃ pre opt post,
      candidates = pre ++ opt :: post
      ∧ transform_of opt g n = Normal r
      ∧ ∀ o, o ∈ pre →
             ∃ r', transform_of o g n = Normal r' ∧ truthy r' = false.
Proof.
  induction candidates as [|opt rest IH]; simpl; [done|].
  destruct (transform_of opt g n) as [r0|e] eqn:Ht; [|done].
  destruct (truthy r0) eqn:Hr0.
  - intros [= <-]. split; [done|]. exists [], opt, rest.
    split; [done|]. split; [done|]. by intros o ?%elem_of_nil.
  - intros Hrest. destruct (IH Hrest) as (Htr & pre & o1 & post & -> & Ho1 & Hpre).
    split; [done|]. exists (opt :: pre), o1, post.
    split; [done|]. split; [done|].
    intros o [->|Ho]%elem_of_cons; [by exists r0|by apply Hpre].
Qed.

Lemma transform_loop_result (grp : LocalOptGroup) fuel g : ∀ repl_ n res,
  (∀ r, repl_ = Some r → truthy r = true) →
  transform_loop type_of compose_mro tracks transform_of grp fuel g repl_ n
  = Some (Normal res) →
  match res with
  | Some r => truthy r = true
  | None =>
      repl_ = None
      ∧ first_applicable transform_of
          (get_trackers_body type_of compose_mro (tracker tracks grp)
             (node_op n)) g n = Normal None
  end.
Proof.
  induction fuel as [|fuel IH]; intros repl_ n res Hrepl; simpl; [done|].
  destruct (first_applicable _ _ g n) as [[new_repl|]|e] eqn:Hfirst;
    [| |done].
  - apply first_applicable_spec in Hfirst as [Htruthy _].
    destruct (apply_all_opts grp); simpl.
    + destruct (new_vars new_repl) as [|[v0| |l] vs]; [done| |done..].
      destruct (owner v0) as [next|]; [|by intros [= <-]].
      destruct (if 1 <? repl_len new_repl then _ else _) as [[]|e];
        [|done].
      intros Hloop. apply IH in Hloop; [|by intros r [= <-]].
      destruct res as [r|]; [done|]. by destruct Hloop.
    + by intros [= <-].
  - intros [= <-]. destruct repl_ as [r|]; [by apply Hrepl|done].
Qed.

(** X19.  What [LocalOptGroup.transform] returns is either [None] or a result
    that is true, never [False] or an empty list or dict; it returns [None]
    only when the group is empty or no rewriter tracked for the operator of
    the node applies to the node. *)
Theorem group_transform_result (grp : LocalOptGroup) fuel g n res :
  transform type_of compose_mro tracks transform_of grp fuel g n
  = Some (Normal res) →
  match res with
  | Some r => truthy r = true
  | None =>
      opts grp = []
      ∨ first_applicable transform_of
          (get_trackers_body type_of compose_mro (tracker tracks grp)
             (node_op n)) g n = Normal None
  end.
Proof.
  unfold transform. destruct (opts grp) as [|o os] eqn:Hopts.
  - intros [= <-]. by left.
  - intros Hloop. apply transform_loop_result in Hloop; [|done].
    destruct res as [r|]; [done|]. right. by destruct Hloop.
Qed.

(** X20.  With [apply_all_opts=False] the group stops at the first rewriter that
    applies: it returns within one turn of its loop, and a result it
    returns is the answer of a rewriter tracked for the operator of the
    node, every rewriter before it in the tracker's order having answered
    with a false value. *)
Theorem group_transform_first (grp : LocalOptGroup) fuel g n :
  apply_all_opts grp = false → opts grp ≠ [] →
  transform type_of compose_mro tracks transform_of grp (S fuel) g n
  = Some (first_applicable transform_of
            (get_trackers_body type_of compose_mro (tracker tracks grp)
               (node_op n)) g n)
  ∧ ∀ r,
      transform type_of compose_mro tracks transform_of grp (S fuel) g n
      = Some (Normal (Some r)) →
      ∃ pre opt post,
        get_trackers_body type_of compose_mro (tracker tracks grp)
          (node_op n) = pre ++ opt :: post
        ∧ transform_of opt g n = Normal r ∧ truthy r = true
        ∧ ∀ o, o ∈ pre →
               ∃ r', transform_of o g n = Normal r' ∧ truthy r' = false.
Proof.
  intros Hall Hopts.
  assert (transform type_of compose_mro tracks transform_of grp (S fuel) g n
          = Some (first_applicable transform_of
                    (get_trackers_body type_of compose_mro
                       (tracker tracks grp) (node_op n)) g n)) as Heq.
  { unfold transform. destruct (opts grp) as [|o os] eqn:Ho; [done|].
    simpl. rewrite Hall. simpl.
    by destruct (first_applicable _ _ g n) as [[r|]|e]. }
  split; [done|]. rewrite Heq. intros r [= Hfirst].
  apply first_applicable_spec in Hfirst
    as (Htr & pre & opt & post & Hc & Hopt & Hpre).
  by exists pre, opt, post.
Qed.
End TrackerMoreFacts.

Section CheckChainFacts.
Context {objs : Objects} {G : Type} {graphs : FunctionGraph G} {cls : Type}.
Import CheckChain.
Variable isinstance_op : Op → cls → bool.
Variable issubclass_Op : cls → bool.

Abbreviation _check_chain := (_check_chain isinstance_op issubclass_Op).
Abbreviation check_chain := (check_chain isinstance_op issubclass_Op).

Lemma _check_chain_true g (chain : list (item cls)) : ∀ r,
  _check_chain g r (flat_map (λ x, [x; IInt 0%Z]) chain) = Normal true →
  Forall (λ x, x ≠ INone ∧ ∀ i, x ≠ IInt i) chain.
Proof.
  induction chain as [|x chain IH]; intros r; simpl; [done|].
  destruct (elem_ok isinstance_op issubclass_Op r x) eqn:Hok; simpl;
    [|done].
  destruct (owner r) as [n|] eqn:Hr; [|done].
  destruct (py_index (node_inputs g n) 0) as [r'|]; [|done].
  intros Hrest. apply Forall_cons. split; [|by eapply IH].
  unfold elem_ok in Hok. rewrite Hr in Hok.
  destruct x; try done; by split.
Qed.

(** X21.  [check_chain] can only confirm operators and classes: when it returns
    [True], no element of the chain is [None] or an integer.  In particular
    it never confirms that a variable has no owner: on a chain with [None]
    it returns [False] or raises. *)
Theorem check_chain_true_only_ops g r (chain : list (item cls)) :
  check_chain g r chain = Normal true →
  Forall (λ x, x ≠ INone ∧ ∀ i, x ≠ IInt i) chain.
Proof.
  unfold CheckChain.check_chain.
  destruct (match r with inl v => _ | inr n => _ end) as [v|e]; [|done].
  destruct chain as [|x chain]; [done|]. apply _check_chain_true.
Qed.

Lemma _check_chain_ops g (ops : list Op) : ∀ r,
  _check_chain g r (flat_map (λ x, [x; IInt 0%Z]) (IOp <$> ops)) = Normal true
  ↔ follows_first_inputs g r ops.
Proof.
  induction ops as [|op ops IH]; intros r; simpl; [done|].
  unfold py_index. simpl. change (Z.to_nat 0) with 0. split.
  - destruct (owner r) as [n|] eqn:Hr; [|done].
    case_bool_decide as Hop; [|done].
    simpl. destruct (node_inputs g n !! 0) as [r'|] eqn:Hin; [|done].
    intros Hrest. exists n, r'. by rewrite <- IH.
  - intros (n & r' & -> & Hop & Hin & Hrest). rewrite Hin.
    rewrite bool_decide_eq_true_2 by done. simpl. by apply IH.
Qed.

(** X22.  [check_chain(r, op1, ..., opk)] returns [True] exactly when the
    operators are those met from the owner of [r] along first inputs, and
    every node on the way, the last one included, has a first input: on a
    last node without input the call raises [IndexError], and it raises
    [TypeError] when no operator is given. *)
Theorem check_chain_ops g r (ops : list Op) :
  (ops ≠ [] →
   (check_chain g (inl r) (IOp <$> ops) = Normal true
    ↔ follows_first_inputs g r ops))
  ∧ (∀ n op, owner r = Some n → node_op n = op → node_inputs g n = [] →
             check_chain g (inl r) [IOp op] = Raise IndexError)
  ∧ check_chain g (inl r) [] = Raise TypeError.
Proof.
  split; [|split; [|done]].
  - intros Hne. unfold CheckChain.check_chain.
    destruct ops as [|op ops]; [done|]. apply (_check_chain_ops g (op :: ops)).
  - intros n op Hr Hop Hin. unfold CheckChain.check_chain. simpl.
    rewrite Hr. rewrite bool_decide_eq_true_2 by done. simpl.
    unfold py_index. simpl. change (Z.to_nat 0) with 0. by rewrite Hin.
Qed.
End CheckChainFacts.

Section MergeDictFacts.
Context {K V : Type} `{EqDecision K}.
Import MergeDict.
Variable add : V → V → V.

Implicit Types (d : list (K * V)) (k : K).

Lemma get_add_item d k k' v :
  get k (add_item add d k' v)
  = if decide (k = k') then merged_value add (get k d) (Some v) else get k d.
Proof.
  induction d as [|[k0 x] d IH]; simpl.
  - by destruct (decide (k = k')).
  - destruct (decide (k' = k0)) as [->|Hne]; simpl;
      destruct (decide (k = k0)) as [->|Hk]; simpl; rewrite ?IH;
      repeat (destruct (decide _)); by simplify_eq.
Qed.

Lemma get_None_notin d k : get k d = None ↔ k ∉ d.*1.
Proof.
  induction d as [|[k0 x] d IH]; simpl.
  - split; [intros _; apply not_elem_of_nil|done].
  - destruct (decide (k = k0)) as [->|Hne].
    + split; [done|]. intros Hn. destruct Hn. by left.
    + rewrite IH, not_elem_of_cons.
      split; [intros Hk; split; [exact Hne|exact Hk]|intros [_ Hk]; exact Hk].
Qed.

Lemma keys_add_item d k v :
  (add_item add d k v).*1 = if decide (k ∈ d.*1) then d.*1 else d.*1 ++ [k].
Proof.
  induction d as [|[k0 x] d IH].
  - simpl. destruct (decide (k ∈ [])) as [Hin|]; [|done].
    by apply elem_of_nil in Hin.
  - cbn [add_item]. rewrite fmap_cons. cbn [fst].
    destruct (decide (k = k0)) as [->|Hne].
    + rewrite fmap_cons. cbn [fst]. rewrite decide_True; [done|by left].
    + rewrite fmap_cons, IH. cbn [fst].
      destruct (decide (k ∈ d.*1)) as [Hin|Hnin].
      * rewrite decide_True; [done|by right].
      * rewrite decide_False; [done|]. by apply not_elem_of_cons.
Qed.

Lemma filter_ext_in {A} (P Q : A → Prop) `{∀ x, Decision (P x)}
    `{∀ x, Decision (Q x)} (l : list A) :
  (∀ x, x ∈ l → P x ↔ Q x) → filter P l = filter Q l.
Proof.
  induction l as [|x l IH]; intros Hext; [done|].
  assert (filter P l = filter Q l) as Hl.
  { apply IH. intros y Hy. apply Hext. by right. }
  destruct (decide (P x)) as [HP|HP].
  - rewrite !filter_cons_True, Hl; [done| |done]. apply Hext; [by left|done].
  - rewrite !filter_cons_False, Hl; [done| |done].
    intros HQ. apply HP, Hext; [by left|done].
Qed.

(** X23.  [merge_dict] adds the two dicts key by key: a key of both has the sum
    of its two values, a key of one of them keeps its value, and no other
    key appears. *)
Theorem merge_dict_get d1 d2 k :
  NoDup d2.*1 →
  get k (merge_dict add d1 d2) = merged_value add (get k d1) (get k d2).
Proof.
  unfold merge_dict. revert d1.
  induction d2 as [|[k2 v2] d2 IH]; intros d1 Hnd; simpl.
  - by destruct (get k d1).
  - apply NoDup_cons in Hnd as [Hnotin Hnd]. simpl in Hnotin.
    rewrite IH by done. rewrite get_add_item.
    destruct (decide (k = k2)) as [->|Hne]; [|done].
    apply get_None_notin in Hnotin. rewrite Hnotin.
    by destruct (get k2 d1).
Qed.

(** X24.  [merge_dict] keeps the insertion order: the keys of the first dict
    come first, in their order, then the keys the second dict adds, in the
    order of the second dict; the keys of the result are distinct when those
    of the first dict are. *)
Theorem merge_dict_keys d1 d2 :
  NoDup d2.*1 →
  (merge_dict add d1 d2).*1 = d1.*1 ++ filter (λ k, k ∉ d1.*1) d2.*1
  ∧ (NoDup d1.*1 → NoDup (merge_dict add d1 d2).*1).
Proof.
  intros Hnd2.
  assert ((merge_dict add d1 d2).*1
          = d1.*1 ++ filter (λ k, k ∉ d1.*1) d2.*1) as Hkeys.
  { unfold merge_dict. revert d1.
    induction d2 as [|[k2 v2] d2 IH]; intros d1; simpl.
    - by rewrite filter_nil, app_nil_r.
    - apply NoDup_cons in Hnd2 as [Hnotin Hnd2]. simpl in Hnotin.
      rewrite IH by done. rewrite keys_add_item.
      destruct (decide (k2 ∈ d1.*1)) as [Hin|Hnin].
      + rewrite filter_cons_False; [done|]. simpl. by intros [].
      + rewrite filter_cons_True by done. rewrite <- app_assoc. simpl.
        f_equal. f_equal. apply filter_ext_in. intros k Hk.
        rewrite not_elem_of_app, list_elem_of_singleton.
        split; [by intros []|]. intros Hk1. split; [done|]. by intros ->. }
  split; [done|]. rewrite Hkeys. intros Hnd1.
  apply NoDup_app. split; [done|]. split.
  - by intros k Hk1 [Hk2 _]%list_elem_of_filter.
  - by apply NoDup_filter.
Qed.
End MergeDictFacts.

Section StackTraceFacts.
Context {objs : Objects} {G : Type} {graphs : FunctionGraph G} {cls : Type}.
Import StackTrace.
Variable isinstance_op : Op → cls → bool.
Variable scalar_op : Op → option Op.
Variable apply_nodes : G → list node.

Abbreviation check_stack_trace :=
  (check_stack_trace isinstance_op scalar_op apply_nodes).
Abbreviation on_import := (on_import isinstance_op scalar_op apply_nodes).

Implicit Types (t : tags) (v : var).

Lemma copy_fold tr (vs : list var) : ∀ t v,
  get_trace t v
  `prefix_of` get_trace (foldl (λ t v, <[v := get_trace t v ++ tr]> t) t vs) v
  ∧ (v ∉ vs →
     foldl (λ t v, <[v := get_trace t v ++ tr]> t) t vs !! v = t !! v)
  ∧ (NoDup vs → v ∈ vs →
     get_trace (foldl (λ t v, <[v := get_trace t v ++ tr]> t) t vs) v
     = get_trace t v ++ tr).
Proof.
  induction vs as [|v0 vs IH]; intros t v; simpl.
  - split; [done|]. split; [done|]. by intros _ ?%elem_of_nil.
  - destruct (IH (<[v0 := get_trace t v0 ++ tr]> t) v) as (Hpre & Hout & Hin).
    assert (get_trace (<[v0 := get_trace t v0 ++ tr]> t) v
            = if decide (v = v0) then get_trace t v ++ tr else get_trace t v)
      as Hstep.
    { unfold get_trace. destruct (decide (v = v0)) as [->|Hne].
      - by rewrite lookup_insert_eq.
      - by rewrite lookup_insert_ne. }
    split; [|split].
    + etrans; [|exact Hpre]. rewrite Hstep.
      destruct (decide (v = v0)); [by apply prefix_app_r|done].
    + intros [Hne Hnin]%not_elem_of_cons. rewrite Hout by done.
      by rewrite lookup_insert_ne.
    + intros [Hnin Hnd]%NoDup_cons [->|Hv]%elem_of_cons.
      * assert (∀ t1 t2 : tags, t1 !! v0 = t2 !! v0 →
                  get_trace t1 v0 = get_trace t2 v0) as Hext.
        { intros t1 t2 Heq. exact (f_equal (default []) Heq). }
        rewrite (Hext _ _ (Hout Hnin)), Hstep. by rewrite decide_True.
      * rewrite Hin, Hstep by done. rewrite decide_False; [done|].
        by intros ->.
Qed.

(** X25.  [copy_stack_trace] only appends: the trace a variable had is a prefix
    of the trace it has afterwards, a variable that is no target keeps its
    tag, and a target listed once has the list collected from [from_var]
    appended once. *)
Theorem copy_stack_trace_appends from_var to_var t v :
  let targets := match to_var with inl v0 => [v0] | inr vs => vs end in
  get_trace t v `prefix_of` get_trace (copy_stack_trace from_var to_var t) v
  ∧ (v ∉ targets → copy_stack_trace from_var to_var t !! v = t !! v)
  ∧ (NoDup targets → v ∈ targets →
     get_trace (copy_stack_trace from_var to_var t) v
     = get_trace t v ++ from_trace from_var t).
Proof.
  unfold copy_stack_trace. destruct to_var as [v0|vs]; simpl.
  - exact (copy_fold (from_trace from_var t) [v0] t v).
  - exact (copy_fold (from_trace from_var t) vs t v).
Qed.

Lemma check_nodes_true t (nodes : list (option node)) :
  check_nodes t nodes = Normal true
  ↔ Forall (λ x, ∃ n, x = Some n
                      ∧ ∀ o, o ∈ node_outputs n → has_trace t o = true) nodes.
Proof.
  induction nodes as [|[n|] nodes IH]; simpl.
  - done.
  - destruct (forallb (has_trace t) (node_outputs n)) eqn:Hall.
    + rewrite IH, Forall_cons. split; [|by intros [_ ?]].
      intros Hrest. split; [|done]. exists n. split; [done|].
      intros o Ho. rewrite forallb_forall in Hall.
      by apply Hall, list_elem_of_In.
    + split; [done|]. intros [(n' & [= <-] & Hn) _]%Forall_cons.
      apply not_true_iff_false in Hall. destruct Hall.
      apply forallb_forall. intros o Ho. by apply Hn, list_elem_of_In.
  - split; [done|]. by intros [(n' & ? & _) _]%Forall_cons.
Qed.

(** With ["all"] and a node to check, the answer is [True] exactly when
    every output of every node has a trace that is not empty. *)
Lemma check_all_nodes g bug_print t :
  apply_nodes g ≠ [] →
  (check_stack_trace (OfFunctionGraph g) (OpsStr "all") bug_print t
   = Normal true
   ↔ ∀ n o, n ∈ apply_nodes g → o ∈ node_outputs n →
            has_trace t o = true).
Proof.
  unfold StackTrace.check_stack_trace. simpl.
  intros Hne. destruct (apply_nodes g) as [|n0 ns] eqn:Hnodes; [done|].
  rewrite fmap_cons.
  change (check_nodes t (Some n0 :: (Some <$> ns)))
    with (check_nodes t (Some <$> (n0 :: ns))).
  rewrite check_nodes_true, Forall_fmap, Forall_forall. split.
  - intros Hall n o Hn. destruct (Hall n Hn) as (n' & [= <-] & Ho).
    apply Ho.
  - intros Hall n Hn. exists n. split; [done|]. intros o. by apply Hall.
Qed.

(** X26.  [check_stack_trace] on the outputs of the graph and on all its nodes.
    With ["last"] it returns [True] exactly when every output of the graph
    has an owner all of whose outputs have a trace that is not empty (on an
    output without owner it cannot return [True]); with ["all"], when every
    output of every node has one.  Without any node to check the answer is
    decided by [bug_print] alone. *)
Theorem check_stack_trace_last_all g bug_print t :
  (fg_outputs g ≠ [] →
   (check_stack_trace (OfFunctionGraph g) (OpsStr "last") bug_print t
    = Normal true
    ↔ ∀ v, v ∈ fg_outputs g →
           ∃ n, owner v = Some n
                ∧ ∀ o, o ∈ node_outputs n → has_trace t o = true))
  ∧ (apply_nodes g ≠ [] →
     (check_stack_trace (OfFunctionGraph g) (OpsStr "all") bug_print t
      = Normal true
      ↔ ∀ n o, n ∈ apply_nodes g → o ∈ node_outputs n →
               has_trace t o = true))
  ∧ (apply_nodes g = [] →
     check_stack_trace (OfFunctionGraph g) (OpsStr "all") bug_print t
     = if bool_decide (bug_print = "warn"%string) then Normal true
       else if bool_decide (bug_print = "raise"%string)
       then Raise PlainException
       else if bool_decide (bug_print = "ignore"%string) then Normal true
       else Raise ValueError).
Proof.
  split; [|split].
  - unfold StackTrace.check_stack_trace. simpl.
    intros Hne. destruct (fg_outputs g) as [|v0 vs] eqn:Houts; [done|].
    rewrite fmap_cons.
    change (check_nodes t (owner v0 :: (owner <$> vs)))
      with (check_nodes t (owner <$> (v0 :: vs))).
    rewrite check_nodes_true, Forall_fmap, Forall_forall.
    split; intros Hall v Hv; destruct (Hall v Hv) as (n & Hn & Ho);
      by exists n.
  - apply check_all_nodes.
  - unfold StackTrace.check_stack_trace. simpl. by intros ->.
Qed.

Lemma fill_outputs frame (outs : list var) : ∀ t,
  let t' := foldl (λ t output,
                     if has_trace t output then t
                     else <[output := [EList [ETuple frame]]]> t) t outs in
  (∀ v, has_trace t v = true → t' !! v = t !! v)
  ∧ (∀ v, v ∈ outs → has_trace t' v = true).
Proof.
  induction outs as [|o outs IH]; intros t; simpl.
  - split; [done|]. by intros v ?%elem_of_nil.
  - set (t1 := if has_trace t o then t
               else <[o := [EList [ETuple frame]]]> t).
    assert (∀ v, has_trace t v = true → t1 !! v = t !! v) as Hkeep.
    { intros v Hv. unfold t1. destruct (has_trace t o) eqn:Ho; [done|].
      rewrite lookup_insert_ne; [done|]. intros ->. congruence. }
    assert (has_trace t1 o = true) as Ho1.
    { unfold t1. destruct (has_trace t o) eqn:Ho; [done|].
      unfold has_trace. by rewrite lookup_insert_eq. }
    destruct (IH t1) as [Hk Hin]. split.
    + intros v Hv. rewrite Hk, Hkeep; [done..|].
      unfold has_trace in *. by rewrite Hkeep.
    + intros v [->|Hv]%elem_of_cons; [|by apply Hin].
      unfold has_trace. rewrite Hk by done. exact Ho1.
Qed.

Lemma fill_nodes frame (nodes : list node) : ∀ t,
  let t' := foldl (λ t n,
                     foldl (λ t output,
                              if has_trace t output then t
                              else <[output := [EList [ETuple frame]]]> t)
                           t (node_outputs n)) t nodes in
  (∀ v, has_trace t v = true → t' !! v = t !! v)
  ∧ (∀ n o, n ∈ nodes → o ∈ node_outputs n → has_trace t' o = true).
Proof.
  induction nodes as [|n nodes IH]; intros t; simpl.
  - split; [done|]. by intros n o ?%elem_of_nil.
  - destruct (fill_outputs frame (node_outputs n) t) as [Hk1 Hin1].
    set (t1 := foldl _ t (node_outputs n)) in *.
    destruct (IH t1) as [Hk Hin]. split.
    + intros v Hv. rewrite Hk, Hk1; [done..|].
      unfold has_trace in *. by rewrite Hk1.
    + intros n' o [->|Hn']%elem_of_cons Ho; [|by eapply Hin].
      unfold has_trace. rewrite Hk by (by apply Hin1).
      by apply Hin1.
Qed.

(** X27.  [CheckStackTraceFeature.on_import] repairs what [check_stack_trace]
    reports.  Under ["log"] or ["warn"], on a graph with a node, it
    returns, the traces that were not empty are as they were, and the check
    of all the nodes holds afterwards, whatever it was before.  Under
    ["raise"] it raises [AssertionError] exactly when the check fails, and
    under ["off"] it does nothing; in both cases the tags are as they
    were. *)
Theorem on_import_repairs cfg frame g t :
  apply_nodes g ≠ [] →
  (cfg = "log"%string ∨ cfg = "warn"%string →
   ∃ t', on_import cfg frame g t = (Normal tt, t')
         ∧ (∀ v, has_trace t v = true → t' !! v = t !! v)
         ∧ ∀ bug_print,
             check_stack_trace (OfFunctionGraph g) (OpsStr "all") bug_print t'
             = Normal true)
  ∧ (cfg = "raise"%string →
     (on_import cfg frame g t).2 = t
     ∧ ((on_import cfg frame g t).1 = Raise AssertionError
        ↔ check_stack_trace (OfFunctionGraph g) (OpsStr "all") "raise" t
          = Normal false))
  ∧ (cfg = "off"%string → on_import cfg frame g t = (Normal tt, t)).
Proof.
  intros Hne.
  pose proof (check_all_nodes g "raise" t Hne) as Hall.
  assert (∃ b, check_stack_trace (OfFunctionGraph g) (OpsStr "all") "raise" t
               = Normal b) as [b Hb].
  { unfold StackTrace.check_stack_trace. simpl.
    destruct (apply_nodes g) as [|n0 ns]; [done|]. rewrite fmap_cons.
    change (Some n0 :: (Some <$> ns)) with (Some <$> (n0 :: ns)).
    generalize (n0 :: ns). intros l. induction l as [|n l IH]; simpl; [eauto|].
    destruct (forallb _ _); eauto. }
  split; [|split].
  - intros Hcfg. unfold StackTrace.on_import.
    rewrite bool_decide_eq_false_2 by (by destruct Hcfg as [-> | ->]).
    rewrite Hb. destruct b.
    + exists t. split; [done|]. split; [done|]. intros bug_print.
      apply check_all_nodes; [done|]. by apply Hall.
    + rewrite bool_decide_eq_false_2 by (by destruct Hcfg as [-> | ->]).
      assert (bool_decide (cfg = "log"%string)
              || bool_decide (cfg = "warn"%string) = true) as ->.
      { destruct Hcfg as [-> | ->]; done. }
      destruct (fill_nodes frame (apply_nodes g) t) as [Hk Hin].
      eexists. split; [done|]. split; [exact Hk|]. intros bug_print.
      apply check_all_nodes; [done|]. exact Hin.
  - intros ->. unfold StackTrace.on_import.
    rewrite bool_decide_eq_false_2 by done. rewrite Hb. by destruct b.
  - intros ->. done.
Qed.
End StackTraceFacts.

Section PreConstantMergeFacts.
Context {objs : Objects}.
Import PreConstantMerge.
Variable signature : var → Sig.
Variable in_fgraph : node → bool.

Abbreviation same_or_merged := (same_or_merged signature).
Abbreviation inv_ok := (inv_ok signature).
Abbreviation step_ok := (step_ok signature in_fgraph).
Abbreviation recursive_merge := (recursive_merge signature in_fgraph).

Lemma same_or_merged_refl a : same_or_merged a a.
Proof. by left. Qed.

Lemma same_or_merged_trans a b c :
  same_or_merged a b → same_or_merged b c → same_or_merged a c.
Proof.
  intros [->|(Ha & Hb & Hab)] [->|(Hb' & Hc & Hbc)].
  - by left.
  - right. done.
  - right. done.
  - right. split; [done|]. split; [done|]. congruence.
Qed.

Lemma Forall2_same_refl (l : list var) : Forall2 same_or_merged l l.
Proof. induction l; constructor; [apply same_or_merged_refl|done]. Qed.

Lemma Forall2_same_trans (l1 l2 l3 : list var) :
  Forall2 same_or_merged l1 l2 → Forall2 same_or_merged l2 l3 →
  Forall2 same_or_merged l1 l3.
Proof.
  intros H12. revert l3. induction H12 as [|a b l1 l2 Hab H12 IH];
    intros l3 H23; inversion H23; subst; constructor.
  - by eapply same_or_merged_trans.
  - by apply IH.
Qed.

Lemma step_ok_refl st : inv_ok st → step_ok st st.
Proof.
  intros Hinv. split; [done|]. split; [done|].
  intros n. apply Forall2_same_refl.
Qed.

Lemma step_ok_trans st1 st2 st3 :
  step_ok st1 st2 → step_ok st2 st3 → step_ok st1 st3.
Proof.
  intros (_ & Hf1 & Hr1) (Hinv & Hf2 & Hr2). split; [done|]. split.
  - intros n Hn. by rewrite Hf2, Hf1.
  - intros n. by eapply Forall2_same_trans.
Qed.

Lemma set_input_ok st n idx inp r :
  inv_ok st → in_fgraph n = false →
  inputs st n !! idx = Some inp → same_or_merged inp r →
  step_ok st (set_input st n idx r).
Proof.
  intros Hinv Hn Hidx Hr. split; [done|]. split; simpl.
  - intros m Hm. rewrite decide_False; [done|]. intros ->. congruence.
  - intros m. destruct (decide (m = n)) as [->|]; [|apply Forall2_same_refl].
    revert idx Hidx. induction (inputs st n) as [|x l IH]; intros idx Hidx;
      [done|].
    destruct idx as [|idx]; simpl in *.
    + injection Hidx as ->. constructor; [done|apply Forall2_same_refl].
    + constructor; [apply same_or_merged_refl|by apply IH].
Qed.

Lemma merge_inputs_ok (rec : var → state → option (var * state)) n idxs :
  in_fgraph n = false →
  (∀ v st r st', inv_ok st → rec v st = Some (r, st') →
                 step_ok st st' ∧ same_or_merged v r) →
  ∀ st st', inv_ok st →
            merge_inputs rec n idxs st = Some st' → step_ok st st'.
Proof.
  intros Hn Hrec. induction idxs as [|idx rest IH]; intros st st' Hinv; simpl.
  - intros [= <-]. by apply step_ok_refl.
  - destruct (inputs st n !! idx) as [inp|] eqn:Hidx.
    2:{ intros [= <-]. by apply step_ok_refl. }
    destruct (rec inp st) as [[r st1]|] eqn:Hr; [|done].
    destruct (Hrec _ _ _ _ Hinv Hr) as [Hstep Hsame].
    intros Hrest.
    destruct Hstep as (Hinv1 & Hf1 & Hr1).
    assert (∃ inp1, inputs st1 n !! idx = Some inp1
                    ∧ same_or_merged inp inp1) as (inp1 & Hidx1 & Hii).
    { specialize (Hr1 n).
      destruct (Forall2_lookup_l _ _ _ _ _ Hr1 Hidx) as (inp1 & ? & ?).
      by exists inp1. }
    eapply step_ok_trans; [by split|].
    eapply step_ok_trans; [|apply IH; [|exact Hrest]].
    + apply (set_input_ok st1 n idx inp1 r); try done.
      (* the replacement is related to the input as it now stands *)
      destruct Hii as [->|(Hc & Hc1 & Hs1)]; [done|].
      destruct Hsame as [->|(_ & Hcr & Hsr)].
      * right. split; [done|]. split; [done|]. congruence.
      * right. split; [done|]. split; [done|]. congruence.
    + done.
Qed.

Lemma recursive_merge_ok fuel : ∀ v st r st',
  inv_ok st → recursive_merge fuel v st = Some (r, st') →
  step_ok st st' ∧ same_or_merged v r.
Proof.
  induction fuel as [|fuel IH]; intros v st r st' Hinv; simpl; [done|].
  case_bool_decide as Hseen.
  { intros [= <- <-]. split; [by apply step_ok_refl|by left]. }
  destruct (match owner v with Some n => in_fgraph n | None => false end)
    eqn:Hfg.
  { intros [= <- <-]. split; [by apply step_ok_refl|by left]. }
  destruct (is_Constant v) eqn:Hconst.
  - destruct (const_sig_inv st !! signature v) as [c|] eqn:Hc.
    + intros [= <- <-]. split.
      * split; [done|]. split; [done|]. intros n. apply Forall2_same_refl.
      * right. destruct (Hinv _ _ Hc) as [Hcc Hcs]. done.
    + intros [= <- <-]. split; [|by left].
      split; [|split; [done|intros n; apply Forall2_same_refl]].
      intros sig c. simpl. destruct (decide (sig = signature v)) as [->|Hne].
      * rewrite lookup_insert_eq. by intros [= <-].
      * rewrite lookup_insert_ne by done. apply Hinv.
  - destruct (owner v) as [n|] eqn:Hown.
    + destruct (merge_inputs _ n _ _) as [st2|] eqn:Hm; [|done].
      intros [= <- <-]. split; [|by left].
      apply merge_inputs_ok in Hm; [| |exact IH|done]; [|done].
      destruct Hm as (Hinv2 & Hf2 & Hr2). by split.
    + intros [= <- <-]. split; [|by left].
      split; [done|]. split; [done|]. intros n. apply Forall2_same_refl.
Qed.

Lemma merge_all_ok fuel vs : ∀ st rs st',
  inv_ok st →
  merge_all signature in_fgraph fuel vs st = Some (rs, st') →
  step_ok st st' ∧ Forall2 same_or_merged vs rs.
Proof.
  induction vs as [|v vs IH]; intros st rs st' Hinv; simpl.
  - intros [= <- <-]. split; [by apply step_ok_refl|done].
  - destruct (recursive_merge fuel v st) as [[r st1]|] eqn:Hr; [|done].
    simpl. apply recursive_merge_ok in Hr as [Hstep Hsame]; [|done].
    destruct (merge_all _ _ fuel vs st1) as [[rs1 st2]|] eqn:Hrest; [|done].
    simpl. intros [= <- <-].
    apply IH in Hrest as [Hstep2 Hall]; [|by destruct Hstep].
    split; [by eapply step_ok_trans|by constructor].
Qed.

(** X28.  [pre_constant_merge] only merges constants, and only outside the
    function graph: each variable it returns is the variable it was given
    or a constant with the signature of the constant it was given; the
    input lists of the nodes of the function graph are as they were; and
    every other input list has, position by position, the input it had or
    a constant with the same signature. *)
Theorem pre_constant_merge_sound fuel variables ins rs ins' :
  pre_constant_merge signature in_fgraph fuel variables ins = Some (rs, ins') →
  Forall2 same_or_merged
    (match variables with inl v => [v] | inr vs => vs end) rs
  ∧ (∀ n, in_fgraph n = true → ins' n = ins n)
  ∧ (∀ n, Forall2 same_or_merged (ins n) (ins' n)).
Proof.
  unfold pre_constant_merge.
  destruct (merge_all _ _ fuel _ _) as [[rs1 st]|] eqn:Hall; [|done].
  simpl. intros [= <- <-].
  apply merge_all_ok in Hall as [(_ & Hf & Hr) Hrs]; [done|].
  intros sig c. simpl. by rewrite lookup_empty.
Qed.

Lemma merge_inputs_seen (rec : var → state → option (var * state)) n idxs :
  (∀ v st r st', rec v st = Some (r, st') → seen_var st ⊆ seen_var st') →
  ∀ st st', merge_inputs rec n idxs st = Some st' →
            seen_var st ⊆ seen_var st'.
Proof.
  intros Hrec. induction idxs as [|idx rest IH]; intros st st'; simpl.
  - by intros [= <-].
  - destruct (inputs st n !! idx) as [inp|]; [|by intros [= <-]].
    destruct (rec inp st) as [[r st1]|] eqn:Hr; [|done].
    intros Hrest. apply IH in Hrest. simpl in Hrest.
    etrans; [by eapply Hrec|done].
Qed.

Lemma recursive_merge_seen fuel : ∀ v st r st',
  recursive_merge fuel v st = Some (r, st') →
  seen_var st ⊆ seen_var st'
  ∧ (v ∈ seen_var st'
     ∨ match owner v with Some n => in_fgraph n | None => false end = true).
Proof.
  induction fuel as [|fuel IH]; intros v st r st'; simpl; [done|].
  case_bool_decide as Hseen.
  { intros [= _ <-]. split; [done|by left]. }
  destruct (match owner v with Some n => in_fgraph n | None => false end)
    eqn:Hfg.
  { intros [= _ <-]. split; [done|by right]. }
  assert (v ∈ ({[v]} ∪ seen_var st : gset var)) as Hv.
  { apply elem_of_union_l. by apply elem_of_singleton. }
  destruct (is_Constant v).
  - destruct (const_sig_inv st !! signature v);
      intros [= _ <-]; simpl; (split; [apply union_subseteq_r|by left]).
  - destruct (owner v) as [n|].
    + destruct (merge_inputs _ n _ _) as [st2|] eqn:Hm; [|done].
      intros [= _ <-].
      apply merge_inputs_seen in Hm;
        [|intros v0 s0 r0 s0' H0; by destruct (IH _ _ _ _ H0)].
      simpl in Hm. split; [|left; by apply Hm].
      etrans; [apply union_subseteq_r|exact Hm].
    + intros [= _ <-]. simpl. split; [apply union_subseteq_r|by left].
Qed.

(** X29.  A variable is dealt with once.  After any call of [recursive_merge] on
    a variable, a second call on it returns the variable itself and
    changes nothing, also when the first call had returned another
    constant in its place: a constant that occurs twice is replaced at its
    first occurrence only. *)
Theorem recursive_merge_second_call fuel fuel' v st r st' :
  recursive_merge fuel v st = Some (r, st') →
  recursive_merge (S fuel') v st' = Some (v, st').
Proof.
  intros Hfirst. apply recursive_merge_seen in Hfirst as [_ [Hseen|Hfg]];
    simpl.
  - by rewrite bool_decide_eq_true_2.
  - rewrite Hfg. by case_bool_decide.
Qed.
End PreConstantMergeFacts.

Section PatternMoreFacts.
Context {objs : Objects} {G : Type} {graphs : FunctionGraph G}.
Import PatternSub.
Variable reify : pattern G → subst → var.

Implicit Types (self : PatternSub G) (g : G).

Lemma match_node_types self g n l :
  match_node reify self g n = Normal (RList l) →
  ∃ ret, l = [ret]
         ∧ match owner ret with
           | Some ro =>
               map var_type (node_outputs ro) = map var_type (node_outputs n)
           | None =>
               ∃ o, node_outputs n = [o] ∧ var_type ret = var_type o
           end.
Proof.
  unfold match_node, node_out. case_bool_decide as Hop; [done|].
  destruct (node_outputs n) as [|o [|o' os]] eqn:Hout; [done| |done].
  destruct (unify g (in_pattern self) o ∅) as [s|] eqn:Hu; [|done].
  destruct (owner (reify (out_pattern self) s)) as [ro|] eqn:Hown.
  - case_bool_decide as Hty; [done|]. intros [= <-].
    exists (reify (out_pattern self) s). rewrite Hown. split; [done|].
    destruct (decide (map var_type (node_outputs ro) = map var_type [o]));
      [done|]. by destruct Hty.
  - case_bool_decide; [done|]. case_bool_decide as Hty; [done|].
    intros [= <-]. exists (reify (out_pattern self) s). rewrite Hown.
    split; [done|]. exists o. split; [done|].
    destruct (decide (var_type (reify (out_pattern self) s) = var_type o));
      [done|]. by destruct Hty.
Qed.

(** X30.  A replacement [PatternSub.transform] proposes has the types of
    what it replaces.  When it returns a list, the list holds one variable.
    If that variable has an owner, the outputs of the owner have, in order,
    the types of the outputs of the node, as many as there are.  If it has
    none, the node has a single output and the variable has its type.  With
    [get_nodes] a result found at another node comes as a dict. *)
Theorem transform_preserves_types self g n l :
  transform reify self g n = Normal (RList l) →
  ∃ ret, l = [ret]
         ∧ match owner ret with
           | Some ro =>
               map var_type (node_outputs ro) = map var_type (node_outputs n)
           | None =>
               ∃ o, node_outputs n = [o] ∧ var_type ret = var_type o
           end.
Proof.
  unfold transform.
  destruct (negb (allow_multiple_clients self)
            && some_value_has_several_clients g n); [done|].
  destruct (get_nodes self) as [gn|]; [|apply match_node_types].
  destruct (try_real_nodes reify self g (gn g n)) as [[r|]|e] eqn:Ht;
    [|apply match_node_types|done].
  apply try_real_nodes_dict in Ht as [d ->]. done.
Qed.
End PatternMoreFacts.

(** ** The further properties on the scenarios *)

Section MergeConstantWitnesses.
#[local] Existing Instance ConstantScenario.objs.
#[local] Existing Instance ConstantScenario.graphs.
Import Merge MergeInv.

(** The pass of scenario S1 returns with nothing left scheduled; on the
    empty feature [apply] returns at once. *)
Lemma apply_drains_schedule_witness :
  (∃ p g' w',
     apply 10 ConstantScenario.g0 ConstantScenario.attached.2
     = Some (Normal p, (g', w'))
     ∧ scheduled (feature w') = [])
  ∧ apply 0 ConstantScenario.g0 {| names := ∅; feature := empty_feature |}
    = Some (Normal {| p_nb_fail := 0; p_nb_merged := 0; p_nb_constant := 0 |},
            (ConstantScenario.g0,
             {| names := ∅; feature := set_blacklist empty_feature [] |})).
Proof.
  destruct (@apply_drains_schedule ConstantScenario.objs FG.fgraph
              ConstantScenario.graphs) as [Hdrain Hempty].
  split.
  - let r := eval vm_compute in
      (apply 10 ConstantScenario.g0 ConstantScenario.attached.2) in
    assert (apply 10 ConstantScenario.g0 ConstantScenario.attached.2 = r)
      as Hrun by (vm_compute; reflexivity).
    eexists _, _, _. split; [exact Hrun|].
    exact (Hdrain _ _ _ _ _ _ Hrun).
  - apply (Hempty 0 ConstantScenario.g0
             {| names := ∅; feature := empty_feature |}). reflexivity.
Defined.

(** In scenario S1 the one merge is a constant merge. *)
Lemma nb_constant_le_nb_merged_witness :
  ∃ p gw,
    apply 10 ConstantScenario.g0 ConstantScenario.attached.2
    = Some (Normal p, gw)
    ∧ p_nb_constant p ≤ p_nb_merged p
    ∧ (p_nb_constant p, p_nb_merged p) = (1, 1).
Proof.
  let r := eval vm_compute in
    (apply 10 ConstantScenario.g0 ConstantScenario.attached.2) in
  assert (apply 10 ConstantScenario.g0 ConstantScenario.attached.2 = r)
    as Hrun by (vm_compute; reflexivity).
  eexists _, _. split; [exact Hrun|]. split; [|reflexivity].
  exact (nb_constant_le_nb_merged _ _ _ _ _ Hrun).
Defined.

(** The import of the node [0] of scenario S1 records the constant [2]
    under its signature [7], and the indexes agree. *)
Lemma constant_indexes_agree_witness :
  let w := (handle ConstantScenario.g0 (OnImport 0)
              {| names := ∅; feature := empty_feature |}).2 in
  const_index_ok (feature w)
  ∧ const_sig (feature w) !! 2 = Some 7
  ∧ const_sig_inv (feature w) !! 7 = Some 2.
Proof.
  destruct (@constant_indexes_agree ConstantScenario.objs FG.fgraph
              ConstantScenario.graphs) as (Hempty & Hhandle & _ & _).
  split; [|split; by vm_compute].
  apply (Hhandle ConstantScenario.g0 (OnImport 0)
           {| names := ∅; feature := empty_feature |}). exact Hempty.
Defined.
End MergeConstantWitnesses.

Section MergeGroupWitnesses.
#[local] Existing Instance GroupScenario.objs.
#[local] Existing Instance GroupScenario.graphs.
Import Merge MergeInv.

(** In the pass over the three [mul] nodes four replacements are rejected
    and four pairs are blacklisted. *)
Lemma nb_fail_counts_blacklist_witness :
  ∃ s',
    apply_loop 20 GroupScenario.s0 = Some (Normal tt, s')
    ∧ nb_fail s' + length (blacklist (feature (fw GroupScenario.s0)))
      = nb_fail GroupScenario.s0 + length (blacklist (feature (fw s')))
    ∧ nb_fail s' = 4.
Proof.
  let r := eval vm_compute in (apply_loop 20 GroupScenario.s0) in
  assert (apply_loop 20 GroupScenario.s0 = r)
    as Hrun by (vm_compute; reflexivity).
  eexists. split; [exact Hrun|]. split; [|reflexivity].
  exact (nb_fail_counts_blacklist _ _ _ _ Hrun).
Defined.
End MergeGroupWitnesses.

Section MergeDestroyWitnesses.
#[local] Existing Instance DestroyScenario.objs.
#[local] Existing Instance DestroyScenario.graphs.
Import Merge MergeInv.

(** In scenario S3, once the node [0] is imported, [process_node] on the
    node [1] schedules one group. *)
Lemma process_node_schedules_equal_nodes_witness :
  let w := (on_import DestroyScenario.g0 0
              {| names := ∅; feature := empty_feature |}).2 in
  let w' := (process_node DestroyScenario.g0 1 w).2 in
  scheduled (feature w') = [[[(3, 2, ModeMerge)]]]
  ∧ ((∃ group, group ≠ []
               ∧ scheduled (feature w') = scheduled (feature w) ++ [group]
               ∧ nodes_seen (feature w') = nodes_seen (feature w)
               ∧ Forall (sound_plan DestroyScenario.g0 (feature w) 1) group)
     ∨ (scheduled (feature w') = scheduled (feature w)
        ∧ nodes_seen (feature w') = {[1]} ∪ nodes_seen (feature w))).
Proof.
  split; [by vm_compute|].
  apply (@process_node_schedules_equal_nodes DestroyScenario.objs FG.fgraph
           DestroyScenario.graphs DestroyScenario.g0 1).
  - apply (bool_decide_unpack _). by vm_compute.
  - by vm_compute.
Defined.
End MergeDestroyWitnesses.

Section SeqMoreWitnesses.
Import SeqOptimizer.

(** Two working rewriters give two sub-profiles. *)
Lemma seq_profiles_aligned_witness :
  seq_apply SeqPlainScenario.seq_plain [] = (Normal [tt; tt], [1; 2])
  ∧ length [tt; tt] ≤ length (data SeqPlainScenario.seq_plain)
  ∧ (failure_callback SeqPlainScenario.seq_plain = None →
     length [tt; tt] = length (data SeqPlainScenario.seq_plain)).
Proof.
  split; [reflexivity|].
  apply (seq_profiles_aligned SeqPlainScenario.seq_plain [] [tt; tt] [1; 2]).
  reflexivity.
Defined.

(** Under [on_opt_error = "warn"] the assertion error of the first
    rewriter goes through. *)
Lemma seq_warn_only_assertions_witness :
  seq_apply (SeqScenario.seq_warn OnErrWarn AssertionError) []
  = (Raise AssertionError, [1])
  ∧ is_AssertionError AssertionError = true.
Proof.
  split; [reflexivity|].
  apply (seq_warn_only_assertions
           (SeqScenario.seq_warn OnErrWarn AssertionError) OnErrWarn []
           AssertionError [1]); [reflexivity|done|reflexivity].
Defined.
End SeqMoreWitnesses.

Section NavigatorMoreWitnesses.
#[local] Existing Instance TopoScenario.objs.
#[local] Existing Instance TopoScenario.graphs.
Import Navigator NavigatorMore.

(** On [g(f(x))] the rewriter of the pass succeeds at the node [g]: the
    graph accepted the pair [(2, 0)]; at the node [f] it answers [False]
    and the graph is left alone. *)
Lemma process_node_true_iff_replaced_witness :
  (∃ g' tr,
     process_node None TopoScenario.g0 1 TopoScenario.g_of_f
     = (Normal true, g', tr)
     ∧ ∃ pairs remove,
         pairs ≠ [] ∧ (∀ p, p ∈ pairs → p.1 ≠ p.2)
         ∧ replace_all_validate_remove TopoScenario.g0 pairs remove
           = (tr, g', None))
  ∧ process_node None TopoScenario.g0 0 TopoScenario.g_of_f
    = (Normal false, TopoScenario.g0, []).
Proof.
  destruct (@process_node_true_iff_replaced TopoScenario.objs FG.fgraph
              TopoScenario.graphs None TopoScenario.g0 1 TopoScenario.g_of_f)
    as [Htrue _].
  split; [|by vm_compute].
  let r := eval vm_compute in
    (process_node None TopoScenario.g0 1 TopoScenario.g_of_f) in
  assert (process_node None TopoScenario.g0 1 TopoScenario.g_of_f = r)
    as Hrun by (vm_compute; reflexivity).
  eexists _, _. split; [exact Hrun|]. exact (Htrue _ _ Hrun).
Defined.

(** A malformed answer raises [TypeError] through [warn_ignore]. *)
Lemma process_node_warn_ignore_witness :
  process_node (Some warn_ignore) TopoScenario.g0 1 RewriterScenario.malformed
  = (Raise TypeError, TopoScenario.g0, [])
  ∧ (TypeError = TypeError ∨ TypeError = ValueError)
  ∧ TopoScenario.g0 = TopoScenario.g0
  ∧ ([] : list (FG.fgraph * event)) = [].
Proof.
  split; [reflexivity|].
  apply (@process_node_warn_ignore TopoScenario.objs FG.fgraph
           TopoScenario.graphs TopoScenario.g0 1 RewriterScenario.malformed
           TypeError TopoScenario.g0 []).
  reflexivity.
Defined.

(** The assertion error of a rewriter goes through [warn] and through
    [warn_inplace]. *)
Lemma process_node_warn_policy_witness :
  is_InconsistencyError AssertionError = false
  ∧ process_node (Some (warn OnErrWarn)) TopoScenario.g0 1
      RewriterScenario.asserting
    = (Raise AssertionError, TopoScenario.g0, []).
Proof.
  destruct (@process_node_warn_policy TopoScenario.objs FG.fgraph
              TopoScenario.graphs OnErrWarn TopoScenario.g0 1
              RewriterScenario.asserting) as [Hinplace Hwarn].
  split.
  - apply (Hinplace AssertionError TopoScenario.g0 []). reflexivity.
  - apply (Hwarn AssertionError); [done|reflexivity|reflexivity].
Defined.

(** [OpRemove(f)] on [g(f(x))]: the node [g] is left alone; at the node
    [f] the graph accepts the replacement of its output by its input.
    [OpRemove(mul)] on a [mul] node of the graph of the three [mul] nodes,
    which has two inputs and one output: [ValueError], also under
    [warn_ignore]. *)
Lemma OpRemove_process_node_witness :
  process_node None TopoScenario.g0 1 (OpRemove 74 40)
  = (Normal false, TopoScenario.g0, [])
  ∧ (∃ g' tr,
       process_node None TopoScenario.g0 0 (OpRemove 74 40)
       = (Normal true, g', tr)
       ∧ node_op 0 = 40
       ∧ length (node_inputs TopoScenario.g0 0) = length (node_outputs 0)
       ∧ replace_all_validate_remove TopoScenario.g0
           (filter (λ p : var * var, p.1 ≠ p.2)
              (zip (node_outputs 0) (node_inputs TopoScenario.g0 0))) []
         = (tr, g', None))
  ∧ @process_node GroupScenario.objs FG.fgraph GroupScenario.graphs
      (Some (@warn_ignore FG.fgraph)) GroupScenario.g0 0
      (@OpRemove GroupScenario.objs FG.fgraph GroupScenario.graphs 74 10)
    = (Raise ValueError, GroupScenario.g0, []).
Proof.
  split; [|split].
  - destruct (@OpRemove_process_node TopoScenario.objs FG.fgraph
                TopoScenario.graphs None 74 40 TopoScenario.g0 1)
      as [Hother _].
    apply Hother. by vm_compute.
  - destruct (@OpRemove_process_node TopoScenario.objs FG.fgraph
                TopoScenario.graphs None 74 40 TopoScenario.g0 0)
      as (_ & _ & Hsuccess).
    let r := eval vm_compute in
      (process_node None TopoScenario.g0 0 (OpRemove 74 40)) in
    assert (process_node None TopoScenario.g0 0 (OpRemove 74 40) = r)
      as Hrun by (vm_compute; reflexivity).
    eexists _, _. split; [exact Hrun|]. exact (Hsuccess _ _ Hrun).
  - destruct (@OpRemove_process_node GroupScenario.objs FG.fgraph
                GroupScenario.graphs (Some (@warn_ignore FG.fgraph)) 74 10
                GroupScenario.g0 0) as (_ & Harity & _).
    apply Harity; by vm_compute.
Defined.

(** The pass from the outputs hands over the node [g] alone, which is the
    first node of the reversed sort. *)
Lemma topo_pass_order_witness :
  ∃ r s,
    topo_apply (TopoScenario.topo true) 10 TopoScenario.g0
      (FG.outputs TopoScenario.g0) = Some (r, s)
    ∧ (snd <$> t_processed s)
      `sublist_of` pending (TopoScenario.topo true)
                     (io_toposort TopoScenario.g0 (FG.outputs TopoScenario.g0))
    ∧ t_nb s ≤ length (t_processed s)
    ∧ (snd <$> t_processed s, t_nb s) = ([1], 1).
Proof.
  let r := eval vm_compute in
    (topo_apply (TopoScenario.topo true) 10 TopoScenario.g0
       (FG.outputs TopoScenario.g0)) in
  assert (topo_apply (TopoScenario.topo true) 10 TopoScenario.g0
            (FG.outputs TopoScenario.g0) = r)
    as Hrun by (vm_compute; reflexivity).
  eexists _, _. split; [exact Hrun|].
  destruct (@topo_pass_order TopoScenario.objs FG.fgraph TopoScenario.graphs
              (TopoScenario.topo true) 10 TopoScenario.g0
              (FG.outputs TopoScenario.g0) _ _ eq_refl Hrun) as [Hsub Hnb].
  split; [exact Hsub|]. split; [exact Hnb|reflexivity].
Defined.

(** A pass with the rewriter that never applies, new nodes not ignored. *)
Lemma topo_pass_noop_witness :
  ∃ s,
    topo_apply (RewriterScenario.topo_never in_to_out false) 2
      TopoScenario.g0 (FG.outputs TopoScenario.g0) = Some (Normal tt, s)
    ∧ t_graph s = TopoScenario.g0 ∧ t_nb s = 0 ∧ t_q s = []
    ∧ t_pushed s = []
    ∧ snd <$> t_processed s
      = filter (λ n, fg_apply_nodes TopoScenario.g0 n = true)
          (pending (RewriterScenario.topo_never in_to_out false)
             (io_toposort TopoScenario.g0 (FG.outputs TopoScenario.g0))).
Proof.
  apply (@topo_pass_noop TopoScenario.objs FG.fgraph TopoScenario.graphs
           (RewriterScenario.topo_never in_to_out false) 2 TopoScenario.g0
           (FG.outputs TopoScenario.g0)).
  - intros n _. reflexivity.
  - vm_compute. lia.
Defined.
End NavigatorMoreWitnesses.

Section EquilibriumMoreWitnesses.
#[local] Existing Instance TopoScenario.objs.
#[local] Existing Instance TopoScenario.graphs.
Import Navigator NavigatorMore Equilibrium EquilibriumMore.

(** Two prunes leave the tracker as it is; an import sets [changed]. *)
Lemma change_tracker_track_witness :
  track (reset {| changed := true; nb_imported := 3 |})
    [(TopoScenario.g0, OnPrune 0); (TopoScenario.g0, OnPrune 1)]
  = reset {| changed := true; nb_imported := 3 |}
  ∧ changed (track (reset {| changed := false; nb_imported := 3 |})
               [(TopoScenario.g0, OnPrune 0); (TopoScenario.g0, OnImport 1)])
    = true.
Proof.
  split.
  - destruct (@change_tracker_track FG.fgraph
                (reset {| changed := true; nb_imported := 3 |})
                [(TopoScenario.g0, OnPrune 0); (TopoScenario.g0, OnPrune 1)])
      as (_ & _ & Hprune).
    apply Hprune. repeat constructor; eauto.
  - destruct (@change_tracker_track FG.fgraph
                {| changed := false; nb_imported := 3 |}
                [(TopoScenario.g0, OnPrune 0); (TopoScenario.g0, OnImport 1)])
      as (Hch & _ & _).
    rewrite Hch. reflexivity.
Defined.

(** The driver whose rewriters leave [g(f(x))] alone, with
    [max_use_ratio = 0.5], returns after one iteration.  Started from the
    output of [f], which is no output of the graph, it raises
    [AssertionError]; with [max_use_ratio=None] it raises [TypeError]. *)
Lemma equilibrium_fixpoint_witness :
  (∃ s,
     apply (RewriterScenario.at_rest (Some RewriterScenario.half))
       OnErrRaise 1 2 None TopoScenario.g0
     = Some (Normal tt, s)
     ∧ e_graph s = TopoScenario.g0 ∧ e_changed s = false
     ∧ e_abort s = false ∧ e_count s = ∅
     ∧ Forall (λ x : nat * bool, x.2 = false) (e_log s))
  ∧ apply (RewriterScenario.at_rest (Some RewriterScenario.half))
      OnErrRaise 1 2 (Some [1]) TopoScenario.g0
    = Some (Raise AssertionError, unstarted TopoScenario.g0)
  ∧ apply (RewriterScenario.at_rest None) OnErrRaise 1 2 None
      TopoScenario.g0
    = Some (Raise TypeError, unstarted TopoScenario.g0).
Proof.
  split; [|split].
  - refine (proj2 (proj2 (equilibrium_fixpoint
                            (RewriterScenario.at_rest
                               (Some RewriterScenario.half))
                            OnErrRaise TopoScenario.g0 None 1 2))
              _ _ _ _ _ _ _ _).
    + intros o Ho. vm_compute in Ho. exists tt.
      repeat (apply elem_of_cons in Ho as [->|Ho]; [reflexivity|]).
      by apply elem_of_nil in Ho.
    + intros n lo Hlo. vm_compute in Hlo.
      apply list_elem_of_singleton in Hlo as ->. reflexivity.
    + intros o Ho. vm_compute in Ho.
      apply list_elem_of_singleton in Ho as ->.
      exists (λ _ _, Normal tt). split; [reflexivity|]. intros p1 p2.
      by exists tt.
    + reflexivity.
    + eexists. vm_compute. reflexivity.
    + eexists. vm_compute. reflexivity.
    + lia.
    + vm_compute. lia.
  - refine (proj1 (equilibrium_fixpoint
                     (RewriterScenario.at_rest (Some RewriterScenario.half))
                     OnErrRaise TopoScenario.g0 (Some [1]) 1 2) _).
    vm_compute. reflexivity.
  - refine (proj1 (proj2 (equilibrium_fixpoint
                            (RewriterScenario.at_rest None)
                            OnErrRaise TopoScenario.g0 None 1 2)) _ _);
      reflexivity.
Defined.
End EquilibriumMoreWitnesses.

Section GroupWitnesses.
#[local] Existing Instance TopoScenario.objs.
#[local] Existing Instance TopoScenario.graphs.
Import LocalOptTracker LocalOptGroup GroupRewriterScenario.

(** The rewriter [3] is returned for the operator [g] and is
    registered. *)
Lemma get_trackers_registered_witness :
  get_trackers_body type_of compose_mro (tracker tracks grp) 41 = [1; 3; 2]
  ∧ 3 ∈ get_rewriters (tracker tracks grp).
Proof.
  assert (Hin : 3 ∈ get_trackers_body type_of compose_mro
                      (tracker tracks grp) 41)
    by (vm_compute; right; left).
  split; [by vm_compute|].
  exact (get_trackers_registered _ _ _ _ _ Hin).
Defined.

(** The rewriters [2], [1] and [5], once added to an empty tracker, are
    returned for the operator [g]. *)
Lemma add_tracker_found_witness :
  2 ∈ get_trackers_body type_of compose_mro (add_tracker tracks empty 2) 41
  ∧ 1 ∈ get_trackers_body type_of compose_mro (add_tracker tracks empty 1) 41
  ∧ 5 ∈ get_trackers_body type_of compose_mro (add_tracker tracks empty 5) 41.
Proof.
  split; [|split].
  - refine (proj1 (add_tracker_found _ _ _ _ _) _ _). reflexivity.
  - refine (proj1 (proj2 (add_tracker_found _ _ _ _ _))
              [TrackInstance 41] _ _ _); [reflexivity|by left].
  - refine (proj2 (proj2 (add_tracker_found _ _ _ _ _))
              [TrackType 41] 41 _ _ _ _); [reflexivity|by left|].
    vm_compute. left.
Defined.

(** The group of the rewriters [2] and [4] tracks the empty list; added
    under the identity [9], whose [tracks()] is that list, it leaves the
    tracker of the other group as it is. *)
Lemma untracked_group_dropped_witness :
  group_tracks tracks untracked = []
  ∧ add_tracker tracks (tracker tracks grp) 9 = tracker tracks grp.
Proof.
  assert (Hopts : ∀ o, o ∈ opts untracked →
                       tracks o = None ∨ tracks o = Some []).
  { intros o Ho. vm_compute in Ho.
    repeat (apply elem_of_cons in Ho as [->|Ho]; [by left|]).
    by apply elem_of_nil in Ho. }
  split.
  - exact (proj1 (untracked_group_dropped _ _ 9 (tracker tracks grp) Hopts)).
  - refine (proj2 (untracked_group_dropped _ _ 9 _ Hopts) _). reflexivity.
Defined.

(** At the node [g] the group answers with the list of the rewriter [3],
    after the empty list of the rewriter [1]. *)
Lemma group_transform_result_witness :
  transform type_of compose_mro tracks transform_of grp 1 TopoScenario.g0 1
  = Some (Normal (Some (RSeq [VVar 0])))
  ∧ truthy (RSeq [VVar 0]) = true.
Proof.
  assert (Hrun : transform type_of compose_mro tracks transform_of grp 1
                   TopoScenario.g0 1
                 = Some (Normal (Some (RSeq [VVar 0]))))
    by (vm_compute; reflexivity).
  split; [exact Hrun|].
  exact (group_transform_result _ _ _ _ _ _ _ _ _ Hrun).
Defined.

Lemma group_transform_first_witness :
  transform type_of compose_mro tracks transform_of grp 1 TopoScenario.g0 1
  = Some (first_applicable transform_of
            (get_trackers_body type_of compose_mro (tracker tracks grp)
               (node_op 1)) TopoScenario.g0 1)
  ∧ ∃ pre opt post,
      get_trackers_body type_of compose_mro (tracker tracks grp) (node_op 1)
      = pre ++ opt :: post
      ∧ transform_of opt TopoScenario.g0 1 = Normal (RSeq [VVar 0])
      ∧ truthy (RSeq [VVar 0]) = true
      ∧ ∀ o, o ∈ pre →
             ∃ r', transform_of o TopoScenario.g0 1 = Normal r'
                   ∧ truthy r' = false.
Proof.
  assert (Hrun : transform type_of compose_mro tracks transform_of grp 1
                   TopoScenario.g0 1
                 = Some (Normal (Some (RSeq [VVar 0]))))
    by (vm_compute; reflexivity).
  assert (Hall : apply_all_opts grp = false) by reflexivity.
  assert (Hne : opts grp ≠ []) by done.
  split.
  - exact (proj1 (group_transform_first type_of compose_mro tracks
                    transform_of grp 0 TopoScenario.g0 1 Hall Hne)).
  - exact (proj2 (group_transform_first type_of compose_mro tracks
                    transform_of grp 0 TopoScenario.g0 1 Hall Hne) _ Hrun).
Defined.
End GroupWitnesses.

Section ChainWitnesses.
#[local] Existing Instance TopoScenario.objs.
#[local] Existing Instance TopoScenario.graphs.
Import CheckChain ChainScenario.

(** On [g(f(x))] the chain [g, f] is confirmed from the output. *)
Lemma check_chain_true_only_ops_witness :
  check_chain isinstance_op issubclass_Op TopoScenario.g0 (inl 2)
    [IOp 41; IOp 40] = Normal true
  ∧ Forall (λ x : item nat, x ≠ INone ∧ ∀ i, x ≠ IInt i) [IOp 41; IOp 40].
Proof.
  assert (Hrun : check_chain isinstance_op issubclass_Op TopoScenario.g0
                   (inl 2) [IOp 41; IOp 40] = Normal true)
    by (vm_compute; reflexivity).
  split; [exact Hrun|].
  exact (check_chain_true_only_ops _ _ _ _ _ Hrun).
Defined.

(** The same chain read as a path along first inputs; on the node [f()]
    without input the chain [f] raises [IndexError]. *)
Lemma check_chain_ops_witness :
  follows_first_inputs TopoScenario.g0 2 [41; 40]
  ∧ check_chain isinstance_op issubclass_Op g_noin (inl 1) [IOp 40]
    = Raise IndexError.
Proof.
  assert (Hrun : check_chain isinstance_op issubclass_Op TopoScenario.g0
                   (inl 2) [IOp 41; IOp 40] = Normal true)
    by (vm_compute; reflexivity).
  assert (Hne : [41; 40] ≠ []) by done.
  assert (Howner : owner 1 = Some 0) by reflexivity.
  assert (Hop : node_op 0 = 40) by reflexivity.
  assert (Hins : node_inputs g_noin 0 = []) by reflexivity.
  split.
  - exact (proj1 (proj1 (check_chain_ops isinstance_op issubclass_Op
                           TopoScenario.g0 2 [41; 40]) Hne) Hrun).
  - exact (proj1 (proj2 (check_chain_ops isinstance_op issubclass_Op
                           g_noin 1 [40])) 0 40 Howner Hop Hins).
Defined.
End ChainWitnesses.

Section DictWitnesses.
Import MergeDict DictScenario.

(** The key of both dicts gets the sum. *)
Lemma merge_dict_get_witness :
  merge_dict Z.add d1 d2 = [(1, 10%Z); (2, 25%Z); (3, 7%Z)]
  ∧ get 2 (merge_dict Z.add d1 d2)
    = merged_value Z.add (get 2 d1) (get 2 d2).
Proof.
  split; [reflexivity|].
  apply (merge_dict_get Z.add d1 d2 2).
  apply (bool_decide_unpack _). by vm_compute.
Defined.

Lemma merge_dict_keys_witness :
  (merge_dict Z.add d1 d2).*1 = d1.*1 ++ filter (λ k, k ∉ d1.*1) d2.*1
  ∧ (NoDup d1.*1 → NoDup (merge_dict Z.add d1 d2).*1)
  ∧ (merge_dict Z.add d1 d2).*1 = [1; 2; 3].
Proof.
  split; [|split; [|reflexivity]];
    apply (merge_dict_keys Z.add d1 d2);
    apply (bool_decide_unpack _); by vm_compute.
Defined.
End DictWitnesses.

Section TraceWitnesses.
#[local] Existing Instance TopoScenario.objs.
#[local] Existing Instance TopoScenario.graphs.
Import StackTrace TraceScenario.

(** The trace of the output of [f] is copied to the output of [g] and to
    [x], wrapped in a list; the output of [f] keeps its own. *)
Lemma copy_stack_trace_appends_witness :
  from_trace (inl 1) t0 = [EList [ETuple 5]]
  ∧ get_trace (copy_stack_trace (inl 1) (inr [2; 0]) t0) 2
    = get_trace t0 2 ++ from_trace (inl 1) t0
  ∧ copy_stack_trace (inl 1) (inr [2; 0]) t0 !! 1 = t0 !! 1.
Proof.
  assert (Hnodup : NoDup [2; 0])
    by (apply (bool_decide_unpack _); vm_compute; reflexivity).
  assert (Hin : 2 ∈ [2; 0]) by left.
  assert (Hnotin : 1 ∉ [2; 0])
    by (apply (bool_decide_unpack _); vm_compute; reflexivity).
  split; [reflexivity|split].
  - exact (proj2 (proj2 (copy_stack_trace_appends (inl 1) (inr [2; 0]) t0 2))
             Hnodup Hin).
  - exact (proj1 (proj2 (copy_stack_trace_appends (inl 1) (inr [2; 0]) t0 1))
             Hnotin).
Defined.

(** With a trace on both outputs the two checks hold on [g(f(x))]; on the
    graph without node the check of all nodes has nothing to check. *)
Lemma check_stack_trace_last_all_witness :
  check_stack_trace isinstance_op scalar_op FG.apply_nodes
    (OfFunctionGraph TopoScenario.g0) (OpsStr "last") "raise" t_all
  = Normal true
  ∧ (∀ v, v ∈ fg_outputs TopoScenario.g0 →
          ∃ n, owner v = Some n
               ∧ ∀ o, o ∈ node_outputs n → has_trace t_all o = true)
  ∧ (∀ n o, n ∈ FG.apply_nodes TopoScenario.g0 → o ∈ node_outputs n →
            has_trace t_all o = true)
  ∧ check_stack_trace isinstance_op scalar_op FG.apply_nodes
      (OfFunctionGraph g_empty) (OpsStr "all") "ignore" t0
    = Normal true.
Proof.
  assert (Hlast : check_stack_trace isinstance_op scalar_op FG.apply_nodes
                    (OfFunctionGraph TopoScenario.g0) (OpsStr "last") "raise"
                    t_all = Normal true)
    by (vm_compute; reflexivity).
  assert (Hall : check_stack_trace isinstance_op scalar_op FG.apply_nodes
                   (OfFunctionGraph TopoScenario.g0) (OpsStr "all") "raise"
                   t_all = Normal true)
    by (vm_compute; reflexivity).
  assert (Houts : fg_outputs TopoScenario.g0 ≠ [])
    by (vm_compute; discriminate).
  assert (Hnodes : FG.apply_nodes TopoScenario.g0 ≠ [])
    by (vm_compute; discriminate).
  assert (Hnone : FG.apply_nodes g_empty = []) by reflexivity.
  split; [exact Hlast|split; [|split]].
  - exact (proj1 (proj1 (check_stack_trace_last_all isinstance_op scalar_op
                           FG.apply_nodes TopoScenario.g0 "raise" t_all)
                    Houts) Hlast).
  - exact (proj1 (proj1 (proj2 (check_stack_trace_last_all isinstance_op
                                  scalar_op FG.apply_nodes TopoScenario.g0
                                  "raise" t_all)) Hnodes) Hall).
  - etrans;
      [exact (proj2 (proj2 (check_stack_trace_last_all isinstance_op
                              scalar_op FG.apply_nodes g_empty "ignore" t0))
                Hnone)|].
    vm_compute. reflexivity.
Defined.

(** Under ["log"] the feature gives the output of [g] a trace and leaves
    the one of the output of [f]; under ["raise"] it raises
    [AssertionError]; under ["off"] it does nothing. *)
Lemma on_import_repairs_witness :
  (∃ t', on_import isinstance_op scalar_op FG.apply_nodes "log" 9
           TopoScenario.g0 t0 = (Normal tt, t')
         ∧ t' !! 1 = t0 !! 1
         ∧ check_stack_trace isinstance_op scalar_op FG.apply_nodes
             (OfFunctionGraph TopoScenario.g0) (OpsStr "all") "raise" t'
           = Normal true)
  ∧ (on_import isinstance_op scalar_op FG.apply_nodes "raise" 9
       TopoScenario.g0 t0).1 = Raise AssertionError
  ∧ on_import isinstance_op scalar_op FG.apply_nodes "off" 9
      TopoScenario.g0 t0 = (Normal tt, t0).
Proof.
  assert (Hnodes : FG.apply_nodes TopoScenario.g0 ≠ [])
    by (vm_compute; discriminate).
  assert (Hfalse : check_stack_trace isinstance_op scalar_op FG.apply_nodes
                     (OfFunctionGraph TopoScenario.g0) (OpsStr "all") "raise"
                     t0 = Normal false)
    by (vm_compute; reflexivity).
  assert (Hhas : has_trace t0 1 = true) by reflexivity.
  split; [|split].
  - destruct (proj1 (on_import_repairs (objs := TopoScenario.objs)
                       (graphs := TopoScenario.graphs) isinstance_op
                       scalar_op FG.apply_nodes "log" 9 TopoScenario.g0 t0
                       Hnodes)
                (or_introl eq_refl)) as (t' & Hrun & Hkeep & Hcheck).
    exists t'. split; [exact Hrun|]. split; [exact (Hkeep 1 Hhas)|].
    exact (Hcheck "raise").
  - exact (proj2 (proj2 (proj1 (proj2 (on_import_repairs isinstance_op
                                         scalar_op FG.apply_nodes "raise" 9
                                         TopoScenario.g0 t0 Hnodes))
                           eq_refl)) Hfalse).
  - exact (proj2 (proj2 (on_import_repairs isinstance_op scalar_op
                           FG.apply_nodes "off" 9 TopoScenario.g0 t0 Hnodes))
             eq_refl).
Defined.
End TraceWitnesses.

Section PreMergeWitnesses.
#[local] Existing Instance ConstantScenario.objs.
Import PreConstantMerge PreMergeScenario.

(** On [add(x, c1)] and [mul(y, c2)] the second node gets the constant of
    the first. *)
Lemma pre_constant_merge_sound_witness :
  ∃ rs ins',
    pre_constant_merge signature in_fgraph 5 (inr [4; 5]) ins
    = Some (rs, ins')
    ∧ rs = [4; 5] ∧ ins' 0 = [0; 2] ∧ ins' 1 = [1; 2]
    ∧ Forall2 (same_or_merged signature) [4; 5] rs
    ∧ (∀ n, in_fgraph n = true → ins' n = ins n)
    ∧ (∀ n, Forall2 (same_or_merged signature) (ins n) (ins' n)).
Proof.
  let r := eval vm_compute in
    (pre_constant_merge signature in_fgraph 5 (inr [4; 5]) ins) in
  lazymatch r with
  | Some (?rs, ?f) =>
      assert (Hrun : pre_constant_merge signature in_fgraph 5 (inr [4; 5]) ins
                     = Some (rs, f)) by (vm_compute; reflexivity);
      exists rs, f
  end.
  split; [exact Hrun|].
  split; [reflexivity|]. split; [reflexivity|]. split; [reflexivity|].
  exact (pre_constant_merge_sound _ _ _ _ _ _ _ Hrun).
Defined.

(** The constant [c2] is first answered by [c1], then by itself. *)
Lemma recursive_merge_second_call_witness :
  ∃ st', recursive_merge signature in_fgraph 1 3 st1 = Some (2, st')
         ∧ recursive_merge signature in_fgraph 1 3 st' = Some (3, st').
Proof.
  let r := eval vm_compute in
    (recursive_merge signature in_fgraph 1 3 st1) in
  lazymatch r with
  | Some (_, ?st) =>
      assert (Hrun : recursive_merge signature in_fgraph 1 3 st1
                     = Some (2, st)) by (vm_compute; reflexivity);
      exists st
  end.
  split; [exact Hrun|].
  exact (recursive_merge_second_call _ _ _ 0 _ _ _ _ Hrun).
Defined.
End PreMergeWitnesses.

Section PatternMoreWitnesses.
#[local] Existing Instance PatternScenario.objs.
#[local] Existing Instance PatternScenario.graphs.
Import PatternSub.

(** The pattern [(neg, 'x') -> 'x'] at the node [neg]: the value bound to
    ['x'] has the type of the output it replaces. *)
Lemma transform_preserves_types_witness :
  transform PatternScenario.reify PatternScenario.neg_x
    PatternScenario.g_alone 2 = Normal (RList [2])
  ∧ ∃ ret, [2] = [ret]
           ∧ match owner ret with
             | Some ro =>
                 map var_type (node_outputs ro)
                 = map var_type (node_outputs 2)
             | None =>
                 ∃ o, node_outputs 2 = [o] ∧ var_type ret = var_type o
             end.
Proof.
  assert (Hrun : transform PatternScenario.reify PatternScenario.neg_x
                   PatternScenario.g_alone 2 = Normal (RList [2]))
    by (vm_compute; reflexivity).
  split; [exact Hrun|].
  exact (transform_preserves_types _ _ _ _ _ Hrun).
Defined.
End PatternMoreWitnesses.
